(** * Block document model of the Markdown block editor (Doc.tsx)

    A shallow embedding of the block segmenter [splitIntoBlocks], of the
    keyboard state machine [handleKeyDown] with its structural split
    [handleBlockSplit], and of the toolbar command [handleBold], followed by
    the properties of the design document that concern them.  The
    initialization effect, the rows of a block in edit mode with the
    cleaning of typed text ([renderBlocks]), the caret code ([walk],
    [isCaretAtStartOfBlock]), the focus and selection handlers and
    [getNodeForBlock] are embedded as well, with further properties read off
    the source.

    Conventions.
    - A JavaScript string is the list of its UTF-16 code units, each an [N].
      Regular expressions of the source carry no [u] flag, so they too work
      on code units.
    - A JavaScript number used as an index or an offset is a [Z]; [slice],
      [splice] and indexing are given their behaviour on negative and
      out-of-range arguments.
    - Block ids (the keys of [doc], the members of [allLines]) are [string]s;
      [doc] is a [gmap string (list N)].
    - The DOM is not modelled.  What a handler reads from it (the block under
      the caret, its serialized Markdown, caret offsets, the [data-line]
      attribute of the row under the caret) is a field of the event record
      the handler receives.  The caret code alone is given a tree of text
      nodes and other nodes, which is all it reads of a block element, and
      the lookup of the toolbar commands the elements around the selection
      with the attributes that the component gives them; the Markdown
      renderer and the HTML parser of the browser are variables of the
      section that needs them. *)

From Stdlib Require Import ZArith NArith Ascii String.
From stdpp Require Import base gmap list strings pretty.

Abbreviation jsstring := (list N).

(** ** JavaScript strings *)

Module Js.

Fixpoint str (s : string) : jsstring :=
  match s with
  | EmptyString => []
  | String a r => N_of_ascii a :: str r
  end.

Definition LF : N := 10.
Definition CR : N := 13.
Definition SP : N := 32.
Definition HASH : N := 35.

(** [\s] in a regular expression, and the characters [trim] strips
    (WhiteSpace and LineTerminator of ECMAScript): tab, LF, VT, FF, CR, space,
    U+00A0, U+1680, U+2000..U+200A, U+2028, U+2029, U+202F, U+205F, U+3000,
    U+FEFF. *)
Definition is_space (c : N) : bool :=
  ((9 <=? c) && (c <=? 13) || (c =? 32) || (c =? 160) || (c =? 5760)
   || (8192 <=? c) && (c <=? 8202) || (c =? 8232) || (c =? 8233)
   || (c =? 8239) || (c =? 8287) || (c =? 12288) || (c =? 65279))%N.

(** LineTerminator: what [.] refuses and what [^] looks behind for under the
    [m] flag. *)
Definition is_line_terminator (c : N) : bool :=
  ((c =? 10) || (c =? 13) || (c =? 8232) || (c =? 8233))%N.

(** [\d] *)
Definition is_digit (c : N) : bool := ((48 <=? c) && (c <=? 57))%N.

Fixpoint dropWhile (p : N → bool) (s : jsstring) : jsstring :=
  match s with
  | [] => []
  | c :: r => if p c then dropWhile p r else s
  end.

Fixpoint takeWhile (p : N → bool) (s : jsstring) : jsstring :=
  match s with
  | [] => []
  | c :: r => if p c then c :: takeWhile p r else []
  end.

Definition trimStart (s : jsstring) : jsstring := dropWhile is_space s.
Definition trimEnd (s : jsstring) : jsstring :=
  reverse (dropWhile is_space (reverse s)).
Definition trim (s : jsstring) : jsstring := trimEnd (trimStart s).

(** A string in a condition: the empty string is the only falsy one. *)
Definition truthy (s : jsstring) : bool :=
  match s with [] => false | _ :: _ => true end.

Definition eqs (a b : jsstring) : bool := bool_decide (a = b).

(** [s.split("\n")], also [s.split(/\n/)]: never the empty array. *)
Fixpoint split_on (sep : N) (s : jsstring) : list jsstring :=
  match s with
  | [] => [[]]
  | c :: r =>
      if (c =? sep)%N then [] :: split_on sep r
      else match split_on sep r with
           | l :: ls => (c :: l) :: ls
           | [] => [[c]]
           end
  end.

(** [ls.join(sep)] *)
Fixpoint joinWith (sep : jsstring) (ls : list jsstring) : jsstring :=
  match ls with
  | [] => []
  | [l] => l
  | l :: ls' => l ++ sep ++ joinWith sep ls'
  end.

(** Relative index of [slice] and [splice]: negative counts from the end,
    and the result is clamped to [0 .. len]. *)
Definition clampIndex (len i : Z) : Z :=
  (if i <? 0 then Z.max (len + i) 0 else Z.min i len)%Z.

(** [s.slice(a, b)] *)
Definition slice (s : jsstring) (a b : Z) : jsstring :=
  let len := Z.of_nat (length s) in
  let from := clampIndex len a in
  let to := clampIndex len b in
  take (Z.to_nat (to - from)) (drop (Z.to_nat from) s).

(** [s.slice(a)] *)
Definition sliceFrom (s : jsstring) (a : Z) : jsstring :=
  slice s a (Z.of_nat (length s)).

Fixpoint isPrefix (p s : jsstring) : bool :=
  match p, s with
  | [], _ => true
  | _ :: _, [] => false
  | a :: p', b :: s' => (a =? b)%N && isPrefix p' s'
  end.

Fixpoint indexOfFrom (needle s : jsstring) (i : Z) : Z :=
  if isPrefix needle s then i
  else match s with
       | [] => (-1)%Z
       | _ :: r => indexOfFrom needle r (i + 1)%Z
       end.

(** [s.indexOf(needle)] *)
Definition indexOf (s needle : jsstring) : Z := indexOfFrom needle s 0%Z.

(** [s.replace(/\r\n?/g, "\n")] *)
Fixpoint normalizeNewlines (s : jsstring) : jsstring :=
  match s with
  | [] => []
  | c :: r =>
      if (c =? CR)%N then
        LF :: match r with
              | d :: r' => if (d =? LF)%N then normalizeNewlines r'
                           else normalizeNewlines r
              | [] => []
              end
      else c :: normalizeNewlines r
  end.

(** Arrays: [a.indexOf(x)], [a[i]] and [a.splice(start, del, ...items)]. *)
Fixpoint arrayIndexOfFrom (x : string) (l : list string) (i : Z) : Z :=
  match l with
  | [] => (-1)%Z
  | y :: r => if bool_decide (y = x) then i else arrayIndexOfFrom x r (i + 1)%Z
  end.

Definition arrayIndexOf (l : list string) (x : string) : Z :=
  arrayIndexOfFrom x l 0%Z.

Definition at_index {A} (l : list A) (i : Z) : option A :=
  if (i <? 0)%Z then None else l !! Z.to_nat i.

Definition splice {A} (l : list A) (start : Z) (del : nat) (items : list A)
  : list A :=
  let s := Z.to_nat (clampIndex (Z.of_nat (length l)) start) in
  take s l ++ items ++ drop (s + del) l.

End Js.

Import Js.

(** ** The block segmenter *)

(** [/^#+\s/.test(line)].  [#+] is greedy and [\s] never matches [#], so the
    only candidate is the whole run of [#]. *)
Definition is_heading (line : jsstring) : bool :=
  match line with
  | c :: r =>
      (c =? HASH)%N
      && match dropWhile (λ x, (x =? HASH)%N) r with
         | d :: _ => is_space d
         | [] => false
         end
  | [] => false
  end.

(** The loop state of [splitIntoBlocks]: [blocks] and [buffer]. *)
Definition scan_state : Type := list jsstring * jsstring.

(** One iteration of the [for] loop. *)
Definition scan_line (st : scan_state) (line : jsstring) : scan_state :=
  let '(blocks, buffer) := st in
  if is_heading line then
    ((if truthy (trim buffer) then blocks ++ [trim buffer] else blocks)
       ++ [trim line], [])
  else if eqs (trim line) [] then
    if truthy (trim buffer) then (blocks ++ [trim buffer], [])
    else (blocks, buffer)
  else
    (blocks, (if truthy buffer then buffer ++ [LF] else buffer) ++ line).

Definition scan_lines (st : scan_state) (lines : list jsstring) : scan_state :=
  foldl scan_line st lines.

(** What follows the loop: the last buffer, then [filter(Boolean)]. *)
Definition scan_finish (st : scan_state) : list jsstring :=
  let '(blocks, buffer) := st in
  filter (λ b, truthy b = true)
    (if truthy (trim buffer) then blocks ++ [trim buffer] else blocks).

Definition blocks_of_lines (lines : list jsstring) : list jsstring :=
  scan_finish (scan_lines ([], []) lines).

Definition splitIntoBlocks (text : jsstring) : list jsstring :=
  blocks_of_lines (split_on LF (normalizeNewlines text)).

(** ** List lines *)

(** [[-*+]] *)
Definition is_bullet (c : N) : bool := ((c =? 45) || (c =? 42) || (c =? 43))%N.

(** The three alternatives of the marker group, each giving the length of
    what it matched at the head of [s]. *)

(** [[-*+] ] *)
Definition match_bullet (s : jsstring) : option nat :=
  match s with
  | c :: d :: _ => if is_bullet c && (d =? SP)%N then Some 2 else None
  | _ => None
  end.

(** [\d+\. ], the run of digits taken whole: a shorter run is followed by
    a digit, not by the dot. *)
Definition match_ordered (s : jsstring) : option nat :=
  let ds := takeWhile is_digit s in
  match ds, drop (length ds) s with
  | _ :: _, a :: b :: _ =>
      if ((a =? 46) && (b =? SP))%N then Some (length ds + 2) else None
  | _, _ => None
  end.

(** [- \[c\] ] with [c] in the class [box]. *)
Definition match_task (box : N → bool) (s : jsstring) : option nat :=
  match s with
  | a :: b :: c :: d :: e :: f :: _ =>
      if ((a =? 45) && (b =? SP) && (c =? 91))%N && box d
         && ((e =? 93) && (f =? SP))%N
      then Some 6 else None
  | _ => None
  end.

Definition match_marker (box : N → bool) (s : jsstring) : option nat :=
  match match_bullet s with
  | Some n => Some n
  | None =>
      match match_ordered s with
      | Some n => Some n
      | None => match_task box s
      end
  end.

(** [[ xX]], the box of the Enter and render patterns. *)
Definition box_xX (c : N) : bool := ((c =? 32) || (c =? 120) || (c =? 88))%N.
(** [.], the box of the Backspace patterns. *)
Definition box_any (c : N) : bool := negb (is_line_terminator c).

(** [/^(ws)(marker)/m.test(s)] where [ws] is the group of [\s] starred.
    Under [m] the anchor holds at offset 0 and after every line terminator.
    The white space is taken whole: every alternative of the marker starts
    with a character that is not white space. *)
Fixpoint test_list_from (box : N → bool) (line_start : bool) (s : jsstring)
  : bool :=
  line_start && bool_decide (is_Some (match_marker box (dropWhile is_space s)))
  || match s with
     | [] => false
     | c :: r => test_list_from box (is_line_terminator c) r
     end.

(** The test of Enter and of the renderer, whose task box is [[ xX]]. *)
Definition isListBlock (s : jsstring) : bool := test_list_from box_xX true s.
(** The test of Backspace ([isPrevList], [isCurrList]), whose task box is
    [.]. *)
Definition isListText (s : jsstring) : bool := test_list_from box_any true s.

(** [currentLineContent.match(...)]: white space, a marker with box
    [[ xX]], then [.] starred, anchored at offset 0 (no [m] flag); the three
    groups are [(indent, marker, content)]. *)
Definition parseListLine (line : jsstring)
  : option (jsstring * jsstring * jsstring) :=
  let indent := takeWhile is_space line in
  let rest := dropWhile is_space line in
  match match_marker box_xX rest with
  | Some n =>
      Some (indent, take n rest,
            takeWhile (λ c, negb (is_line_terminator c)) (drop n rest))
  | None => None
  end.

(** The search loop: the first line equal to [currentLine] once both are
    trimmed, with its index. *)
Fixpoint findLine (currentLine : jsstring) (lines : list jsstring) (i : nat)
  : option (nat * jsstring) :=
  match lines with
  | [] => None
  | l :: r =>
      if eqs (trim l) (trim currentLine) then Some (i, l)
      else findLine currentLine r (S i)
  end.

(** [for (...) newMarkdown += lines[i] + "\n"] *)
Definition withNewlines (ls : list jsstring) : jsstring :=
  foldr (λ l acc, l ++ LF :: acc) [] ls.

Definition nbsp : jsstring := str "&nbsp;".

(** The text transformation of the list branch of Enter: the new Markdown,
    the index of the line that was split and its marker.  [None] stands for
    the early returns (line not found, line not parsed). *)
Definition listEnter (blockMarkdown : jsstring) (caretPos : Z)
    (currentLine : jsstring) : option (jsstring * nat * jsstring) :=
  let lines := split_on LF blockMarkdown in
  match findLine currentLine lines 0 with
  | None => None
  | Some (currentLineIndex, currentLineContent) =>
      match parseListLine currentLineContent with
      | None => None
      | Some (indent, marker, content) =>
          let trimmedContent := trim content in
          let contentStart := indexOf currentLineContent trimmedContent in
          let offsetInContent := (caretPos - contentStart)%Z in
          let isAtEnd :=
            (Z.of_nat (length trimmedContent) <=? offsetInContent)%Z in
          let newMarkdown :=
            withNewlines (take currentLineIndex lines)
            ++ (if isAtEnd then
                  currentLineContent ++ [LF]
                  ++ indent ++ marker ++ nbsp ++ [LF]
                else
                  indent ++ marker ++ slice trimmedContent 0 offsetInContent
                  ++ [LF]
                  ++ indent ++ marker ++ sliceFrom trimmedContent offsetInContent
                  ++ [LF])
            ++ withNewlines (drop (S currentLineIndex) lines) in
          Some (trimEnd newMarkdown, currentLineIndex, marker)
      end
  end.

(** ** The document and the editing state machine *)

(** The three pieces of React state, and the number of ids drawn so far from
    the id generator. *)
Record State := mkState {
  doc : gmap string jsstring;
  allLines : list string;
  editingBlockIds : list string;
  generated : nat
}.

Inductive Key := Enter | Backspace | Delete | OtherKey.

Instance Key_eq_dec : EqDecision Key.
Proof. solve_decision. Defined.

(** A keydown event with what the handler reads from the DOM at that moment.
    [target] is the id of the [.m2-block] element around the selection
    anchor, [None] when there is no selection, no such element or an empty
    id.  [dataLine] is the [data-line] attribute of the parent of the range
    start, [None] when that element or the attribute is missing. *)
Record KeyEvent := mkKeyEvent {
  key : Key;
  shiftKey : bool;
  target : option string;
  blockMarkdown : jsstring;      (* htmlToMarkdown(block) *)
  caretPos : Z;                  (* the offset the TreeWalker loop computes *)
  rangeStartOffset : Z;          (* range.startOffset *)
  dataLine : option jsstring;
  caretAtStart : bool;           (* isCaretAtStartOfBlock(block, sel) *)
  blockIsEmpty : bool            (* textContent is empty or U+200B *)
}.

(** Where a handler asks the caret to be put once the DOM is rendered
    again. *)
Inductive CaretAt :=
| AtStart
| AtEnd
| AtOffset (offset : Z)
| InLine (line : nat) (offset : Z).

(** Which arm of [handleKeyDown] ran. *)
Inductive Branch :=
| NoBlock              (* an early return before the chain *)
| ListEnter            (* Enter in a list block, text rewritten *)
| ListEnterAbort       (* Enter in a list block, early return *)
| BlockSplit           (* Enter elsewhere: handleBlockSplit *)
| LiteralNewline       (* Shift+Enter *)
| BackwardMerge        (* first Backspace arm, idx > 0 *)
| BackwardMergeNone    (* first Backspace arm, idx <= 0 *)
| DeleteEmpty          (* Backspace or Delete in an empty block *)
| SecondMerge          (* last Backspace arm, idx > 0 *)
| SecondMergeNone      (* last Backspace arm, idx <= 0 *)
| Ignored.             (* no arm applies *)

Instance Branch_eq_dec : EqDecision Branch.
Proof. solve_decision. Defined.

Record Outcome := mkOutcome {
  next : State;
  branch : Branch;
  defaultPrevented : bool;
  caret : option (string * CaretAt)
}.

Definition unchanged (st : State) (b : Branch) (prevented : bool) : Outcome :=
  mkOutcome st b prevented None.

(** The selection as [handleBold] and [handleItalic] read it.  [owner] is
    the [data-block-id] attribute of the closest ancestor of the range start
    that carries one. *)
Record Selection := mkSelection {
  isCollapsed : bool;
  owner : option string;
  selectedText : jsstring;       (* range.toString() *)
  startOffset : Z;
  endOffset : Z
}.

Section Editor.

(** [shortid k] is the id that the [k]-th call of [shortid.generate()]
    returns. *)
Context (shortid : nat → string).

(** The two assignment loops of [handleBlockSplit], on [docUpdate] and
    [allBlockIds]. *)
Definition assignBlocks (acc : gmap string jsstring * list string)
    (ids : list string) (blocks : list jsstring)
  : gmap string jsstring * list string :=
  foldl (λ a ib, (<[ib.1 := ib.2]> a.1, a.2 ++ [ib.1])) acc (zip ids blocks).

(** [if (blocks.length === 0)] the array becomes one empty string. *)
Definition orEmptyBlock (blocks : list jsstring) : list jsstring :=
  match blocks with [] => [[]] | _ :: _ => blocks end.

Definition handleBlockSplit (st : State) (id : string)
    (blockMarkdown : jsstring) (caretPos : Z) : Outcome :=
  let before := slice blockMarkdown 0 caretPos in
  let after := sliceFrom blockMarkdown caretPos in
  let afterBlocks := orEmptyBlock (splitIntoBlocks after) in
  let beforeBlocks := orEmptyBlock (splitIntoBlocks before) in
  let count := length beforeBlocks - 1 + length afterBlocks in
  let newIds := id :: (shortid <$> seq (generated st) count) in
  let s1 := assignBlocks (doc st, []) (take (length beforeBlocks) newIds)
              beforeBlocks in
  let s2 := assignBlocks s1 (drop (length beforeBlocks) newIds) afterBlocks in
  let idx := arrayIndexOf (allLines st) id in
  let newAllLines := splice (allLines st) idx 1 s2.2 in
  let focus := newIds !! length beforeBlocks in
  {| next := {| doc := s2.1;
                allLines := newAllLines;
                editingBlockIds := option_list focus;
                generated := generated st + count |};
     branch := BlockSplit;
     defaultPrevented := true;
     caret := (λ f, (f, AtStart)) <$> focus |}.

(** The list arm of Enter. *)
Definition handleListEnter (st : State) (id : string) (ev : KeyEvent)
  : Outcome :=
  match dataLine ev with
  | None => unchanged st ListEnterAbort true
  | Some currentLine =>
      match listEnter (blockMarkdown ev) (rangeStartOffset ev) currentLine with
      | None => unchanged st ListEnterAbort true
      | Some (newMarkdown, currentLineIndex, marker) =>
          {| next := {| doc := <[id := newMarkdown]> (doc st);
                        allLines := allLines st;
                        editingBlockIds := editingBlockIds st;
                        generated := generated st |};
             branch := ListEnter;
             defaultPrevented := true;
             caret := Some (id, InLine (S currentLineIndex)
                                  (Z.of_nat (length marker) + 1)) |}
      end
  end.

(** Shift+Enter.  The id is the first member of [editingBlockIds], not the
    block under the caret; a missing entry prints as [undefined]. *)
Definition handleLiteralNewline (st : State) : Outcome :=
  match editingBlockIds st with
  | id :: _ =>
      if bool_decide (id = EmptyString) then unchanged st LiteralNewline true
      else
        {| next := {| doc := <[id := default (str "undefined") (doc st !! id)
                                      ++ [LF]]> (doc st);
                      allLines := allLines st;
                      editingBlockIds := editingBlockIds st;
                      generated := generated st |};
           branch := LiteralNewline;
           defaultPrevented := true;
           caret := None |}
  | [] => unchanged st LiteralNewline true
  end.

(** The body of the first Backspace arm once [idx > 0]: both of its
    sub-arms build the same state from their own [mergedText]. *)
Definition mergeInto (st : State) (id prevId : string) (idx : Z)
    (mergedText : jsstring) (prevText : jsstring) (b : Branch) : Outcome :=
  {| next := {| doc := delete id (<[prevId := mergedText]> (doc st));
                allLines := splice (allLines st) idx 1 [];
                editingBlockIds := [prevId];
                generated := generated st |};
     branch := b;
     defaultPrevented := true;
     caret := Some (prevId, AtOffset (Z.of_nat (length prevText))) |}.

Definition handleBackwardMerge (st : State) (id : string) : Outcome :=
  let idx := arrayIndexOf (allLines st) id in
  if (0 <? idx)%Z then
    match at_index (allLines st) (idx - 1) with
    | Some prevId =>
        let prevText := default [] (doc st !! prevId) in
        let currText := default [] (doc st !! id) in
        let isPrevList := isListText prevText in
        let isCurrList := isListText currText in
        if isPrevList && isCurrList then
          mergeInto st id prevId idx (prevText ++ [LF] ++ currText) prevText
            BackwardMerge
        else
          mergeInto st id prevId idx (prevText ++ currText) prevText
            BackwardMerge
    | None => unchanged st BackwardMergeNone false
    end
  else unchanged st BackwardMergeNone false.

(** The last arm of the chain, a second Backspace-at-start arm that always
    concatenates. *)
Definition handleSecondMerge (st : State) (id : string) : Outcome :=
  let idx := arrayIndexOf (allLines st) id in
  if (0 <? idx)%Z then
    match at_index (allLines st) (idx - 1) with
    | Some prevId =>
        let prevText := default [] (doc st !! prevId) in
        let currText := default [] (doc st !! id) in
        mergeInto st id prevId idx (prevText ++ currText) prevText SecondMerge
    | None => unchanged st SecondMergeNone false
    end
  else unchanged st SecondMergeNone false.

(** Deletion of an emptied block, with the focus move of its timer
    callback. *)
Definition handleDeleteEmpty (st : State) (id : string) : Outcome :=
  let idx := arrayIndexOf (allLines st) id in
  let newAllLines := splice (allLines st) idx 1 [] in
  let len := Z.of_nat (length newAllLines) in
  let focus : option (string * CaretAt) :=
    if (0 <? len)%Z then
      if (idx <? len)%Z then
        (λ f, (f, AtStart)) <$> at_index newAllLines idx
      else if (0 <=? idx - 1)%Z then
        (λ f, (f, AtEnd)) <$> at_index newAllLines (idx - 1)
      else None
    else None in
  let focus :=
    match focus with
    | Some (f, c) => if bool_decide (f = EmptyString) then None else Some (f, c)
    | None => None
    end in
  {| next := {| doc := delete id (doc st);
                allLines := newAllLines;
                editingBlockIds :=
                  match focus with
                  | Some f => [f.1]
                  | None => editingBlockIds st
                  end;
                generated := generated st |};
     branch := DeleteEmpty;
     defaultPrevented := true;
     caret := focus |}.

(** The guards of the two Backspace-at-start arms, each as written at its
    place in the chain. *)
Definition firstMergeGuard (ev : KeyEvent) : bool :=
  bool_decide (key ev = Backspace) && caretAtStart ev.

Definition secondMergeGuard (ev : KeyEvent) : bool :=
  bool_decide (key ev = Backspace) && caretAtStart ev.

Definition handleKeyDown (st : State) (ev : KeyEvent) : Outcome :=
  match target ev with
  | None => unchanged st NoBlock false
  | Some id =>
      if bool_decide (key ev = Enter) && negb (shiftKey ev) then
        if isListBlock (blockMarkdown ev) then handleListEnter st id ev
        else handleBlockSplit st id (blockMarkdown ev) (caretPos ev)
      else if bool_decide (key ev = Enter) && shiftKey ev then
        handleLiteralNewline st
      else if firstMergeGuard ev then
        handleBackwardMerge st id
      else if (bool_decide (key ev = Backspace)
               || bool_decide (key ev = Delete)) && blockIsEmpty ev then
        handleDeleteEmpty st id
      else if secondMergeGuard ev then
        handleSecondMerge st id
      else unchanged st Ignored false
  end.

(** The body shared, marker apart, by [handleBold] and [handleItalic]. *)
Definition wrapSelection (marker : jsstring) (st : State)
    (sel : option Selection) : State :=
  match sel with
  | None => st
  | Some s =>
      if isCollapsed s then st
      else
        match owner s with
        | None => st
        | Some blockId =>
            if bool_decide (blockId = EmptyString) then st
            else
              match doc st !! blockId with
              | None => st
              | Some blockContent =>
                  if negb (truthy blockContent) then st
                  else if negb (truthy (selectedText s)) then st
                  else
                    let newContent :=
                      slice blockContent 0 (startOffset s)
                      ++ marker ++ selectedText s ++ marker
                      ++ sliceFrom blockContent (endOffset s) in
                    {| doc := <[blockId := newContent]> (doc st);
                       allLines := allLines st;
                       editingBlockIds := editingBlockIds st;
                       generated := generated st |}
              end
        end
  end.

Definition handleBold : State → option Selection → State :=
  wrapSelection (str "**").

Definition handleItalic : State → option Selection → State :=
  wrapSelection (str "*").

End Editor.

(** ** Document initialization *)

(** The initialization effect: when [allLines] is empty and [initialData] is
    a string that is not empty, every block of [initialData] gets an id from
    the generator, [doc] is built from these entries alone and [allLines] is
    the ids in order.  [None] stands for a missing [initialData]. *)
Definition initializeDocument (shortid : nat → string) (st : State)
    (initialData : option jsstring) : State :=
  match initialData with
  | Some text =>
      if bool_decide (length (allLines st) = 0) && truthy text then
        let blocks := splitIntoBlocks text in
        let docList :=
          zip (shortid <$> seq (generated st) (length blocks)) blocks in
        {| doc := foldl (λ docObj entry, <[entry.1 := entry.2]> docObj) ∅
                    docList;
           allLines := docList.*1;
           editingBlockIds := editingBlockIds st;
           generated := generated st + length blocks |}
      else st
  | None => st
  end.

(** ** The rows of a block in edit mode *)

(** U+200B, the zero-width space that stands for an empty line. *)
Definition ZWSP : N := 8203.

(** [line.match(...)?.[0] || ""] for the pattern of one or more white space
    characters at the start of the line. *)
Definition leadingSpaces (line : jsstring) : jsstring := takeWhile is_space line.

(** [s.replace(/ /g, "&nbsp;")]: only U+0020 is replaced. *)
Definition spacesToNbsp (s : jsstring) : jsstring :=
  concat ((λ c, if (c =? SP)%N then nbsp else [c]) <$> s).

(** What may follow the marker in [listMatch]: one optional space, then the
    end of the text (the pattern has no [m] flag). *)
Definition marker_only (tail : jsstring) : bool :=
  match tail with
  | [] => true
  | [c] => (c =? SP)%N
  | _ => false
  end.

(** [rest.match(...)]: group 1 when [rest] is a marker with box [[ xX]]
    followed by one optional space and nothing else.  The alternatives are
    tried in order, each with what follows it. *)
Definition bareMarker (rest : jsstring) : option jsstring :=
  let alternative (m : option nat) : option jsstring :=
    match m with
    | Some n => if marker_only (drop n rest) then Some (take n rest) else None
    | None => None
    end in
  match alternative (match_bullet rest) with
  | Some marker => Some marker
  | None =>
      match alternative (match_ordered rest) with
      | Some marker => Some marker
      | None => alternative (match_task box_xX rest)
      end
  end.

(** The children of a block in edit mode: a [span] per line, with its
    [innerHTML] and its [data-line] attribute, and a [br] between two
    spans. *)
Inductive EditNode :=
| Span (html : jsstring) (dataLine : jsstring)
| Br.

(** [htmlLine] of the two branches: in a list block a bare marker is
    followed by a non-breaking space. *)
Definition htmlLine (isList : bool) (line : jsstring) : jsstring :=
  let leading := leadingSpaces line in
  let rest := sliceFrom line (Z.of_nat (length leading)) in
  spacesToNbsp leading
  ++ (if isList then
        match bareMarker rest with
        | Some marker => marker ++ nbsp
        | None => rest
        end
      else rest).

Definition safeHtmlLine (html : jsstring) : jsstring :=
  if bool_decide (length html = 0) then [ZWSP] else html.

(** [lines.map((line, i, arr) => ...)], the nested arrays flattened as React
    does. *)
Fixpoint editRows (isList : bool) (lines : list jsstring) : list EditNode :=
  match lines with
  | [] => []
  | line :: rest =>
      Span (safeHtmlLine (htmlLine isList line)) line
      :: match rest with
         | [] => []
         | _ :: _ => Br :: editRows isList rest
         end
  end.

(** [a || b] on a stored text that may be missing. *)
Definition orText (text : option jsstring) (other : jsstring) : jsstring :=
  match text with
  | Some t => if truthy t then t else other
  | None => other
  end.

(** The children that [renderBlocks] gives a block in edit focus whose
    stored text is [text] ([None] when the mapping has no entry). *)
Definition renderEditBlock (text : option jsstring) : list EditNode :=
  if isListBlock (orText text []) then
    editRows true (split_on LF (orText text []))
  else
    editRows false (split_on LF (orText text [ZWSP])).

(** ** The caret in the DOM of a block *)

(** What the caret code reads of a DOM subtree: a text node with its data,
    or any other node with its child nodes (none for a comment or an empty
    element). *)
#[warnings="-register-all"]
Inductive DomNode :=
| TextNode (data : jsstring)
| OtherNode (childNodes : list DomNode).

(** A node of a subtree, named by the indices of the child nodes on the way
    down from the root of the subtree; the root is the empty path. *)
Abbreviation NodePath := (list nat).

Fixpoint nodeAt (root : DomNode) (p : NodePath) : option DomNode :=
  match p with
  | [] => Some root
  | i :: p' =>
      match root with
      | TextNode _ => None
      | OtherNode childNodes =>
          match childNodes !! i with
          | Some child => nodeAt child p'
          | None => None
          end
      end
  end.

(** The text nodes below the [i]-th and later child nodes, in document
    order, given those below one node. *)
Definition textNodesOfChildren (below : DomNode → list (NodePath * jsstring))
  : list DomNode → nat → list (NodePath * jsstring) :=
  fix go (childNodes : list DomNode) (i : nat) :=
    match childNodes with
    | [] => []
    | child :: rest =>
        (prod_map (cons i) id <$> below child) ++ go rest (S i)
    end.

(** The text nodes of a subtree in document order, each with its data. *)
Fixpoint textNodes (node : DomNode) : list (NodePath * jsstring) :=
  match node with
  | TextNode data => [([], data)]
  | OtherNode childNodes => textNodesOfChildren textNodes childNodes 0
  end.

(** The nodes that [walker.nextNode()] yields for a walker on [block] that
    shows text nodes only: the root is never among them. *)
Definition walkerNodes (block : DomNode) : list (NodePath * jsstring) :=
  match block with
  | TextNode _ => []
  | OtherNode _ => textNodes block
  end.

(** The [while (walker.nextNode())] loop of [handleKeyDown]. *)
Fixpoint caretLoop (nodes : list (NodePath * jsstring)) (node : NodePath)
    (offset total : Z) : option Z :=
  match nodes with
  | [] => None
  | (current, data) :: rest =>
      if bool_decide (current = node) then Some (total + offset)%Z
      else caretLoop rest node offset (total + Z.of_nat (length data))%Z
  end.

(** [caretPos] as [handleKeyDown] computes it from the anchor of the
    selection, a node of [block]. *)
Definition caretPosIn (block : DomNode) (anchorNode : NodePath)
    (anchorOffset : Z) : Z :=
  match nodeAt block anchorNode with
  | Some (TextNode _) =>
      default 0%Z (caretLoop (walkerNodes block) anchorNode anchorOffset 0)
  | _ => 0%Z
  end.

(** The state of [walk]: [remaining], and the range start once [found]. *)
Definition walk_state : Type := Z * option (NodePath * Z).

(** The [for] loop of [walk] over the child nodes from the [i]-th on. *)
Definition walkChildren (walk : DomNode → walk_state → walk_state)
  : list DomNode → nat → walk_state → walk_state :=
  fix go (childNodes : list DomNode) (i : nat) (s : walk_state) :=
    match childNodes with
    | [] => s
    | child :: rest =>
        let s' := walk child s in
        let s'' := (s'.1, prod_map (cons i) id <$> s'.2) in
        if bool_decide (is_Some s''.2) then s'' else go rest (S i) s''
    end.

(** [walk(node)] of the merge arms: the first text node that holds offset
    [remaining], counted over the text nodes in document order.  The path
    of the range start is relative to [node]. *)
Fixpoint walk (node : DomNode) (s : walk_state) : walk_state :=
  match s.2 with
  | Some _ => s
  | None =>
      match node with
      | TextNode data =>
          let len := Z.of_nat (length data) in
          if (s.1 <=? len)%Z then (s.1, Some ([], s.1))
          else ((s.1 - len)%Z, None)
      | OtherNode childNodes => walkChildren walk childNodes 0 s
      end
  end.

(** Where the merge arms put the caret in the previous block: the node that
    [walk] found, or else the block itself after its last child node. *)
Definition caretAfterMerge (prevBlock : DomNode) (prevTextLength : Z)
  : NodePath * Z :=
  match (walk prevBlock (prevTextLength, None)).2 with
  | Some start => start
  | None =>
      ([], match prevBlock with
           | TextNode _ => 0%Z
           | OtherNode childNodes => Z.of_nat (length childNodes)
           end)
  end.

(** The loop of [findDeepestFirstTextNode] over the child nodes from the
    [i]-th on. *)
Definition firstTextNodeOfChildren (find : DomNode → option NodePath)
  : list DomNode → nat → option NodePath :=
  fix go (childNodes : list DomNode) (i : nat) :=
    match childNodes with
    | [] => None
    | child :: rest =>
        match find child with
        | Some p => Some (i :: p)
        | None => go rest (S i)
        end
    end.

(** [findDeepestFirstTextNode(node).node]; the offset it returns is always
    0. *)
Fixpoint findDeepestFirstTextNode (node : DomNode) : option NodePath :=
  match node with
  | TextNode _ => Some []
  | OtherNode childNodes =>
      firstTextNodeOfChildren findDeepestFirstTextNode childNodes 0
  end.

(** The selection as [isCaretAtStartOfBlock] reads it, its nodes given
    relative to the block; [None] is a node outside the block. *)
Record DomSelection := mkDomSelection {
  rangeCount : nat;
  startContainer : option NodePath;
  rangeStart : Z;                       (* range.startOffset *)
  anchorNode : NodePath;
  anchorOffset : Z
}.

Definition isCaretAtStartOfBlock (block : DomNode) (sel : DomSelection)
  : bool :=
  if bool_decide (rangeCount sel = 0) then false
  else if bool_decide (startContainer sel = Some []) then
    bool_decide (rangeStart sel = 0%Z)
  else
    match findDeepestFirstTextNode block with
    | Some node =>
        bool_decide (anchorNode sel = node)
        && bool_decide (anchorOffset sel = 0%Z)
    | None => false
    end.

(** ** Cleaning of typed text *)

(** The assertion [$] under the [m] flag, before the rest [t] of the text:
    it holds at the end of the text and before a line terminator. *)
Definition at_line_end (t : jsstring) : bool :=
  match t with
  | [] => true
  | c :: _ => is_line_terminator c
  end.

(** The match, at the start of [s], of the pattern of [onInput] (one or
    more white space characters, then [$]), as a number of characters.  The
    quantifier is greedy and gives characters back one at a time: the match
    is the longest run of white space that ends at a line end. *)
Fixpoint matchTrailingSpace (s : jsstring) : option nat :=
  match s with
  | [] => None
  | c :: r =>
      if is_space c then
        match matchTrailingSpace r with
        | Some n => Some (S n)
        | None => if at_line_end r then Some 1 else None
        end
      else None
  end.

(** [s.replace(pattern, "")] under the [g] flag: the text is scanned from
    the left, a match is dropped and the scan goes on after it.  [skip] is
    the number of characters of the current match still to drop. *)
Fixpoint removeMatches (skip : nat) (s : jsstring) : jsstring :=
  match s with
  | [] => []
  | c :: r =>
      match skip with
      | S k => removeMatches k r
      | 0 =>
          match matchTrailingSpace s with
          | Some (S n) => removeMatches n r
          | _ => c :: removeMatches 0 r
          end
      end
  end.

(** [cleanedMarkdown] of [onInput]. *)
Definition cleanMarkdown (markdown : jsstring) : jsstring :=
  removeMatches 0 markdown.

(** The [onInput] handler of the block [id] in edit mode; [textContent] is
    the text content of the block element. *)
Definition handleInput (st : State) (id : string) (textContent : jsstring)
  : State :=
  {| doc := <[id := cleanMarkdown (orText (Some textContent) [])]> (doc st);
     allLines := allLines st;
     editingBlockIds := editingBlockIds st;
     generated := generated st |}.

(** ** Focus and selection *)

Section Focus.

(** What [saveCurrentEditingBlock] reads from the DOM: [htmlToMarkdown] of
    the element with the given id, [None] when [getElementById] finds no
    element. *)
Context (readBlock : string → option jsstring).

Definition saveCurrentEditingBlock (st : State) : State :=
  match editingBlockIds st with
  | [id] =>
      match readBlock id with
      | Some text =>
          {| doc := <[id := text]> (doc st);
             allLines := allLines st;
             editingBlockIds := editingBlockIds st;
             generated := generated st |}
      | None => st
      end
  | _ => st
  end.

Definition setEditingBlockIds (ids : list string) (st : State) : State :=
  {| doc := doc st; allLines := allLines st; editingBlockIds := ids;
     generated := generated st |}.

(** [focusin]; [target] is the id of the [.m2-block] element around the
    selection anchor, as in [handleKeyDown]. *)
Definition handleFocusOrSelect (st : State) (target : option string) : State :=
  match target with
  | None => st
  | Some id =>
      if bool_decide (id ∈ editingBlockIds st) then st
      else setEditingBlockIds [id] (saveCurrentEditingBlock st)
  end.

(** [mousedown]; the click position it records is no part of the state. *)
Definition handleMouseDown (st : State) : State := saveCurrentEditingBlock st.

(** [focusout]; [onBlock] tells whether the target of the event is an
    element of class [m2-block]. *)
Definition handleBlur (st : State) (onBlock : bool) : State :=
  if onBlock then setEditingBlockIds [] (saveCurrentEditingBlock st) else st.

(** [selectedIds.add(block.id)] on a set kept in insertion order. *)
Definition setAdd (ids : list string) (id : string) : list string :=
  if bool_decide (id ∈ ids) then ids else ids ++ [id].

(** [selectionchange].  [None] is a missing selection; otherwise
    [collapsed] is [sel.isCollapsed], [target] the block around the anchor
    as above, and [touched] the ids of the [.m2-block] elements that the
    range intersects, in document order ([None] when the selection has no
    range). *)
Definition handleSelectionChange (st : State)
    (sel : option (bool * option string * option (list string))) : State :=
  match sel with
  | None => st
  | Some (collapsed, target, touched) =>
      if collapsed then
        match target with
        | Some id => setEditingBlockIds [id] st
        | None => st
        end
      else
        match touched with
        | None => st
        | Some ids =>
            let selectedIds := foldl setAdd [] ids in
            if bool_decide (0 < length selectedIds)
            then setEditingBlockIds selectedIds st
            else st
        end
  end.

End Focus.

(** The events of the focus and selection handlers. *)
Inductive FocusEvent :=
| MouseDown
| FocusIn (target : option string)
| FocusOut (onBlock : bool)
| SelectionChange (sel : option (bool * option string * option (list string))).

(** The listeners as they are attached to the document element and to the
    document. *)
Definition handleFocusEvent (readBlock : string → option jsstring)
    (st : State) (ev : FocusEvent) : State :=
  match ev with
  | MouseDown => handleMouseDown readBlock st
  | FocusIn target => handleFocusOrSelect readBlock st target
  | FocusOut onBlock => handleBlur readBlock st onBlock
  | SelectionChange sel => handleSelectionChange st sel
  end.

(** ** Rendering of a block out of edit focus *)

(** The two code units of U+1F397, the reminder ribbon; the patterns have no
    [u] flag and see them as two characters. *)
Definition RIBBON : jsstring := [55356%N; 57239%N].

Definition SEMICOLON : N := 59.
Definition QUOTE : N := 34.
Definition BACKSLASH : N := 92.

(** [.] in a pattern without the [s] flag. *)
Definition is_dot (c : N) : bool := negb (is_line_terminator c).

(** The end of the reminder pattern at the start of [s]: any characters,
    then a semicolon. *)
Fixpoint semicolonAhead (s : jsstring) : bool :=
  match s with
  | [] => false
  | c :: r => (c =? SEMICOLON)%N || is_dot c && semicolonAhead r
  end.

(** Any characters, the ribbon, any characters, a semicolon, at the start
    of [s]. *)
Fixpoint ribbonAhead (s : jsstring) : bool :=
  match s with
  | [] => false
  | c :: r =>
      isPrefix RIBBON s && semicolonAhead (drop 2 s)
      || is_dot c && ribbonAhead r
  end.

(** The reminder pattern at the start of [s]: a bullet or a number with its
    dot, white space, an empty check box (its blank being any white space
    character), one white space character, then the part above.  The runs
    of digits and of white space are taken whole: a shorter run is followed
    by a digit or by white space, which the next item refuses. *)
Definition reminderAt (s : jsstring) : bool :=
  let afterMarker : option jsstring :=
    match s with
    | [] => None
    | c :: r =>
        if is_bullet c then Some r
        else
          match takeWhile is_digit s, dropWhile is_digit s with
          | _ :: _, d :: r' => if (d =? 46)%N then Some r' else None
          | _, _ => None
          end
    end in
  match afterMarker with
  | None => false
  | Some t =>
      match takeWhile is_space t, dropWhile is_space t with
      | _ :: _, a :: b :: c :: d :: rest =>
          (a =? 91)%N && is_space b && (c =? 93)%N && is_space d
          && ribbonAhead rest
      | _, _ => false
      end
  end.

(** [pattern.test(line)] for the reminder pattern, which is not anchored. *)
Fixpoint reminderTest (line : jsstring) : bool :=
  reminderAt line
  || match line with
     | [] => false
     | _ :: r => reminderTest r
     end.

(** The lazy run of any characters up to a semicolon, at the start of [s]:
    the number of characters up to and with the first semicolon. *)
Fixpoint firstSemicolon (s : jsstring) : option nat :=
  match s with
  | [] => None
  | c :: r =>
      if (c =? SEMICOLON)%N then Some 1
      else if is_dot c then S <$> firstSemicolon r
      else None
  end.

Definition reminderOpen : jsstring :=
  str "<span class=" ++ [QUOTE] ++ str "m2-reminder-text" ++ [QUOTE] ++ str ">".
Definition reminderClose : jsstring := str "</span>".

(** [line.replace(pattern, f)] for the pattern of a ribbon, a lazy run and
    a semicolon, without the [g] flag: the leftmost match is wrapped in a
    span. *)
Fixpoint wrapReminder (line : jsstring) : jsstring :=
  match line with
  | [] => []
  | c :: r =>
      match (if isPrefix RIBBON line then firstSemicolon (drop 2 line)
             else None) with
      | Some n =>
          reminderOpen ++ take (2 + n) line ++ reminderClose
          ++ drop (2 + n) line
      | None => c :: wrapReminder r
      end
  end.

(** The callback of [map] in [getNodeForBlock]. *)
Definition highlightReminder (line : jsstring) : jsstring :=
  if reminderTest line then wrapReminder line else line.

Definition preprocessReminders (block : jsstring) : jsstring :=
  joinWith [LF] (highlightReminder <$> split_on LF block).

(** [s.replace(pattern, replacement)] for a pattern that is a string: the
    first occurrence is replaced ([replacement] holds no dollar sign
    here). *)
Definition replaceFirst (s pattern replacement : jsstring) : jsstring :=
  let i := indexOf s pattern in
  if (i <? 0)%Z then s
  else slice s 0 i ++ replacement
       ++ sliceFrom s (i + Z.of_nat (length pattern)).

(** [s.replace(pattern, "")] for the pattern of one backslash, with the [g]
    flag. *)
Definition removeBackslashes (s : jsstring) : jsstring :=
  filter (λ c, c ≠ BACKSLASH) s.

(** Upper case of an ASCII letter, as the [i] flag compares. *)
Definition asciiUpper (c : N) : N :=
  if ((97 <=? c) && (c <=? 122))%N then (c - 32)%N else c.

Definition voidNodeNames : list jsstring :=
  str <$> ["AREA"; "BASE"; "BR"; "COL"; "COMMAND"; "EMBED"; "HR"; "IMG";
           "INPUT"; "KEYGEN"; "LINK"; "META"; "PARAM"; "SOURCE"; "TRACK";
           "WBR"]%string.

(** [isVoidNode.test(name)] *)
Definition isVoidNode (name : jsstring) : bool :=
  bool_decide ((asciiUpper <$> name) ∈ voidNodeNames).

Definition bookmarkPrefix : jsstring := str "// ".
Definition bookmarkOpen : jsstring :=
  str "<div class=" ++ [QUOTE] ++ str "m2-bookmark" ++ [QUOTE] ++ str ">".
Definition bookmarkClose : jsstring := str "<hr /></div>".

Section Render.

(** [marked.marked(text)], which is a function and returns a string (the
    other branches of the source are for a different build of the
    library), and the [nodeName] of the first element child that the parser
    of the browser gives for an [innerHTML]. *)
Context (marked : jsstring → jsstring).
Context (firstElementName : jsstring → option jsstring).

Definition getNodeForBlock (block : jsstring) : jsstring :=
  let block := preprocessReminders block in
  let html := marked (orText (Some block) []) in
  let html := removeBackslashes html in
  let first :=
    firstElementName (orText (Some html) (str "<p>" ++ [ZWSP] ++ str "</p>")) in
  let html :=
    match first with
    | Some nodeName =>
        if isVoidNode nodeName then str "<div>" ++ html ++ str "</div>"
        else html
    | None => html
    end in
  if isPrefix bookmarkPrefix block then
    bookmarkOpen ++ replaceFirst block bookmarkPrefix [] ++ bookmarkClose
  else html.

End Render.

(** ** The elements around a selection *)

(** An element, by the attributes that the source sets on the elements it
    renders or reads in a selector: [id], [class], [data-line] and
    [data-block-id]. *)
Record Element := mkElement {
  elementId : option string;
  className : option string;
  dataLineAttribute : option jsstring;
  dataBlockId : option string
}.

(** [start.closest("[data-block-id]")], where [elements] are [start] and
    its ancestors, the innermost first. *)
Fixpoint closestWithBlockId (elements : list Element) : option Element :=
  match elements with
  | [] => None
  | e :: ancestors =>
      if bool_decide (is_Some (dataBlockId e)) then Some e
      else closestWithBlockId ancestors
  end.

(** The block id that [handleBold] and [handleItalic] look up:
    [blockEl.getAttribute("data-block-id")] of that element, [None] when
    there is none.  [elements] are the parent element of the start of the
    range and its ancestors (no element at all when the start has no
    parent element). *)
Definition owningBlockId (elements : list Element) : option string :=
  match closestWithBlockId elements with
  | Some blockEl => dataBlockId blockEl
  | None => None
  end.

(** The selection that the two commands read, from the elements around the
    start of the range. *)
Definition selectionIn (elements : list Element) (collapsed : bool)
    (text : jsstring) (first last : Z) : Selection :=
  {| isCollapsed := collapsed; owner := owningBlockId elements;
     selectedText := text; startOffset := first; endOffset := last |}.

(** The elements of the component.  The span of a line of a block in edit
    mode: *)
Definition lineSpan (line : jsstring) : Element :=
  {| elementId := None; className := None; dataLineAttribute := Some line;
     dataBlockId := None |}.

(** the [div] of a block, in edit mode or not: *)
Definition blockElement (st : State) (id : string) : Element :=
  {| elementId := Some id;
     className := Some (if bool_decide (id ∈ editingBlockIds st)
                        then "m2-block m2-edit-mode"%string
                        else "m2-block"%string);
     dataLineAttribute := None; dataBlockId := None |}.

(** and the three [div]s that [Doc] returns around the blocks, with the
    [div] that [DocContainer] puts around [Doc]. *)
Definition docElements : list Element :=
  [ {| elementId := Some "m2-doc"%string;
       className := Some "m2-doc content"%string;
       dataLineAttribute := None; dataBlockId := None |};
    {| elementId := None; className := Some "m2-doc-container"%string;
       dataLineAttribute := None; dataBlockId := None |};
    {| elementId := None; className := Some "m2-doc"%string;
       dataLineAttribute := None; dataBlockId := None |};
    {| elementId := None; className := None;
       dataLineAttribute := None; dataBlockId := None |} ].

(** The parent element and its ancestors for a range that starts in the
    text of the line [line] of the block [id] drawn in edit mode. *)
Definition elementsAroundLine (st : State) (id : string) (line : jsstring)
  : list Element :=
  lineSpan line :: blockElement st id :: docElements.

(** ** Vocabulary of the properties *)

(** A line made of white space only: the lines that [trim] empties. *)
Definition blank (s : jsstring) : bool := forallb is_space s.

(** What closing [buffer] pushes on [blocks]: [buffer.trim()] when it is not
    empty. *)
Definition flush (buffer : jsstring) : list jsstring :=
  if truthy (trim buffer) then [trim buffer] else [].

(** A line that the loop adds to the buffer, as it occurs in a normalized
    text: neither a heading nor blank, and free of line breaks. *)
Definition text_line (l : jsstring) : Prop :=
  is_heading l = false ∧ blank l = false ∧ (LF ∉ l) ∧ (CR ∉ l).

(** The two ways a block is pushed: a trimmed heading line, or the trimmed
    buffer of one or more text lines. *)
Definition emitted (b : jsstring) : Prop :=
  (∃ h, is_heading h = true ∧ (LF ∉ h) ∧ (CR ∉ h) ∧ b = trim h)
  ∨ (∃ ls, ls ≠ [] ∧ Forall text_line ls ∧ b = trim (joinWith [LF] ls)).

(** The state of the loop between two lines. *)
Definition scan_inv (st : scan_state) : Prop :=
  Forall emitted st.1
  ∧ (st.2 = [] ∨ ∃ ls, ls ≠ [] ∧ Forall text_line ls ∧ st.2 = joinWith [LF] ls).

(** A block text that segments to itself: trimmed, not empty, and either one
    heading line or text lines only. *)
Definition settled (b : jsstring) : Prop :=
  trim b = b ∧ b ≠ [] ∧ (CR ∉ b)
  ∧ ((is_heading b = true ∧ (LF ∉ b)) ∨ Forall text_line (split_on LF b)).

(** Modelled from the spec: [join], which recombines block texts into one
    document text and which the source does not define.  Blocks are put back
    with one blank line between them, the separation that the segmenter
    reads as a block boundary. *)
Definition joinBlocks (blocks : list jsstring) : jsstring :=
  joinWith [LF; LF] blocks.

(** A block in which a heading line is followed by further lines has
    [heading_alone] false. *)
Definition heading_alone (b : jsstring) : bool :=
  match split_on LF b with
  | l :: _ :: _ => negb (is_heading l)
  | _ => true
  end.

(** The invariant of the document: the ordering sequence has no duplicate,
    and its ids are exactly the keys of the mapping. *)
Definition doc_ok (st : State) : Prop :=
  NoDup (allLines st) ∧ dom (doc st) = list_to_set (allLines st).

(** The ids that the generator hands out between two states. *)
Definition idsDrawn (shortid : nat → string) (st st' : State) : list string :=
  shortid <$> seq (generated st) (generated st' - generated st).

(** The offset, in a list line of groups [indent], [marker] and [content],
    at which the trimmed content starts. *)
Definition contentOffset (indent marker content : jsstring) : Z :=
  Z.of_nat (length indent + length marker
            + length (takeWhile is_space content)).

(** The characters of a text that are no white space, in order. *)
Definition nonSpace (s : jsstring) : jsstring :=
  filter (λ c, is_space c = false) s.

(** The [data-line] attributes of the spans of a block in edit mode, in
    order. *)
Definition dataLines (nodes : list EditNode) : list jsstring :=
  omap (λ n, match n with Span _ d => Some d | Br => None end) nodes.

(** The number of characters in a list of text nodes. *)
Definition textLength (nodes : list (NodePath * jsstring)) : Z :=
  foldr (λ n acc, Z.of_nat (length n.2) + acc)%Z 0%Z nodes.

(** What [walk] does, told over the text nodes in document order. *)
Fixpoint walkList (nodes : list (NodePath * jsstring)) (remaining : Z)
  : walk_state :=
  match nodes with
  | [] => (remaining, None)
  | (p, data) :: rest =>
      if (remaining <=? Z.of_nat (length data))%Z
      then (remaining, Some (p, remaining))
      else walkList rest (remaining - Z.of_nat (length data))
  end.

(** A caret, that is a collapsed selection, in a node of the block. *)
Definition caretSelection (node : NodePath) (offset : Z) : DomSelection :=
  {| rangeCount := 1; startContainer := Some node; rangeStart := offset;
     anchorNode := node; anchorOffset := offset |}.

(** No white space stands before a line terminator or at the end of the
    text. *)
Fixpoint noTrailingSpace (s : jsstring) : bool :=
  match s with
  | [] => true
  | c :: r => negb (is_space c && at_line_end r) && noTrailingSpace r
  end.

(** [out] is [line] with a span opened before a ribbon and closed after
    the first semicolon that follows it. *)
Definition wrapsReminder (line out : jsstring) : Prop :=
  ∃ a body c,
    line = a ++ RIBBON ++ body ++ [SEMICOLON] ++ c
    ∧ out = a ++ reminderOpen ++ RIBBON ++ body ++ [SEMICOLON]
              ++ reminderClose ++ c
    ∧ (SEMICOLON ∉ body).

(** The text of the whole document: the texts of the blocks in the order
    of [allLines], a missing entry counting as empty. *)
Definition docText (st : State) : jsstring :=
  concat ((λ j, default [] (doc st !! j)) <$> allLines st).

(** The spans of a block in edit mode, in order: [innerHTML] and
    [data-line] of each. *)
Definition spansOf (nodes : list EditNode) : list (jsstring * jsstring) :=
  omap (λ n, match n with Span html d => Some (html, d) | Br => None end)
    nodes.

(** ** Sample inputs *)

(** An id generator to run the handlers with: [n0], [n1], ... *)
Definition sampleIds (k : nat) : string := "n" +:+ pretty k.

(** Two blocks, [a] holding [foo] and [b] holding [text], with [b] in edit
    focus. *)
Definition sampleStateWith (text : jsstring) : State :=
  {| doc := {[ "a"%string := str "foo"; "b"%string := text ]};
     allLines := ["a"%string; "b"%string];
     editingBlockIds := ["b"%string];
     generated := 0 |}.

Definition sampleState : State := sampleStateWith (str "bar baz").

(** A key pressed in block [id] with the caret at [offset] of [text]. *)
Definition sampleKey (k : Key) (id : string) (text : jsstring) (offset : Z)
  : KeyEvent :=
  {| key := k; shiftKey := false; target := Some id; blockMarkdown := text;
     caretPos := offset; rangeStartOffset := offset; dataLine := None;
     caretAtStart := bool_decide (offset = 0%Z); blockIsEmpty := false |}.

(** A key pressed in a row of a list block: [row] is the text of the row,
    [offset] the caret offset in it. *)
Definition sampleListKey (id : string) (text row : jsstring) (offset : Z)
  : KeyEvent :=
  {| key := Enter; shiftKey := false; target := Some id;
     blockMarkdown := text; caretPos := offset; rangeStartOffset := offset;
     dataLine := Some row; caretAtStart := false; blockIsEmpty := false |}.

(** A block in edit mode with two lines, [ab] and [cde]: a span, a line
    break element and a span. *)
Definition sampleBlock : DomNode :=
  OtherNode [OtherNode [TextNode (str "ab")]; OtherNode [];
             OtherNode [TextNode (str "cde")]].

(** * Properties *)

(** ** Strings *)

Section StringFacts.
Implicit Types (s t u : jsstring) (p : N → bool) (c : N).

Lemma takeWhile_dropWhile p s : takeWhile p s ++ dropWhile p s = s.
Proof. induction s as [|c r IH]; simpl; [done|]. destruct (p c); simpl; congruence. Qed.

Lemma dropWhile_nil p s : dropWhile p s = [] ↔ forallb p s = true.
Proof.
  induction s as [|c r IH]; simpl; [done|].
  destruct (p c); simpl; [done|]. split; discriminate.
Qed.

Lemma dropWhile_head p s c r : dropWhile p s = c :: r → p c = false.
Proof.
  induction s as [|d s IH]; simpl; [done|].
  destruct (p d) eqn:E; [done|]. intros [= -> _]. done.
Qed.

Lemma dropWhile_fixed p s : match s with [] => True | c :: _ => p c = false end →
  dropWhile p s = s.
Proof. destruct s as [|c r]; simpl; [done|]. by intros ->. Qed.

Lemma dropWhile_idem p s : dropWhile p (dropWhile p s) = dropWhile p s.
Proof.
  apply dropWhile_fixed. destruct (dropWhile p s) eqn:E; [done|].
  by eapply dropWhile_head.
Qed.

Lemma dropWhile_app_all p s t : forallb p s = true → dropWhile p (s ++ t) = dropWhile p t.
Proof.
  induction s as [|c r IH]; simpl; [done|].
  intros [-> ?]%andb_prop. auto.
Qed.

Lemma dropWhile_app_some p s t : forallb p s = false →
  dropWhile p (s ++ t) = dropWhile p s ++ t.
Proof.
  induction s as [|c r IH]; simpl; [done|].
  destruct (p c); simpl; [auto|done].
Qed.

Lemma dropWhile_elem p s c : c ∈ dropWhile p s → c ∈ s.
Proof.
  rewrite <- (takeWhile_dropWhile p s) at 2. set_solver.
Qed.

Lemma blank_app s t : blank (s ++ t) = blank s && blank t.
Proof. apply forallb_app. Qed.

Lemma blank_reverse s : blank (reverse s) = blank s.
Proof.
  induction s as [|c r IH]; [done|].
  rewrite reverse_cons, blank_app, IH. simpl. rewrite andb_true_r. apply andb_comm.
Qed.

Lemma trimStart_nil s : trimStart s = [] ↔ blank s = true.
Proof. apply dropWhile_nil. Qed.

Lemma trimEnd_nil s : trimEnd s = [] ↔ blank s = true.
Proof.
  unfold trimEnd. rewrite <- blank_reverse. unfold blank.
  rewrite <- dropWhile_nil. split; [|by intros ->].
  intros H. apply (f_equal reverse) in H. by rewrite reverse_involutive in H.
Qed.

Lemma trimEnd_app_blank s t : blank t = true → trimEnd (s ++ t) = trimEnd s.
Proof.
  intros H. unfold trimEnd. rewrite reverse_app, dropWhile_app_all; [done|].
  by rewrite <- blank_reverse in H.
Qed.

Lemma trimEnd_app_nonblank s t : blank t = false → trimEnd (s ++ t) = s ++ trimEnd t.
Proof.
  intros H. unfold trimEnd. rewrite reverse_app, dropWhile_app_some.
  - by rewrite reverse_app, reverse_involutive.
  - by rewrite <- blank_reverse in H.
Qed.

Lemma trimEnd_idem s : trimEnd (trimEnd s) = trimEnd s.
Proof. unfold trimEnd. by rewrite reverse_involutive, dropWhile_idem. Qed.

Lemma trimEnd_decomp s : ∃ t, s = trimEnd s ++ t ∧ blank t = true.
Proof.
  exists (reverse (takeWhile is_space (reverse s))). split.
  - unfold trimEnd. rewrite <- reverse_app, takeWhile_dropWhile.
    by rewrite reverse_involutive.
  - rewrite blank_reverse. induction (reverse s) as [|c r IH]; simpl; [done|].
    destruct (is_space c) eqn:E; simpl; [by rewrite E|done].
Qed.

Lemma trimEnd_elem s c : c ∈ trimEnd s → c ∈ s.
Proof. destruct (trimEnd_decomp s) as (t & E & _). rewrite E at 2. set_solver. Qed.

Lemma trim_elem s c : c ∈ trim s → c ∈ s.
Proof. intros H%trimEnd_elem. by eapply dropWhile_elem. Qed.

Lemma blank_trimStart s : blank (trimStart s) = blank s.
Proof.
  unfold trimStart. induction s as [|c r IH]; simpl; [done|].
  destruct (is_space c) eqn:E; simpl; [done|by rewrite E].
Qed.

Lemma blank_trimEnd s : blank (trimEnd s) = blank s.
Proof.
  destruct (trimEnd_decomp s) as (t & E & Ht).
  rewrite E at 2. by rewrite blank_app, Ht, andb_true_r.
Qed.

Lemma trim_nil s : trim s = [] ↔ blank s = true.
Proof. unfold trim. by rewrite trimEnd_nil, blank_trimStart. Qed.

Lemma truthy_trim s : truthy (trim s) = negb (blank s).
Proof.
  destruct (trim s) eqn:E.
  - apply trim_nil in E. by rewrite E.
  - destruct (blank s) eqn:B; [|done]. apply trim_nil in B. congruence.
Qed.

Lemma trimEnd_cons_nonspace c s : is_space c = false → ∃ r, trimEnd (c :: s) = c :: r.
Proof.
  intros Hc. destruct (blank s) eqn:B.
  - exists []. change (c :: s) with ([c] ++ s). rewrite trimEnd_app_blank by done.
    unfold trimEnd. simpl. by rewrite Hc.
  - exists (trimEnd s). change (c :: s) with ([c] ++ s).
    by rewrite trimEnd_app_nonblank.
Qed.

Lemma trimStart_trim s : trimStart (trim s) = trim s.
Proof.
  unfold trim. destruct (trimStart s) as [|c r] eqn:E; [done|].
  pose proof (dropWhile_head _ _ _ _ E) as Hc.
  destruct (trimEnd_cons_nonspace c r Hc) as (r' & ->).
  unfold trimStart. simpl. by rewrite Hc.
Qed.

Lemma trim_idem s : trim (trim s) = trim s.
Proof. unfold trim at 1. rewrite trimStart_trim. unfold trim. apply trimEnd_idem. Qed.

Lemma trimEnd_trim s : trimEnd (trim s) = trim s.
Proof. unfold trim. apply trimEnd_idem. Qed.

End StringFacts.

(** ** Lines *)

Section LineFacts.
Implicit Types (s t : jsstring) (ls : list jsstring).

Lemma split_on_nonempty sep s : split_on sep s ≠ [].
Proof. induction s as [|c r IH]; simpl; [done|]. destruct (c =? sep)%N; [done|]. by destruct (split_on sep r). Qed.

Lemma split_on_cons_other sep c s :
  c ≠ sep → ∃ l ls, split_on sep s = l :: ls ∧ split_on sep (c :: s) = (c :: l) :: ls.
Proof.
  intros Hc. simpl. apply N.eqb_neq in Hc. rewrite Hc.
  destruct (split_on sep s) as [|l ls] eqn:E; [by destruct (split_on_nonempty sep s)|].
  eauto.
Qed.

(** Splitting at a separator splits the list of lines. *)
Lemma split_on_app sep s t :
  split_on sep (s ++ sep :: t) = split_on sep s ++ split_on sep t.
Proof.
  induction s as [|c r IH]; simpl.
  - by rewrite N.eqb_refl.
  - destruct (c =? sep)%N; [by rewrite IH|].
    rewrite IH. destruct (split_on sep r) eqn:E; [by destruct (split_on_nonempty sep r)|done].
Qed.

Lemma split_on_free sep s : sep ∉ s → split_on sep s = [s].
Proof.
  induction s as [|c r IH]; simpl; [done|]. intros H.
  apply not_elem_of_cons in H as [H1 H2].
  assert ((c =? sep)%N = false) as -> by (apply N.eqb_neq; congruence).
  by rewrite IH.
Qed.

Lemma split_on_line sep s t : sep ∉ s →
  split_on sep (s ++ sep :: t) = s :: split_on sep t.
Proof. intros H. by rewrite split_on_app, split_on_free. Qed.

Lemma split_on_free_lines sep s : Forall (λ l, sep ∉ l) (split_on sep s).
Proof.
  induction s as [|c r IH].
  - repeat constructor. apply not_elem_of_nil.
  - destruct (decide (c = sep)) as [->|Hc].
    + simpl. rewrite N.eqb_refl. constructor; [apply not_elem_of_nil|done].
    + destruct (split_on_cons_other sep c r Hc) as (l & ls & E1 & E2).
      rewrite E2. rewrite E1 in IH. inversion IH; subst.
      constructor; [|done]. apply not_elem_of_cons. split; [congruence|done].
Qed.

Lemma split_on_elem sep s : Forall (λ l, ∀ c, c ∈ l → c ∈ s) (split_on sep s).
Proof.
  induction s as [|c r IH].
  - by repeat constructor.
  - assert (Forall (λ l, ∀ c0, c0 ∈ l → c0 ∈ c :: r) (split_on sep r)) as IH'.
    { eapply Forall_impl; [exact IH|]. intros l H d Hd. right. auto. }
    destruct (decide (c = sep)) as [->|Hc].
    + simpl. rewrite N.eqb_refl. constructor; [|done]. by intros d ?%elem_of_nil.
    + destruct (split_on_cons_other sep c r Hc) as (l & ls & E1 & E2).
      rewrite E2. rewrite E1 in IH'. inversion IH'; subst.
      constructor; [|done]. intros d [->|Hd]%elem_of_cons; [left|auto].
Qed.

Lemma joinWith_cons sep l ls : ls ≠ [] → joinWith sep (l :: ls) = l ++ sep ++ joinWith sep ls.
Proof. by destruct ls. Qed.

Lemma joinWith_snoc sep ls l : ls ≠ [] → joinWith sep (ls ++ [l]) = joinWith sep ls ++ sep ++ l.
Proof.
  induction ls as [|a ls IH]; [done|]. intros _.
  destruct ls as [|b ls]; [done|].
  change ((a :: b :: ls) ++ [l]) with (a :: ((b :: ls) ++ [l])).
  rewrite joinWith_cons by (by destruct ls). rewrite IH by done.
  rewrite (joinWith_cons sep a (b :: ls)) by done. by rewrite <- !app_assoc.
Qed.

Lemma joinWith_elem sep ls c : c ∈ joinWith sep ls → c ∈ sep ∨ ∃ l, l ∈ ls ∧ c ∈ l.
Proof.
  induction ls as [|a ls IH]; simpl; [set_solver|].
  destruct ls as [|b ls]; [set_solver|].
  rewrite !elem_of_app. intros [H|[H|H]]; [set_solver|by left|].
  destruct (IH H) as [?|(l & ? & ?)]; [by left|right]. exists l. set_solver.
Qed.

Lemma split_on_join ls : ls ≠ [] → Forall (λ l, LF ∉ l) ls →
  split_on LF (joinWith [LF] ls) = ls.
Proof.
  induction ls as [|a ls IH]; [done|]. intros _ H.
  inversion H as [|?? Ha Hls]; subst.
  destruct ls as [|b ls]; [by apply split_on_free|].
  rewrite joinWith_cons by done.
  change (split_on LF (a ++ LF :: joinWith [LF] (b :: ls)) = a :: b :: ls).
  rewrite split_on_line by done. by rewrite IH.
Qed.

Lemma normalizeNewlines_free s : CR ∉ normalizeNewlines s.
Proof.
  induction s as [s IH] using (induction_ltof1 _ length). unfold ltof in IH.
  destruct s as [|c r]; simpl; [set_solver|].
  destruct (c =? CR)%N eqn:E.
  - apply not_elem_of_cons. split; [done|].
    destruct r as [|d r']; [set_solver|].
    destruct (d =? LF)%N; apply IH; simpl; lia.
  - apply N.eqb_neq in E. apply not_elem_of_cons. split; [done|].
    apply IH. simpl. lia.
Qed.

Lemma normalizeNewlines_id s : CR ∉ s → normalizeNewlines s = s.
Proof.
  induction s as [|c r IH]; simpl; [done|]. intros H.
  apply not_elem_of_cons in H as [H1 H2].
  assert ((c =? CR)%N = false) as -> by (apply N.eqb_neq; congruence).
  by rewrite IH.
Qed.

End LineFacts.

(** ** The segmenter *)

Section SegmenterFacts.
Implicit Types (s t buf line : jsstring) (ls bs : list jsstring).

Lemma is_heading_nonblank line : is_heading line = true → blank line = false.
Proof.
  destruct line as [|c r]; simpl; [done|].
  intros [Hc _]%andb_prop. apply N.eqb_eq in Hc as ->. done.
Qed.

Lemma is_heading_app line t : is_heading line = true → is_heading (line ++ t) = true.
Proof.
  destruct line as [|c r]; simpl; [done|].
  intros [-> H]%andb_prop. simpl.
  destruct (dropWhile (λ x, (x =? HASH)%N) r) as [|d r'] eqn:E; [done|].
  rewrite dropWhile_app_some, E; [done|].
  destruct (forallb (λ x, (x =? HASH)%N) r) eqn:F; [|done].
  apply dropWhile_nil in F. congruence.
Qed.

Lemma scan_line_heading bs buf line : is_heading line = true →
  scan_line (bs, buf) line = (bs ++ flush buf ++ [trim line], []).
Proof.
  intros H. unfold scan_line, flush. rewrite H.
  destruct (truthy (trim buf)); by rewrite <- ?app_assoc.
Qed.

Lemma scan_line_blank bs buf line : is_heading line = false → blank line = true →
  scan_line (bs, buf) line = (bs ++ flush buf, if truthy (trim buf) then [] else buf).
Proof.
  intros H B. unfold scan_line, flush. rewrite H.
  apply trim_nil in B. rewrite B. unfold eqs. rewrite bool_decide_eq_true_2 by done.
  destruct (truthy (trim buf)); by rewrite ?app_nil_r.
Qed.

Lemma scan_line_text bs buf line : is_heading line = false → blank line = false →
  scan_line (bs, buf) line = (bs, (if truthy buf then buf ++ [LF] else buf) ++ line).
Proof.
  intros H B. unfold scan_line. rewrite H.
  unfold eqs. rewrite bool_decide_eq_false_2; [done|].
  intros E%trim_nil. congruence.
Qed.

Lemma scan_line_blocks bs buf line :
  scan_line (bs, buf) line
  = (bs ++ (scan_line ([], buf) line).1, (scan_line ([], buf) line).2).
Proof.
  destruct (is_heading line) eqn:H.
  - by rewrite !scan_line_heading.
  - destruct (blank line) eqn:B.
    + by rewrite !scan_line_blank.
    + rewrite !scan_line_text by done. simpl. by rewrite app_nil_r.
Qed.

Lemma scan_lines_cons st line ls :
  scan_lines st (line :: ls) = scan_lines (scan_line st line) ls.
Proof. done. Qed.

Lemma scan_lines_blocks bs buf ls :
  scan_lines (bs, buf) ls
  = (bs ++ (scan_lines ([], buf) ls).1, (scan_lines ([], buf) ls).2).
Proof.
  revert bs buf. induction ls as [|l ls IH]; intros bs buf.
  - simpl. by rewrite app_nil_r.
  - rewrite !scan_lines_cons, scan_line_blocks.
    destruct (scan_line ([], buf) l) as [b1 buf1]. simpl.
    rewrite IH. rewrite (IH b1). simpl. by rewrite app_assoc.
Qed.

Lemma scan_lines_app st ls1 ls2 :
  scan_lines st (ls1 ++ ls2) = scan_lines (scan_lines st ls1) ls2.
Proof. apply foldl_app. Qed.

Lemma scan_finish_flush bs buf :
  scan_finish (bs, buf) = filter (λ b, truthy b = true) (bs ++ flush buf).
Proof. unfold scan_finish, flush. destruct (truthy (trim buf)); by rewrite ?app_nil_r. Qed.

Lemma filter_flush buf : filter (λ b, truthy b = true) (flush buf) = flush buf.
Proof.
  unfold flush. destruct (truthy (trim buf)) eqn:E; [|done].
  rewrite filter_cons_True by done. done.
Qed.

(** A heading line closes what precedes it and what follows starts afresh. *)
Lemma blocks_of_lines_heading ls1 line ls2 : is_heading line = true →
  blocks_of_lines (ls1 ++ line :: ls2)
  = blocks_of_lines ls1 ++ trim line :: blocks_of_lines ls2.
Proof.
  intros H. unfold blocks_of_lines.
  rewrite scan_lines_app, scan_lines_cons.
  destruct (scan_lines ([], []) ls1) as [b1 buf1] eqn:E1.
  rewrite scan_line_heading by done. rewrite scan_lines_blocks.
  destruct (scan_lines ([], []) ls2) as [b2 buf2] eqn:E2. cbn [fst snd].
  rewrite !scan_finish_flush. rewrite <- !app_assoc. rewrite !filter_app.
  rewrite <- !app_assoc. cbn [app].
  rewrite filter_cons_True; [done|].
  rewrite truthy_trim. by rewrite is_heading_nonblank.
Qed.

End SegmenterFacts.

(** ** Blocks that segment to themselves *)

Section Resegmentation.
Implicit Types (s t b buf line : jsstring) (ls bs : list jsstring).

Lemma joinWith_split s : joinWith [LF] (split_on LF s) = s.
Proof.
  induction s as [|c r IH]; [done|].
  destruct (decide (c = LF)) as [->|Hc].
  - simpl split_on. rewrite joinWith_cons by apply split_on_nonempty.
    by rewrite IH.
  - destruct (split_on_cons_other LF c r Hc) as (l & ls & E1 & E2).
    rewrite E2. rewrite E1 in IH. rewrite <- IH.
    destruct ls; [done|]. rewrite !joinWith_cons by done. done.
Qed.

Lemma text_lines_nonblank ls : ls ≠ [] → Forall text_line ls →
  blank (joinWith [LF] ls) = false.
Proof.
  destruct ls as [|l ls]; [done|]. intros _ H.
  inversion H as [|?? (_ & B & _) _]; subst.
  destruct ls; [done|]. rewrite joinWith_cons by done.
  by rewrite blank_app, B.
Qed.

Lemma blank_false_truthy s : blank s = false → truthy s = true.
Proof. by destruct s. Qed.

Lemma flush_nil : flush [] = [].
Proof. done. Qed.

Lemma flush_nonblank buf : blank buf = false → flush buf = [trim buf].
Proof. intros B. unfold flush. by rewrite truthy_trim, B. Qed.

(** Text lines pile up in the buffer, joined by line feeds. *)
Lemma scan_text_lines ls : ls ≠ [] → Forall text_line ls →
  scan_lines ([], []) ls = ([], joinWith [LF] ls).
Proof.
  induction ls as [|l ls IH] using rev_ind; [done|]. intros _ H.
  apply Forall_app in H as [Hls Hl].
  inversion Hl as [|?? (Hh & Hb & _) _]; subst.
  rewrite scan_lines_app.
  change (scan_lines ?st [l]) with (scan_line st l).
  destruct ls as [|a ls].
  - change (scan_lines ([], []) []) with (([], []) : scan_state).
    by rewrite scan_line_text.
  - rewrite IH by done. rewrite scan_line_text by done.
    rewrite (blank_false_truthy (joinWith [LF] (a :: ls)))
      by (by apply text_lines_nonblank).
    rewrite joinWith_snoc by done. by rewrite <- app_assoc.
Qed.

Lemma scan_line_inv st line : LF ∉ line → CR ∉ line →
  scan_inv st → scan_inv (scan_line st line).
Proof.
  intros HLF HCR. destruct st as [bs buf]. intros [Hbs Hbuf]. simpl in Hbs, Hbuf.
  assert (Forall emitted (flush buf)) as Hflush.
  { destruct Hbuf as [->|(ls & Hne & Hls & ->)]; [by rewrite flush_nil|].
    rewrite flush_nonblank by (by apply text_lines_nonblank).
    apply Forall_singleton. right. eauto. }
  destruct (is_heading line) eqn:H.
  - rewrite scan_line_heading by done. split; simpl; [|by left].
    rewrite !Forall_app. repeat split; [done..|].
    apply Forall_singleton. left. eauto.
  - destruct (blank line) eqn:B.
    + rewrite scan_line_blank by done. split; simpl.
      * by rewrite Forall_app.
      * destruct (truthy (trim buf)); [by left|done].
    + rewrite scan_line_text by done. split; simpl; [done|]. right.
      assert (text_line line) as Hline by done.
      destruct Hbuf as [->|(ls & Hne & Hls & ->)].
      * exists [line]. split; [done|]. split; [by constructor|done].
      * exists (ls ++ [line]). split; [by destruct ls|].
        split; [apply Forall_app; split; [done|by constructor]|].
        rewrite (blank_false_truthy (joinWith [LF] ls))
          by (by apply text_lines_nonblank).
        rewrite joinWith_snoc by done. by rewrite <- app_assoc.
Qed.

Lemma scan_lines_inv st ls : Forall (λ l, (LF ∉ l) ∧ (CR ∉ l)) ls →
  scan_inv st → scan_inv (scan_lines st ls).
Proof.
  intros H. revert st. induction H as [|l ls [??] _ IH]; intros st Hst; [done|].
  rewrite scan_lines_cons. apply IH. by apply scan_line_inv.
Qed.

Lemma scan_finish_emitted st : scan_inv st → Forall emitted (scan_finish st).
Proof.
  destruct st as [bs buf]. intros [Hbs Hbuf]. simpl in Hbs, Hbuf.
  rewrite scan_finish_flush. apply Forall_forall.
  intros b [_ [Hb|Hb]%elem_of_app]%list_elem_of_filter.
  - by eapply Forall_forall in Hbs.
  - destruct Hbuf as [->|(ls & Hne & Hls & ->)]; [by apply elem_of_nil in Hb|].
    rewrite flush_nonblank in Hb by (by apply text_lines_nonblank).
    apply list_elem_of_singleton in Hb as ->. right. eauto.
Qed.

Lemma splitIntoBlocks_emitted text : Forall emitted (splitIntoBlocks text).
Proof.
  apply scan_finish_emitted, scan_lines_inv; [|split; simpl; [done|by left]].
  pose proof (split_on_free_lines LF (normalizeNewlines text)) as H1.
  pose proof (split_on_elem LF (normalizeNewlines text)) as H2.
  apply Forall_forall. intros l Hl. split.
  - by eapply Forall_forall in H1.
  - eapply Forall_forall in H2; [|done]. intros H%H2.
    by apply normalizeNewlines_free in H.
Qed.

Lemma blank_trim s : blank (trim s) = blank s.
Proof. unfold trim. by rewrite blank_trimEnd, blank_trimStart. Qed.

(** One trimmed line that is not blank is settled, heading or not. *)
Lemma settled_single l : blank l = false → LF ∉ l → CR ∉ l → settled (trim l).
Proof.
  intros B HLF HCR.
  assert (LF ∉ trim l) as HLF' by (intros ?%trim_elem; done).
  assert (CR ∉ trim l) as HCR' by (intros ?%trim_elem; done).
  split; [apply trim_idem|]. split; [intros E%trim_nil; congruence|].
  split; [done|].
  destruct (is_heading (trim l)) eqn:H; [by left|right].
  rewrite split_on_free by done. apply Forall_singleton.
  by rewrite <- blank_trim in B.
Qed.

Lemma is_heading_trimEnd l : is_heading (trimEnd l) = true → is_heading l = true.
Proof.
  intros H. destruct (trimEnd_decomp l) as (t & E & _). rewrite E.
  by apply is_heading_app.
Qed.

(** The lines of a trimmed buffer of two or more text lines: the first
    without its leading white space, the last without its trailing white
    space. *)
Lemma trim_joined l1 mid ln :
  blank l1 = false → blank ln = false →
  trim (joinWith [LF] (l1 :: mid ++ [ln]))
  = joinWith [LF] (trimStart l1 :: mid ++ [trimEnd ln]).
Proof.
  intros B1 Bn. unfold trim.
  rewrite joinWith_cons by (by destruct mid).
  unfold trimStart at 1. rewrite dropWhile_app_some by done.
  fold (trimStart l1).
  rewrite <- (joinWith_cons [LF] (trimStart l1)) by (by destruct mid).
  change (trimStart l1 :: mid ++ [ln]) with ((trimStart l1 :: mid) ++ [ln]).
  rewrite joinWith_snoc by done. rewrite !app_assoc.
  rewrite trimEnd_app_nonblank by done. rewrite <- !app_assoc.
  rewrite <- joinWith_snoc by done. done.
Qed.

Lemma emitted_settled b :
  emitted b →
  (∀ l rest, split_on LF b = l :: rest → is_heading l = true → rest = []) →
  settled b.
Proof.
  intros [(h & Hh & HLF & HCR & ->)|(ls & Hne & Hls & ->)] Hfirst.
  - apply settled_single; [by apply is_heading_nonblank|done..].
  - destruct ls as [|l1 r]; [done|].
    inversion Hls as [|?? (H1 & B1 & LF1 & CR1) Hr]; subst.
    destruct r as [|a r] using rev_ind; [by apply settled_single|]. clear IHr.
    rename r into mid. rename a into ln.
    apply Forall_app in Hr as [Hmid Hln].
    inversion Hln as [|?? (Hn & Bn & LFn & CRn) _]; subst.
    assert (Forall (λ l, LF ∉ l) (trimStart l1 :: mid ++ [trimEnd ln])) as Hfree.
    { constructor; [by intros ?%dropWhile_elem|]. apply Forall_app. split.
      - eapply Forall_impl; [exact Hmid|]. by intros l (_ & _ & ? & _).
      - apply Forall_singleton. by intros ?%trimEnd_elem. }
    rewrite trim_joined in Hfirst |- * by done.
    rewrite split_on_join in Hfirst by done.
    split; [by rewrite <- trim_joined, trim_idem|].
    assert (Forall text_line (trimStart l1 :: mid ++ [trimEnd ln])) as Htext.
    { constructor.
      - split; [|split; [by rewrite blank_trimStart|split; by intros ?%dropWhile_elem]].
        destruct (is_heading (trimStart l1)) eqn:E; [|done].
        specialize (Hfirst _ _ eq_refl E). by destruct mid.
      - apply Forall_app. split; [done|]. apply Forall_singleton.
        split; [|split; [by rewrite blank_trimEnd|split; by intros ?%trimEnd_elem]].
        destruct (is_heading (trimEnd ln)) eqn:E; [|done].
        apply is_heading_trimEnd in E. congruence. }
    split.
    { intros E.
      assert (blank (joinWith [LF] (trimStart l1 :: mid ++ [trimEnd ln])) = false)
        as B by (by apply text_lines_nonblank).
      by rewrite E in B. }
    split.
    { intros [?|(l & Hl & Hc)]%joinWith_elem; [set_solver|].
      eapply Forall_forall in Htext; [|done]. by destruct Htext as (_ & _ & _ & ?). }
    right. by rewrite split_on_join.
Qed.

Lemma scan_line_empty bs buf :
  scan_line (bs, buf) [] = (bs ++ flush buf, if truthy (trim buf) then [] else buf).
Proof. by apply scan_line_blank. Qed.

(** A settled block followed by an empty line is read back as that block,
    and the loop goes on from an empty buffer. *)
Lemma settled_scan b rest : settled b →
  scan_lines ([], []) (split_on LF b ++ [] :: rest)
  = (b :: (scan_lines ([], []) rest).1, (scan_lines ([], []) rest).2).
Proof.
  intros (Ht & Hne & _ & H).
  assert (blank b = false) as B.
  { destruct (blank b) eqn:B; [|done]. apply trim_nil in B. congruence. }
  rewrite scan_lines_app, scan_lines_cons.
  assert (scan_line (scan_lines ([], []) (split_on LF b)) [] = ([b], [])) as ->.
  { destruct H as [[Hh HLF]|Htext].
    - rewrite split_on_free by done.
      change (scan_lines ?st [b]) with (scan_line st b).
      rewrite scan_line_heading by done. rewrite flush_nil, Ht. simpl app.
      rewrite scan_line_empty. by rewrite flush_nil.
    - rewrite scan_text_lines by (done || apply split_on_nonempty).
      rewrite joinWith_split, scan_line_empty, flush_nonblank by done.
      by rewrite Ht, (blank_false_truthy b). }
  by rewrite scan_lines_blocks.
Qed.

Lemma settled_alone b : settled b → blocks_of_lines (split_on LF b) = [b].
Proof.
  intros (Ht & Hne & _ & H).
  assert (blank b = false) as B.
  { destruct (blank b) eqn:B; [|done]. apply trim_nil in B. congruence. }
  assert (truthy b = true) as Hb by (by apply blank_false_truthy).
  unfold blocks_of_lines. destruct H as [[Hh HLF]|Htext].
  - rewrite split_on_free by done.
    change (scan_lines ?st [b]) with (scan_line st b).
    rewrite scan_line_heading by done. rewrite flush_nil, Ht, scan_finish_flush.
    simpl. by rewrite filter_cons_True.
  - rewrite scan_text_lines by (done || apply split_on_nonempty).
    rewrite joinWith_split, scan_finish_flush, flush_nonblank by done.
    rewrite Ht. simpl. by rewrite filter_cons_True.
Qed.

Lemma joinBlocks_cons b bs : bs ≠ [] →
  joinBlocks (b :: bs) = b ++ LF :: LF :: joinBlocks bs.
Proof. intros H. unfold joinBlocks. by rewrite joinWith_cons. Qed.

Lemma joinBlocks_free bs : Forall settled bs → CR ∉ joinBlocks bs.
Proof.
  intros H [Hc|(b & Hb & Hc)]%joinWith_elem.
  - set_solver.
  - eapply Forall_forall in H; [|done]. by destruct H as (_ & _ & ? & _).
Qed.

(** Settled blocks, joined with blank lines, segment back to themselves. *)
Lemma splitIntoBlocks_joinBlocks bs :
  Forall settled bs → splitIntoBlocks (joinBlocks bs) = bs.
Proof.
  intros H. unfold splitIntoBlocks.
  rewrite normalizeNewlines_id by (by apply joinBlocks_free).
  induction H as [|b bs Hb Hbs IH]; [done|].
  destruct bs as [|b' bs]; [by apply settled_alone|].
  rewrite joinBlocks_cons by done. rewrite split_on_app.
  change (split_on LF (LF :: ?s)) with ([] :: split_on LF s).
  unfold blocks_of_lines in *. rewrite settled_scan by done.
  destruct (scan_lines ([], []) (split_on LF (joinBlocks (b' :: bs)))) as [b2 buf2].
  rewrite scan_finish_flush in *. simpl.
  rewrite filter_cons_True; [by rewrite IH|].
  destruct Hb as (Ht & Hne & _). by destruct b.
Qed.

End Resegmentation.

(** ** Heading isolation and re-segmentation *)

(** C5.  Heading isolation: a line of the text that matches the heading
    pattern is emitted, trimmed, as a block of its own which holds no line
    break; the blocks before it are those of the lines before it, whose
    buffer it closes, and the blocks after it are those of the lines after
    it, read from an empty buffer. *)
Theorem heading_isolation (text : jsstring) (before : list jsstring)
    (line : jsstring) (after : list jsstring) :
  split_on LF (normalizeNewlines text) = before ++ line :: after →
  is_heading line = true →
  splitIntoBlocks text
  = blocks_of_lines before ++ trim line :: blocks_of_lines after
  ∧ LF ∉ trim line.
Proof.
  intros Hlines Hh. split.
  - unfold splitIntoBlocks. rewrite Hlines. by apply blocks_of_lines_heading.
  - intros Hin%trim_elem.
    pose proof (split_on_free_lines LF (normalizeNewlines text)) as Hfree.
    rewrite Hlines in Hfree. apply Forall_app in Hfree as [_ Hfree].
    by inversion Hfree.
Qed.

Lemma heading_isolation_witness :
  let text := str "intro" ++ [CR; LF] ++ str "## Title  " ++ [LF] ++ str "body" in
  split_on LF (normalizeNewlines text)
  = [str "intro"] ++ str "## Title  " :: [str "body"]
  ∧ is_heading (str "## Title  ") = true
  ∧ splitIntoBlocks text = [str "intro"; str "## Title"; str "body"].
Proof.
  intros text. split; [reflexivity|]. split; [reflexivity|].
  exact (proj1 (heading_isolation text [str "intro"] (str "## Title  ")
                  [str "body"] eq_refl eq_refl)).
Defined.

(** C6, as stated, fails: a buffer whose first line is an indented heading
    is trimmed into a block that starts with a heading line, and that block
    segments into two. *)
Lemma segmentation_not_idempotent :
  let text := str " # x" ++ [LF] ++ str "foo" in
  splitIntoBlocks text = [str "# x" ++ [LF] ++ str "foo"]
  ∧ splitIntoBlocks (joinBlocks (splitIntoBlocks text)) = [str "# x"; str "foo"]
  ∧ splitIntoBlocks (joinBlocks (splitIntoBlocks text)) ≠ splitIntoBlocks text.
Proof. split; [reflexivity|]. split; [reflexivity|]. by vm_compute. Qed.

(** The failure does not depend on how blocks are joined: here there is one
    block only. *)
Lemma any_join_loses_idempotence (sep : jsstring) :
  let text := str " # x" ++ [LF] ++ str "foo" in
  splitIntoBlocks (joinWith sep (splitIntoBlocks text)) ≠ splitIntoBlocks text.
Proof. by vm_compute. Qed.

Lemma heading_alone_spec b l rest :
  heading_alone b = true → split_on LF b = l :: rest → is_heading l = true →
  rest = [].
Proof.
  unfold heading_alone. intros H E Hl. rewrite E in H.
  destruct rest; [done|]. by rewrite Hl in H.
Qed.

(** C6, amended.  When no block of [splitIntoBlocks text] has a heading line
    followed by further lines, segmenting the blocks joined by blank lines
    gives the same blocks. *)
Theorem segmentation_idempotent (text : jsstring) :
  forallb heading_alone (splitIntoBlocks text) = true →
  splitIntoBlocks (joinBlocks (splitIntoBlocks text)) = splitIntoBlocks text.
Proof.
  intros H. apply splitIntoBlocks_joinBlocks.
  pose proof (splitIntoBlocks_emitted text) as He.
  apply Forall_forall. intros b Hb.
  apply emitted_settled; [by eapply Forall_forall in He|].
  intros l rest. apply heading_alone_spec.
  rewrite forallb_forall in H. apply H. by apply list_elem_of_In.
Qed.

Lemma segmentation_idempotent_witness :
  let text := str "  one" ++ [LF] ++ str "two  " ++ [CR] ++ str "# h " ++ [LF]
              ++ str " # x" ++ [LF; LF] ++ str "tail" in
  forallb heading_alone (splitIntoBlocks text) = true
  ∧ splitIntoBlocks (joinBlocks (splitIntoBlocks text)) = splitIntoBlocks text.
Proof.
  split; [reflexivity|]. apply segmentation_idempotent. reflexivity.
Defined.

(** ** Arrays and offsets *)

Section ArrayFacts.
Implicit Types (l pre post : list string) (x y : string).

Lemma arrayIndexOfFrom_shift x l i :
  arrayIndexOfFrom x l i
  = (if bool_decide (x ∈ l) then i + arrayIndexOfFrom x l 0 else -1)%Z.
Proof.
  revert i. induction l as [|y l IH]; intros i; cbn [arrayIndexOfFrom].
  - by rewrite bool_decide_eq_false_2 by apply not_elem_of_nil.
  - destruct (decide (y = x)) as [->|Hne].
    + rewrite !bool_decide_eq_true_2 by (done || left). lia.
    + rewrite (bool_decide_eq_false_2 (y = x)) by done.
      rewrite (IH (i + 1)%Z), (IH (0 + 1)%Z).
      destruct (decide (x ∈ l)) as [Hin|Hnin].
      * rewrite !bool_decide_eq_true_2 by (done || by right). lia.
      * rewrite (bool_decide_eq_false_2 (x ∈ l)) by done.
        rewrite (bool_decide_eq_false_2 (x ∈ y :: l)); [done|].
        intros [?|?]%elem_of_cons; congruence.
Qed.

Lemma arrayIndexOf_app pre x post :
  x ∉ pre → arrayIndexOf (pre ++ x :: post) x = Z.of_nat (length pre).
Proof.
  unfold arrayIndexOf. induction pre as [|y pre IH]; intros H;
    cbn [arrayIndexOfFrom app length].
  - by rewrite bool_decide_eq_true_2.
  - apply not_elem_of_cons in H as [H1 H2].
    rewrite bool_decide_eq_false_2 by congruence.
    rewrite arrayIndexOfFrom_shift, bool_decide_eq_true_2 by set_solver.
    rewrite IH by done. lia.
Qed.

Lemma arrayIndexOf_elem l x : x ∈ l →
  ∃ pre post, l = pre ++ x :: post ∧ x ∉ pre.
Proof.
  induction l as [|y l IH]; [by intros ?%elem_of_nil|].
  destruct (decide (y = x)) as [->|Hne].
  - intros _. exists [], l. split; [done|apply not_elem_of_nil].
  - intros [?|Hin]%elem_of_cons; [congruence|].
    destruct (IH Hin) as (pre & post & -> & Hpre).
    exists (y :: pre), post. split; [done|]. apply not_elem_of_cons. split; [congruence|done].
Qed.

Lemma splice_middle {A} (pre mid post items : list A) :
  splice (pre ++ mid ++ post) (Z.of_nat (length pre)) (length mid) items
  = pre ++ items ++ post.
Proof.
  unfold splice, clampIndex.
  assert ((Z.of_nat (length pre) <? 0)%Z = false) as -> by (apply Z.ltb_ge; lia).
  rewrite !length_app.
  assert (Z.to_nat (Z.min (Z.of_nat (length pre))
            (Z.of_nat (length pre + (length mid + length post)))) = length pre)
    as -> by lia.
  rewrite take_app_length. rewrite drop_app_add'; [|done].
  by rewrite drop_app_length.
Qed.

Lemma at_index_app {A} (pre post : list A) (a : A) :
  at_index (pre ++ a :: post) (Z.of_nat (length pre)) = Some a.
Proof.
  unfold at_index. assert ((Z.of_nat (length pre) <? 0)%Z = false) as -> by (apply Z.ltb_ge; lia).
  rewrite Nat2Z.id. by rewrite list_lookup_middle.
Qed.

Lemma slice_take (s : jsstring) (k : Z) :
  (0 ≤ k)%Z → slice s 0 k = take (Z.to_nat k) s.
Proof.
  intros H. unfold slice, clampIndex.
  assert ((k <? 0)%Z = false) as -> by (apply Z.ltb_ge; lia).
  change (0 <? 0)%Z with false. cbv iota.
  rewrite (Z.min_l 0) by lia. rewrite Z.sub_0_r. change (drop (Z.to_nat 0) s) with s.
  destruct (decide (k ≤ Z.of_nat (length s))%Z).
  - by rewrite Z.min_l by lia.
  - rewrite Z.min_r by lia. rewrite Nat2Z.id.
    rewrite !take_ge; [done|lia|lia].
Qed.

Lemma sliceFrom_drop (s : jsstring) (k : Z) :
  (0 ≤ k)%Z → sliceFrom s k = drop (Z.to_nat k) s.
Proof.
  intros H. unfold sliceFrom, slice, clampIndex.
  assert ((k <? 0)%Z = false) as -> by (apply Z.ltb_ge; lia).
  assert ((Z.of_nat (length s) <? 0)%Z = false) as -> by (apply Z.ltb_ge; lia).
  rewrite (Z.min_l (Z.of_nat (length s))) by lia.
  destruct (decide (k ≤ Z.of_nat (length s))%Z).
  - rewrite Z.min_l by lia. rewrite take_ge; [done|]. rewrite length_drop. lia.
  - rewrite Z.min_r by lia. rewrite Nat2Z.id.
    rewrite !drop_ge by lia. by rewrite take_nil.
Qed.

End ArrayFacts.

(** ** The structural operations *)

Section EditorFacts.
Context (shortid : nat → string).
Implicit Types (st : State) (ev : KeyEvent) (id : string)
  (d : gmap string jsstring) (ids out : list string) (bs : list jsstring).

Lemma orEmptyBlock_length bs : 1 ≤ length (orEmptyBlock bs).
Proof. destruct bs; simpl; lia. Qed.

Lemma orEmptyBlock_spec bs :
  orEmptyBlock bs = if bool_decide (bs = []) then [[]] else bs.
Proof. by destruct bs. Qed.

Lemma assignBlocks_other d out ids bs k :
  k ∉ ids → (assignBlocks (d, out) ids bs).1 !! k = d !! k.
Proof.
  revert d out bs. induction ids as [|i ids IH]; intros d out bs Hk; [done|].
  destruct bs as [|b bs]; [done|].
  apply not_elem_of_cons in Hk as [Hne Hk].
  change (assignBlocks (d, out) (i :: ids) (b :: bs))
    with (assignBlocks (<[i:=b]> d, out ++ [i]) ids bs).
  rewrite IH by done. by rewrite lookup_insert_ne.
Qed.

Lemma assignBlocks_lookup d out ids bs n j b :
  NoDup ids → ids !! n = Some j → bs !! n = Some b →
  (assignBlocks (d, out) ids bs).1 !! j = Some b.
Proof.
  revert d out bs n. induction ids as [|i ids IH]; intros d out bs n Hnd Hj Hb;
    [done|].
  destruct bs as [|b0 bs]; [done|].
  apply NoDup_cons in Hnd as [Hi Hnd].
  change (assignBlocks (d, out) (i :: ids) (b0 :: bs))
    with (assignBlocks (<[i:=b0]> d, out ++ [i]) ids bs).
  destruct n as [|n]; simpl in Hj, Hb.
  - injection Hj as ->. injection Hb as ->.
    rewrite assignBlocks_other by done. by rewrite lookup_insert_eq.
  - by eapply IH.
Qed.

Lemma assignBlocks_snd d out ids bs :
  length ids = length bs → (assignBlocks (d, out) ids bs).2 = out ++ ids.
Proof.
  revert d out bs. induction ids as [|i ids IH]; intros d out bs Hlen.
  - destruct bs; [|done]. simpl. by rewrite app_nil_r.
  - destruct bs as [|b bs]; [done|].
    change (assignBlocks (d, out) (i :: ids) (b :: bs))
      with (assignBlocks (<[i:=b]> d, out ++ [i]) ids bs).
    rewrite IH by (simpl in Hlen; lia). by rewrite <- app_assoc.
Qed.

Lemma assignBlocks_dom d out ids bs :
  length ids = length bs →
  dom (assignBlocks (d, out) ids bs).1 = dom d ∪ list_to_set ids.
Proof.
  revert d out bs. induction ids as [|i ids IH]; intros d out bs Hlen.
  - destruct bs; [|done]. simpl. set_solver.
  - destruct bs as [|b bs]; [done|].
    change (assignBlocks (d, out) (i :: ids) (b :: bs))
      with (assignBlocks (<[i:=b]> d, out ++ [i]) ids bs).
    rewrite IH by (simpl in Hlen; lia). rewrite dom_insert_L. set_solver.
Qed.

Lemma assignBlocks_app d out ids1 ids2 bs1 bs2 :
  length ids1 = length bs1 →
  assignBlocks (d, out) (ids1 ++ ids2) (bs1 ++ bs2)
  = assignBlocks (assignBlocks (d, out) ids1 bs1) ids2 bs2.
Proof.
  intros Hlen. unfold assignBlocks. by rewrite zip_with_app, foldl_app.
Qed.

(** What [handleBlockSplit] builds: the ids in order, with the blocks of the
    two halves assigned to them in one pass. *)
Lemma handleBlockSplit_next st id md k :
  let bb := orEmptyBlock (splitIntoBlocks (slice md 0 k)) in
  let ab := orEmptyBlock (splitIntoBlocks (sliceFrom md k)) in
  let count := length bb - 1 + length ab in
  let ids := id :: (shortid <$> seq (generated st) count) in
  length ids = length bb + length ab
  ∧ next (handleBlockSplit shortid st id md k)
    = {| doc := (assignBlocks (doc st, []) ids (bb ++ ab)).1;
         allLines := splice (allLines st) (arrayIndexOf (allLines st) id) 1 ids;
         editingBlockIds := option_list (ids !! length bb);
         generated := generated st + count |}.
Proof.
  intros bb ab count ids.
  pose proof (orEmptyBlock_length (splitIntoBlocks (slice md 0 k))) as Hbb.
  assert (length ids = length bb + length ab) as Hlen.
  { unfold ids. cbn [length]. rewrite length_fmap, length_seq. unfold count.
    fold bb in Hbb. lia. }
  split; [done|].
  assert (length (take (length bb) ids) = length bb) as Htake
    by (rewrite length_take; lia).
  unfold handleBlockSplit. fold bb ab count ids. cbn [next]. f_equal.
  - rewrite <- (take_drop (length bb) ids) at 3.
    by rewrite assignBlocks_app.
  - f_equal.
    destruct (assignBlocks (doc st, []) (take (length bb) ids) bb) as [d1 o1] eqn:E1.
    rewrite assignBlocks_snd by (rewrite length_drop; lia).
    replace o1 with ((assignBlocks (doc st, []) (take (length bb) ids) bb).2)
      by (by rewrite E1).
    rewrite assignBlocks_snd by done. simpl. apply take_drop.
Qed.

Lemma doc_ok_split st id md k :
  doc_ok st → id ∈ allLines st →
  NoDup (idsDrawn shortid st (next (handleBlockSplit shortid st id md k))
         ++ allLines st) →
  doc_ok (next (handleBlockSplit shortid st id md k)).
Proof.
  intros [Hnd Hdom] Hid Hfresh.
  destruct (handleBlockSplit_next st id md k) as [Hlen Hnext].
  unfold idsDrawn in Hfresh. rewrite Hnext in Hfresh |- *. clear Hnext.
  cbn [generated] in Hfresh.
  set (bb := orEmptyBlock (splitIntoBlocks (slice md 0 k))) in *.
  set (ab := orEmptyBlock (splitIntoBlocks (sliceFrom md k))) in *.
  set (count := length bb - 1 + length ab) in *.
  replace (generated st + count - generated st) with count in Hfresh by lia.
  set (gens := shortid <$> seq (generated st) count) in *.
  destruct (arrayIndexOf_elem _ _ Hid) as (pre & post & E & Hpre).
  rewrite E in Hfresh |- *. rewrite arrayIndexOf_app by done.
  rewrite (splice_middle pre [id] post).
  apply NoDup_app in Hfresh as (Hg & Hdisj & Hall).
  rewrite E in Hdom. split; cbn [allLines doc].
  - apply NoDup_app in Hall as (Hp1 & Hp2 & Hp3).
    apply NoDup_cons in Hp3 as [Hp3 Hp4].
    apply NoDup_app. split; [done|]. split.
    + intros x Hx [->|[Hx'|Hx']%elem_of_app]%elem_of_cons.
      * by apply Hp2 in Hx; apply Hx; left.
      * apply (Hdisj x Hx'). set_solver.
      * apply (Hp2 x Hx). by right.
    + apply NoDup_cons. split.
      * intros [Hx|Hx]%elem_of_app; [|done]. apply (Hdisj id Hx). set_solver.
      * apply NoDup_app. split; [done|]. split; [|done].
        intros x Hx Hx'. apply (Hdisj x Hx). set_solver.
  - rewrite assignBlocks_dom by (by rewrite length_app). rewrite Hdom.
    set_solver.
Qed.

Lemma handleBackwardMerge_at st pre prevId id post :
  allLines st = pre ++ prevId :: id :: post → id ∉ pre → id ≠ prevId →
  handleBackwardMerge st id
  = let prevText := default [] (doc st !! prevId) in
    let currText := default [] (doc st !! id) in
    mergeInto st id prevId (Z.of_nat (length (pre ++ [prevId])))
      (if isListText prevText && isListText currText
       then prevText ++ [LF] ++ currText else prevText ++ currText)
      prevText BackwardMerge.
Proof.
  intros E Hpre Hne. unfold handleBackwardMerge. rewrite E.
  replace (pre ++ prevId :: id :: post) with ((pre ++ [prevId]) ++ id :: post)
    by (by rewrite <- app_assoc).
  rewrite arrayIndexOf_app by set_solver.
  assert ((0 <? Z.of_nat (length (pre ++ [prevId])))%Z = true) as ->.
  { apply Z.ltb_lt. rewrite length_app. simpl. lia. }
  replace (Z.of_nat (length (pre ++ [prevId])) - 1)%Z with (Z.of_nat (length pre))
    by (rewrite length_app; simpl; lia).
  rewrite <- app_assoc. cbn [app]. rewrite at_index_app. cbv zeta.
  by destruct (isListText _ && isListText _).
Qed.

Lemma doc_ok_merge st id :
  doc_ok st → id ∈ allLines st → doc_ok (next (handleBackwardMerge st id)).
Proof.
  intros [Hnd Hdom] Hid.
  destruct (arrayIndexOf_elem _ _ Hid) as (pre & post & E & Hpre).
  destruct pre as [|p pre _] using rev_ind.
  - unfold handleBackwardMerge. rewrite E at 1. rewrite arrayIndexOf_app by done.
    by cbn.
  - rewrite <- app_assoc in E. cbn [app] in E.
    assert ((id ∉ pre) ∧ id ≠ p) as [Hpre' Hne] by set_solver.
    rewrite (handleBackwardMerge_at st pre p id post) by done.
    cbv zeta. unfold mergeInto. cbn [next].
    replace (allLines st) with ((pre ++ [p]) ++ [id] ++ post)
      by (by rewrite E, <- app_assoc).
    rewrite (splice_middle (pre ++ [p]) [id] post).
    rewrite E in Hnd, Hdom. split; cbn [allLines doc].
    + rewrite <- app_assoc. cbn [app].
      apply NoDup_app in Hnd as (H1 & H2 & H3).
      apply NoDup_cons in H3 as [H3 H4]. apply NoDup_cons in H4 as [H4 H5].
      apply NoDup_app. split; [done|]. split.
      * intros x Hx Hx'. apply (H2 x Hx). set_solver.
      * apply NoDup_cons. split; [set_solver|done].
    + rewrite dom_delete_L, dom_insert_L, Hdom.
      apply NoDup_app in Hnd as (H1 & H2 & H3).
      apply NoDup_cons in H3 as [H3 H4]. apply NoDup_cons in H4 as [H4 H5].
      set_solver.
Qed.

Lemma doc_ok_delete st id :
  doc_ok st → id ∈ allLines st → doc_ok (next (handleDeleteEmpty st id)).
Proof.
  intros [Hnd Hdom] Hid.
  destruct (arrayIndexOf_elem _ _ Hid) as (pre & post & E & Hpre).
  unfold handleDeleteEmpty. cbn [next]. rewrite E.
  rewrite arrayIndexOf_app by done. rewrite (splice_middle pre [id] post).
  rewrite E in Hnd, Hdom. split; cbn [allLines doc].
  - apply NoDup_app in Hnd as (H1 & H2 & H3).
    apply NoDup_cons in H3 as [H3 H4].
    apply NoDup_app. split; [done|]. split; [|done].
    intros x Hx Hx'. apply (H2 x Hx). by right.
  - rewrite dom_delete_L, Hdom.
    apply NoDup_app in Hnd as (H1 & H2 & H3).
    apply NoDup_cons in H3 as [H3 H4]. set_solver.
Qed.

End EditorFacts.

(** ** List markers *)

Section ListFacts.
Implicit Types (s t u : jsstring) (box : N → bool).

Lemma takeWhile_app_stop p s t :
  drop (length (takeWhile p s)) s ≠ [] → takeWhile p (s ++ t) = takeWhile p s.
Proof.
  induction s as [|c r IH]; simpl; [done|].
  destruct (p c); simpl; [|done]. intros H. by rewrite IH.
Qed.

Lemma match_bullet_app s t n :
  match_bullet s = Some n → match_bullet (s ++ t) = Some n.
Proof. by destruct s as [|a [|b r]]. Qed.

Lemma match_ordered_app s t n :
  match_ordered s = Some n → match_ordered (s ++ t) = Some n.
Proof.
  unfold match_ordered.
  destruct (takeWhile is_digit s) as [|d ds] eqn:E; [done|].
  destruct (drop (length (d :: ds)) s) as [|a [|b r]] eqn:D; [done..|].
  intros H. rewrite takeWhile_app_stop by (rewrite E, D; done).
  rewrite E. rewrite drop_app_le.
  - by rewrite D.
  - rewrite <- E. rewrite <- (takeWhile_dropWhile is_digit s) at 2.
    rewrite length_app. lia.
Qed.

(** The task alternative never decides: what it matches starts with a
    hyphen and a space, which the bullet alternative has matched already. *)
Lemma match_marker_no_task box s :
  match_marker box s
  = match match_bullet s with Some n => Some n | None => match_ordered s end.
Proof.
  unfold match_marker. destruct (match_bullet s) eqn:B; [done|].
  destruct (match_ordered s); [done|].
  destruct s as [|a [|b [|c [|d [|e [|f r]]]]]]; try done.
  unfold match_task.
  destruct (a =? 45)%N eqn:Ea; [|done]. destruct (b =? SP)%N eqn:Eb; [|done].
  simpl in B. apply N.eqb_eq in Ea as ->. by rewrite Eb in B.
Qed.

Lemma match_marker_box box1 box2 s : match_marker box1 s = match_marker box2 s.
Proof. by rewrite !match_marker_no_task. Qed.

Lemma match_marker_app box s t :
  is_Some (match_marker box s) → is_Some (match_marker box (s ++ t)).
Proof.
  rewrite !match_marker_no_task.
  destruct (match_bullet s) as [m|] eqn:B.
  { intros _. by rewrite (match_bullet_app s t m). }
  intros [m O]. rewrite (match_ordered_app s t m) by done.
  by destruct (match_bullet (s ++ t)).
Qed.

Lemma match_marker_nonempty box s : is_Some (match_marker box s) → s ≠ [].
Proof. intros [n H] ->. done. Qed.

Lemma test_list_from_box box1 box2 b s :
  test_list_from box1 b s = test_list_from box2 b s.
Proof.
  revert b. induction s as [|c r IH]; intros b; cbn [test_list_from].
  - by rewrite (match_marker_box box1 box2).
  - by rewrite (match_marker_box box1 box2), IH.
Qed.

(** The two list patterns of the source accept the same texts. *)
Lemma isListText_isListBlock s : isListText s = isListBlock s.
Proof. apply test_list_from_box. Qed.

Lemma test_list_from_app box b s t :
  test_list_from box b s = true → test_list_from box b (s ++ t) = true.
Proof.
  revert b. induction s as [|c r IH]; intros b.
  - cbn [test_list_from dropWhile]. rewrite orb_false_r. intros [_ H]%andb_prop.
    apply bool_decide_eq_true in H. by destruct H.
  - cbn [test_list_from app].
    intros [H|H]%orb_prop; apply orb_true_iff; [left|right; by apply IH].
    apply andb_prop in H as [-> H]. apply bool_decide_eq_true in H.
    apply bool_decide_eq_true.
    change (c :: r ++ t) with ((c :: r) ++ t).
    rewrite dropWhile_app_some.
    + by apply match_marker_app.
    + destruct (forallb is_space (c :: r)) eqn:F; [|done].
      apply dropWhile_nil in F. rewrite F in H. by destruct H.
Qed.

(** A prefix of a text that is no list is no list. *)
Lemma isListText_prefix s t : isListText (s ++ t) = false → isListText s = false.
Proof.
  intros H. destruct (isListText s) eqn:E; [|done].
  apply (test_list_from_app _ _ _ t) in E. unfold isListText in H. congruence.
Qed.

End ListFacts.

(** ** The ordering invariant, splits and merges *)

Section StructuralClaims.
Context (shortid : nat → string).
Implicit Types (st : State) (ev : KeyEvent) (id : string).

(** C7.  Ordering invariant: a structural split, a backward merge or an
    empty-block deletion, run by [handleKeyDown] on a block of a document
    that satisfies the invariant, with ids from the generator that are new
    and distinct, leaves a document that satisfies the invariant. *)
Theorem structural_operations_keep_invariant st ev id :
  doc_ok st →
  target ev = Some id →
  id ∈ allLines st →
  NoDup (idsDrawn shortid st (next (handleKeyDown shortid st ev))
         ++ allLines st) →
  branch (handleKeyDown shortid st ev) = BlockSplit
  ∨ branch (handleKeyDown shortid st ev) = BackwardMerge
  ∨ branch (handleKeyDown shortid st ev) = DeleteEmpty →
  doc_ok (next (handleKeyDown shortid st ev)).
Proof.
  intros Hok Ht Hid. unfold handleKeyDown. rewrite Ht.
  destruct (bool_decide (key ev = Enter) && negb (shiftKey ev)).
  { destruct (isListBlock (blockMarkdown ev)).
    - unfold handleListEnter. destruct (dataLine ev) as [cl|]; [|naive_solver].
      destruct (listEnter _ _ _) as [[[??]?]|]; naive_solver.
    - intros Hfresh _. by apply doc_ok_split. }
  destruct (bool_decide (key ev = Enter) && shiftKey ev).
  { unfold handleLiteralNewline. destruct (editingBlockIds st); [naive_solver|].
    case_bool_decide; naive_solver. }
  destruct (firstMergeGuard ev).
  { intros _ _. by apply doc_ok_merge. }
  destruct ((bool_decide (key ev = Backspace) || bool_decide (key ev = Delete))
            && blockIsEmpty ev).
  { intros _ _. by apply doc_ok_delete. }
  destruct (secondMergeGuard ev); [|naive_solver].
  unfold handleSecondMerge. destruct (0 <? _)%Z; [|naive_solver].
  destruct (at_index _ _); naive_solver.
Qed.

(** C8.  A structural split stores every block of the two halves, an empty
    block standing for a half that segments to nothing: the ids put in place
    of the original one are the original id followed by new ones, one per
    block, each half has at least one, and the original id holds the first
    block of the first half. *)
Theorem split_keeps_both_halves st id (md : jsstring) (k : Z) :
  let before := splitIntoBlocks (slice md 0 k) in
  let after := splitIntoBlocks (sliceFrom md k) in
  let bb := if bool_decide (before = []) then [[]] else before in
  let ab := if bool_decide (after = []) then [[]] else after in
  let ids := id :: (shortid <$> seq (generated st) (length bb - 1 + length ab)) in
  let st' := next (handleBlockSplit shortid st id md k) in
  NoDup ids →
  allLines st' = splice (allLines st) (arrayIndexOf (allLines st) id) 1 ids
  ∧ length ids = length bb + length ab
  ∧ 1 ≤ length bb ∧ 1 ≤ length ab
  ∧ (∀ n b, (bb ++ ab) !! n = Some b →
       ∃ j, ids !! n = Some j ∧ doc st' !! j = Some b)
  ∧ doc st' !! id = head bb
  ∧ editingBlockIds st' = option_list (ids !! length bb).
Proof.
  intros before after bb ab ids st' Hnd.
  destruct (handleBlockSplit_next shortid st id md k) as [Hlen Hnext].
  fold before after in Hlen, Hnext.
  rewrite !orEmptyBlock_spec in Hlen, Hnext.
  fold bb ab in Hlen, Hnext. fold ids in Hlen, Hnext. fold st' in Hnext.
  assert (1 ≤ length bb) as Hbb
    by (unfold bb; rewrite <- orEmptyBlock_spec; apply orEmptyBlock_length).
  assert (1 ≤ length ab) as Hab
    by (unfold ab; rewrite <- orEmptyBlock_spec; apply orEmptyBlock_length).
  rewrite Hnext. cbn [allLines doc editingBlockIds].
  repeat split; [done..| |].
  - intros n b Hb.
    destruct (lookup_lt_is_Some_2 ids n) as [j Hj].
    { apply lookup_lt_Some in Hb. rewrite length_app in Hb. lia. }
    exists j. split; [done|]. by eapply assignBlocks_lookup.
  - destruct bb as [|b0 bb']; [simpl in Hbb; lia|].
    by apply (assignBlocks_lookup _ _ ids _ 0).
Qed.

Lemma handleKeyDown_backspace_at_start st ev id :
  target ev = Some id → key ev = Backspace → caretAtStart ev = true →
  handleKeyDown shortid st ev = handleBackwardMerge st id.
Proof.
  intros Ht Hk Hc. unfold handleKeyDown, firstMergeGuard. by rewrite Ht, Hk, Hc.
Qed.


(** C10.  The last arm of the chain, the second Backspace-at-start arm, never
    runs: its guard is the guard of the first one, which is tried before it;
    Backspace at the start of a block is [handleBackwardMerge], whatever the
    rest of the event. *)
Theorem second_merge_arm_is_dead :
  (∀ ev, secondMergeGuard ev = firstMergeGuard ev)
  ∧ (∀ st ev, branch (handleKeyDown shortid st ev) ≠ SecondMerge
              ∧ branch (handleKeyDown shortid st ev) ≠ SecondMergeNone)
  ∧ (∀ st id shift md pos off line empty,
       handleKeyDown shortid st
         (mkKeyEvent Backspace shift (Some id) md pos off line true empty)
       = handleBackwardMerge st id).
Proof.
  split; [done|]. split; [|done].
  intros st ev. unfold handleKeyDown.
  destruct (target ev) as [id|]; [|done].
  destruct (bool_decide (key ev = Enter) && negb (shiftKey ev)).
  { destruct (isListBlock (blockMarkdown ev)); [|done].
    unfold handleListEnter. destruct (dataLine ev) as [cl|]; [|done].
    by destruct (listEnter _ _ _) as [[[??]?]|]. }
  destruct (bool_decide (key ev = Enter) && shiftKey ev).
  { unfold handleLiteralNewline. destruct (editingBlockIds st); [done|].
    by case_bool_decide. }
  unfold secondMergeGuard. destruct (firstMergeGuard ev) eqn:G.
  { unfold handleBackwardMerge. destruct (0 <? _)%Z; [|done].
    destruct (at_index _ _); [|done]. by destruct (isListText _ && isListText _). }
  unfold firstMergeGuard in G. rewrite G.
  by destruct ((bool_decide (key ev = Backspace) || bool_decide (key ev = Delete))
               && blockIsEmpty ev).
Qed.

Lemma orEmptyBlock_half (half : jsstring) :
  half = [] ∨ splitIntoBlocks half = [half] →
  orEmptyBlock (splitIntoBlocks half) = [half].
Proof. by intros [->| ->]. Qed.

(** C1, amended.  When each half of the text, cut at the caret, is empty or
    segments to itself, Enter in a block that is no list, with a new id from
    the generator, leaves the two halves as two blocks, and Backspace at the
    start of the second one gives back the document: the block has its text
    again, the mapping and the ordering sequence are what they were, and the
    caret is asked where the text was cut. *)
Theorem split_then_merge_restores st ev1 ev2 id (T : jsstring) (k : nat) :
  doc_ok st → id ∈ allLines st → doc st !! id = Some T →
  shortid (generated st) ∉ allLines st →
  key ev1 = Enter → shiftKey ev1 = false → target ev1 = Some id →
  blockMarkdown ev1 = T → caretPos ev1 = Z.of_nat k → k ≤ length T →
  isListBlock T = false →
  take k T = [] ∨ splitIntoBlocks (take k T) = [take k T] →
  drop k T = [] ∨ splitIntoBlocks (drop k T) = [drop k T] →
  key ev2 = Backspace → caretAtStart ev2 = true →
  target ev2 = head (editingBlockIds (next (handleKeyDown shortid st ev1))) →
  let o1 := handleKeyDown shortid st ev1 in
  let o2 := handleKeyDown shortid (next o1) ev2 in
  branch o1 = BlockSplit
  ∧ doc (next o1) !! id = Some (take k T)
  ∧ doc (next o1) !! shortid (generated st) = Some (drop k T)
  ∧ editingBlockIds (next o1) = [shortid (generated st)]
  ∧ branch o2 = BackwardMerge
  ∧ doc (next o2) !! id = Some T
  ∧ doc (next o2) = doc st
  ∧ allLines (next o2) = allLines st
  ∧ editingBlockIds (next o2) = [id]
  ∧ caret o2 = Some (id, AtOffset (Z.of_nat k)).
Proof.
  intros [Hnd Hdom] Hid HT Hfresh Hk1 Hs1 Ht1 Hmd Hpos Hk Hlist Hbefore Hafter
    Hk2 Hc2 Ht2 o1 o2.
  set (g := shortid (generated st)) in *.
  destruct (arrayIndexOf_elem _ _ Hid) as (pre & post & E & Hpre).
  assert (g ≠ id) as Hgid by (intros ->; done).
  assert (doc st !! g = None) as Hg.
  { apply not_elem_of_dom. rewrite Hdom. by rewrite elem_of_list_to_set. }
  assert (o1 = handleBlockSplit shortid st id T (Z.of_nat k)) as Eo1.
  { unfold o1, handleKeyDown. by rewrite Ht1, Hk1, Hs1, Hmd, Hlist, Hpos. }
  assert (next o1 = {| doc := <[g := drop k T]> (<[id := take k T]> (doc st));
                       allLines := pre ++ [id; g] ++ post;
                       editingBlockIds := [g];
                       generated := generated st + 1 |}) as E1.
  { rewrite Eo1.
    destruct (handleBlockSplit_next shortid st id T (Z.of_nat k)) as [_ ->].
    rewrite slice_take, sliceFrom_drop, Nat2Z.id by lia.
    rewrite !orEmptyBlock_half by done. cbn [length Nat.sub Nat.add seq fmap list_fmap].
    rewrite E, arrayIndexOf_app by done.
    by rewrite (splice_middle pre [id] post). }
  assert (target ev2 = Some g) as Ht2'.
  { rewrite Ht2. fold o1. by rewrite E1. }
  assert (o2 = mergeInto (next o1) g id (Z.of_nat (length (pre ++ [id]))) T
                 (take k T) BackwardMerge) as Eo2.
  { unfold o2. rewrite (handleKeyDown_backspace_at_start (next o1) ev2 g) by done.
    rewrite (handleBackwardMerge_at (next o1) pre id g post);
      [|by rewrite E1|rewrite E in Hfresh; set_solver|done].
    cbv zeta. rewrite E1. cbn [doc].
    rewrite lookup_insert_eq, lookup_insert_ne, lookup_insert_eq by done.
    cbn [default from_option Datatypes.id].
    assert (isListText (take k T) = false) as ->.
    { apply (isListText_prefix _ (drop k T)).
      by rewrite take_drop, isListText_isListBlock. }
    cbn [andb]. by rewrite take_drop. }
  split; [by rewrite Eo1|].
  rewrite E1 at 1 2 3. cbn [doc editingBlockIds].
  split; [by rewrite lookup_insert_ne, lookup_insert_eq|].
  split; [by rewrite lookup_insert_eq|]. split; [done|].
  rewrite Eo2. unfold mergeInto. cbn [next branch caret doc allLines editingBlockIds].
  rewrite E1. cbn [doc allLines].
  assert (delete g (<[id:=T]> (<[g:=drop k T]> (<[id:=take k T]> (doc st))))
          = doc st) as ->.
  { apply map_eq. intros i.
    destruct (decide (i = g)) as [->|Hig]; [by rewrite lookup_delete_eq|].
    rewrite lookup_delete_ne by done.
    destruct (decide (i = id)) as [->|Hiid]; [by rewrite lookup_insert_eq|].
    by rewrite !lookup_insert_ne. }
  split; [done|]. split; [done|]. split; [done|]. split.
  - replace (pre ++ [id; g] ++ post) with ((pre ++ [id]) ++ [g] ++ post)
      by (by rewrite <- app_assoc).
    rewrite (splice_middle (pre ++ [id]) [g] post).
    by rewrite app_nil_l, <- app_assoc, E.
  - split; [done|]. rewrite length_take. do 3 f_equal. lia.
Qed.

End StructuralClaims.

(** ** The claims on sample documents *)

Lemma structural_operations_keep_invariant_witness :
  let split := sampleKey Enter "b" (str "bar baz") 4 in
  let merge := sampleKey Backspace "b" (str "bar baz") 0 in
  let remove := {| key := Delete; shiftKey := false; target := Some "b"%string;
                   blockMarkdown := []; caretPos := 0; rangeStartOffset := 0;
                   dataLine := None; caretAtStart := true;
                   blockIsEmpty := true |} in
  doc_ok sampleState
  ∧ "b"%string ∈ allLines sampleState
  ∧ NoDup (idsDrawn sampleIds sampleState
             (next (handleKeyDown sampleIds sampleState split))
           ++ allLines sampleState)
  ∧ (branch (handleKeyDown sampleIds sampleState split) = BlockSplit
     ∧ allLines (next (handleKeyDown sampleIds sampleState split))
       = ["a"%string; "b"%string; "n0"%string]
     ∧ doc_ok (next (handleKeyDown sampleIds sampleState split)))
  ∧ (branch (handleKeyDown sampleIds sampleState merge) = BackwardMerge
     ∧ allLines (next (handleKeyDown sampleIds sampleState merge))
       = ["a"%string]
     ∧ doc_ok (next (handleKeyDown sampleIds sampleState merge)))
  ∧ (branch (handleKeyDown sampleIds sampleState remove) = DeleteEmpty
     ∧ allLines (next (handleKeyDown sampleIds sampleState remove))
       = ["a"%string]
     ∧ doc_ok (next (handleKeyDown sampleIds sampleState remove))).
Proof.
  intros split merge remove.
  assert (doc_ok sampleState) as H1 by (split; compute_done).
  assert ("b"%string ∈ allLines sampleState) as H2 by compute_done.
  assert (∀ ev, generated (next (handleKeyDown sampleIds sampleState ev)) = 0 →
            NoDup (idsDrawn sampleIds sampleState
                     (next (handleKeyDown sampleIds sampleState ev))
                   ++ allLines sampleState)) as H0.
  { intros ev Hev. unfold idsDrawn. rewrite Hev. apply H1. }
  assert (NoDup (idsDrawn sampleIds sampleState
                   (next (handleKeyDown sampleIds sampleState split))
                 ++ allLines sampleState)) as H3 by compute_done.
  split; [exact H1|]. split; [exact H2|]. split; [exact H3|].
  split; [|split].
  - split; [reflexivity|]. split; [reflexivity|].
    exact (structural_operations_keep_invariant sampleIds sampleState split "b"
             H1 eq_refl H2 H3 (or_introl eq_refl)).
  - split; [reflexivity|]. split; [reflexivity|].
    exact (structural_operations_keep_invariant sampleIds sampleState merge "b"
             H1 eq_refl H2 (H0 merge eq_refl) (or_intror (or_introl eq_refl))).
  - split; [reflexivity|]. split; [reflexivity|].
    exact (structural_operations_keep_invariant sampleIds sampleState remove "b"
             H1 eq_refl H2 (H0 remove eq_refl) (or_intror (or_intror eq_refl))).
Defined.

Lemma split_keeps_both_halves_witness :
  let st' := next (handleBlockSplit sampleIds sampleState "b" (str "bar baz") 7) in
  NoDup ["b"%string; sampleIds 0]
  ∧ allLines st' = ["a"%string; "b"%string; "n0"%string]
  ∧ doc st' !! "b"%string = Some (str "bar baz")
  ∧ doc st' !! "n0"%string = Some [].
Proof.
  intros st'.
  assert (NoDup ["b"%string; sampleIds 0]) as H by compute_done.
  split; [exact H|].
  pose proof (split_keeps_both_halves sampleIds sampleState "b" (str "bar baz") 7 H)
    as (H1 & _ & _ & _ & H2 & H3 & _).
  split; [exact H1|]. split; [exact H3|].
  destruct (H2 1 [] eq_refl) as (j & Hj & Hd).
  injection Hj as <-. exact Hd.
Defined.


(** The example of the design document: [foo] and [bar] become [foobar]. *)
Example backspace_joins_foo_bar :
  let st := {| doc := {[ "A"%string := str "foo"; "B"%string := str "bar" ]};
               allLines := ["A"%string; "B"%string];
               editingBlockIds := ["B"%string];
               generated := 0 |} in
  let o := handleKeyDown sampleIds st (sampleKey Backspace "B" (str "bar") 0) in
  doc (next o) = {[ "A"%string := str "foobar" ]}
  ∧ allLines (next o) = ["A"%string].
Proof. split; by vm_compute. Qed.

(** Two list blocks are joined by a line feed, a list block and a paragraph
    side by side. *)
Example backspace_joins_lists :
  let st := {| doc := {[ "A"%string := str "- a"; "B"%string := str "- b";
                         "C"%string := str "c" ]};
               allLines := ["A"%string; "B"%string; "C"%string];
               editingBlockIds := ["B"%string];
               generated := 0 |} in
  let o := handleKeyDown sampleIds st (sampleKey Backspace "B" (str "- b") 0) in
  let o' := handleKeyDown sampleIds st (sampleKey Backspace "C" (str "c") 0) in
  doc (next o) !! "A"%string = Some (str "- a" ++ [LF] ++ str "- b")
  ∧ doc (next o') !! "B"%string = Some (str "- bc").
Proof. split; by vm_compute. Qed.

(** C1, as stated, fails: the halves are segmented again, which trims them
    and drops their blank lines, and the merge puts the blocks side by side.
    Enter after [bar] in [bar baz], then Backspace at the start of the new
    block, leaves [barbaz]. *)
Lemma split_then_merge_loses_space :
  let enter := sampleKey Enter "b" (str "bar baz") 3 in
  let o1 := handleKeyDown sampleIds sampleState enter in
  let backspace := sampleKey Backspace "n0" (str "baz") 0 in
  let o2 := handleKeyDown sampleIds (next o1) backspace in
  doc_ok sampleState
  ∧ isListBlock (str "bar baz") = false
  ∧ allLines (next o1) = ["a"%string; "b"%string; "n0"%string]
  ∧ doc (next o1) !! "b"%string = Some (str "bar")
  ∧ doc (next o1) !! "n0"%string = Some (str "baz")
  ∧ editingBlockIds (next o1) = ["n0"%string]
  ∧ allLines (next o2) = ["a"%string; "b"%string]
  ∧ doc (next o2) !! "b"%string = Some (str "barbaz")
  ∧ doc (next o2) !! "b"%string ≠ Some (str "bar baz").
Proof.
  intros enter o1 backspace o2.
  split; [split; compute_done|]. do 7 (split; [by vm_compute|]). by vm_compute.
Qed.

Lemma split_then_merge_restores_witness :
  let ev1 := sampleKey Enter "b" (str "barbaz") 3 in
  let st := {| doc := {[ "a"%string := str "foo"; "b"%string := str "barbaz" ]};
               allLines := ["a"%string; "b"%string];
               editingBlockIds := ["b"%string];
               generated := 0 |} in
  let o1 := handleKeyDown sampleIds st ev1 in
  let ev2 := sampleKey Backspace "n0" (str "baz") 0 in
  let o2 := handleKeyDown sampleIds (next o1) ev2 in
  doc_ok st
  ∧ "b"%string ∈ allLines st
  ∧ (sampleIds (generated st) ∉ allLines st)
  ∧ isListBlock (str "barbaz") = false
  ∧ splitIntoBlocks (take 3 (str "barbaz")) = [take 3 (str "barbaz")]
  ∧ splitIntoBlocks (drop 3 (str "barbaz")) = [drop 3 (str "barbaz")]
  ∧ target ev2 = head (editingBlockIds (next o1))
  ∧ allLines (next o1) = ["a"%string; "b"%string; "n0"%string]
  ∧ doc (next o2) !! "b"%string = Some (str "barbaz")
  ∧ doc (next o2) = doc st
  ∧ allLines (next o2) = allLines st.
Proof.
  intros ev1 st o1 ev2 o2.
  assert (doc_ok st) as H1 by (split; compute_done).
  assert ("b"%string ∈ allLines st) as H2 by compute_done.
  assert (sampleIds (generated st) ∉ allLines st) as H3 by compute_done.
  assert (3 ≤ length (str "barbaz")) as H4 by (simpl; lia).
  split; [exact H1|]. split; [exact H2|]. split; [exact H3|].
  do 5 (split; [reflexivity|]).
  pose proof (split_then_merge_restores sampleIds st ev1 ev2 "b" (str "barbaz") 3
                H1 H2 eq_refl H3 eq_refl eq_refl eq_refl eq_refl eq_refl H4
                eq_refl (or_intror eq_refl) (or_intror eq_refl)
                eq_refl eq_refl eq_refl)
    as (_ & _ & _ & _ & _ & H6 & H7 & H8 & _).
  split; [exact H6|]. split; [exact H7|]. exact H8.
Defined.

(** ** Enter in a list block *)

Section ListEnterFacts.
Implicit Types (s t u line : jsstring) (ls pre post : list jsstring).

Lemma withNewlines_app ls1 ls2 :
  withNewlines (ls1 ++ ls2) = withNewlines ls1 ++ withNewlines ls2.
Proof.
  induction ls1 as [|l ls1 IH]; [done|].
  change (withNewlines ((l :: ls1) ++ ls2))
    with (l ++ LF :: withNewlines (ls1 ++ ls2)).
  change (withNewlines (l :: ls1)) with (l ++ LF :: withNewlines ls1).
  rewrite IH. by rewrite <- app_assoc.
Qed.

Lemma split_on_withNewlines pre s :
  Forall (λ l, LF ∉ l) pre →
  split_on LF (withNewlines pre ++ s) = pre ++ split_on LF s.
Proof.
  induction 1 as [|l pre Hl _ IH]; [done|].
  change (withNewlines (l :: pre)) with (l ++ LF :: withNewlines pre).
  rewrite <- app_assoc. cbn [app].
  rewrite split_on_line by done. by rewrite IH.
Qed.

Lemma trimEnd_length s : length (trimEnd s) ≤ length s.
Proof.
  destruct (trimEnd_decomp s) as (t & E & _). rewrite E at 2.
  rewrite length_app. lia.
Qed.

Lemma blank_nil_cons c s : blank (c :: s) = is_space c && blank s.
Proof. done. Qed.

(** What [trimEnd] leaves of a text whose line [l2] ends on a character that
    is no white space: everything up to and including that line. *)
Lemma trimEnd_after_line s l2 t :
  blank l2 = false → trimEnd l2 = l2 →
  ∃ t', trimEnd (s ++ l2 ++ LF :: t) = s ++ l2 ++ t' ∧ (t' = [] ∨ ∃ r, t' = LF :: r).
Proof.
  intros B E. destruct (blank (LF :: t)) eqn:Bt.
  - exists []. split; [|by left].
    rewrite app_assoc, trimEnd_app_blank by done.
    rewrite trimEnd_app_nonblank by done. by rewrite E, app_nil_r.
  - exists (trimEnd (LF :: t)). split.
    + rewrite app_assoc, trimEnd_app_nonblank by done. by rewrite <- app_assoc.
    + right. change (LF :: t) with ([LF] ++ t) in *.
      rewrite blank_app in Bt. cbn in Bt.
      rewrite trimEnd_app_nonblank by done. by eexists.
Qed.

(** The lines of the rewritten block: the lines before, the two lines that
    replace the current one, then what [trimEnd] leaves of the lines
    after. *)
Lemma lines_after_rewrite pre l1 l2 post :
  Forall (λ l, LF ∉ l) pre → LF ∉ l1 → LF ∉ l2 →
  blank l2 = false → trimEnd l2 = l2 →
  ∃ rest,
    split_on LF (trimEnd (withNewlines pre ++ (l1 ++ [LF] ++ l2 ++ [LF])
                          ++ withNewlines post))
    = pre ++ l1 :: l2 :: rest.
Proof.
  intros Hpre H1 H2 B E.
  replace (withNewlines pre ++ (l1 ++ [LF] ++ l2 ++ [LF]) ++ withNewlines post)
    with ((withNewlines pre ++ l1 ++ [LF]) ++ l2 ++ LF :: withNewlines post)
    by (rewrite <- !app_assoc; done).
  destruct (trimEnd_after_line (withNewlines pre ++ l1 ++ [LF]) l2
              (withNewlines post) B E) as (t' & -> & Ht').
  rewrite <- !app_assoc. rewrite split_on_withNewlines by done.
  cbn [app]. rewrite split_on_line by done.
  destruct Ht' as [->|(r & ->)].
  - exists []. rewrite app_nil_r. by rewrite split_on_free.
  - exists (split_on LF r). by rewrite split_on_line.
Qed.

Lemma findLine_spec cl ls n i line :
  findLine cl ls n = Some (i, line) →
  n ≤ i ∧ ls !! (i - n) = Some line ∧ trim line = trim cl
  ∧ ∀ j l, j < i - n → ls !! j = Some l → trim l ≠ trim cl.
Proof.
  revert n. induction ls as [|l ls IH]; intros n; [done|].
  cbn [findLine]. unfold eqs. case_bool_decide as Hl.
  - intros [= <- <-]. rewrite Nat.sub_diag. repeat split; [lia|done|].
    intros j l' Hj. lia.
  - intros H. destruct (IH _ H) as (H1 & H2 & H3 & H4).
    split; [lia|]. split.
    { replace (i - n) with (S (i - S n)) by lia. done. }
    split; [done|]. intros j l' Hj Hl'.
    destruct j as [|j]; [by injection Hl' as <-|].
    apply (H4 j); [lia|done].
Qed.

Lemma takeWhile_elem p s c : c ∈ takeWhile p s → c ∈ s.
Proof. rewrite <- (takeWhile_dropWhile p s) at 2. set_solver. Qed.

(** The three groups of the list pattern are consecutive parts of the
    line. *)
Lemma parseListLine_parts line indent marker content :
  parseListLine line = Some (indent, marker, content) →
  ∃ tail, line = indent ++ marker ++ content ++ tail.
Proof.
  unfold parseListLine. destruct (match_marker _ _) as [n|]; [|done].
  intros [= <- <- <-].
  exists (dropWhile (λ c, negb (is_line_terminator c))
            (drop n (dropWhile is_space line))).
  by rewrite takeWhile_dropWhile, take_drop, takeWhile_dropWhile.
Qed.

Lemma isPrefix_app s t : isPrefix s (s ++ t) = true.
Proof. induction s as [|c s IH]; [done|]. simpl. by rewrite N.eqb_refl. Qed.

Lemma indexOfFrom_prefix needle s i :
  isPrefix needle s = true → indexOfFrom needle s i = i.
Proof. intros H. destruct s; simpl; by rewrite H. Qed.

(** [indexOf] finds the first occurrence: it is never after a known one. *)
Lemma indexOfFrom_le needle p q i :
  (i ≤ indexOfFrom needle (p ++ needle ++ q) i ≤ i + Z.of_nat (length p))%Z.
Proof.
  revert i. induction p as [|c p IH]; intros i.
  - cbn [app]. rewrite indexOfFrom_prefix by apply isPrefix_app. simpl. lia.
  - cbn [app indexOfFrom].
    destruct (isPrefix needle (c :: p ++ needle ++ q)).
    + cbn [length]. lia.
    + specialize (IH (i + 1)%Z). cbn [length]. lia.
Qed.

Lemma trim_parts s :
  ∃ trail, s = takeWhile is_space s ++ trim s ++ trail.
Proof.
  destruct (trimEnd_decomp (trimStart s)) as (t & E & _). exists t.
  fold (trim s) in E. rewrite <- E. unfold trimStart.
  by rewrite takeWhile_dropWhile.
Qed.

End ListEnterFacts.

(** ** List continuation and list item split *)

Lemma nbsp_free : LF ∉ nbsp.
Proof. compute_done. Qed.

Section ListEnterClaims.
Context (shortid : nat → string).
Implicit Types (st : State) (ev : KeyEvent) (id : string).

Lemma handleKeyDown_list_enter st ev id row :
  key ev = Enter → shiftKey ev = false → target ev = Some id →
  isListBlock (blockMarkdown ev) = true → dataLine ev = Some row →
  handleKeyDown shortid st ev
  = match listEnter (blockMarkdown ev) (rangeStartOffset ev) row with
    | None => unchanged st ListEnterAbort true
    | Some (newMarkdown, currentLineIndex, marker) =>
        {| next := {| doc := <[id := newMarkdown]> (doc st);
                      allLines := allLines st;
                      editingBlockIds := editingBlockIds st;
                      generated := generated st |};
           branch := ListEnter;
           defaultPrevented := true;
           caret := Some (id, InLine (S currentLineIndex)
                                (Z.of_nat (length marker) + 1)) |}
    end.
Proof.
  intros Hk Hs Ht Hl Hd. unfold handleKeyDown, handleListEnter.
  by rewrite Ht, Hk, Hs, Hl, Hd.
Qed.

(** The offset that the source takes for the start of the content is never
    after the true one. *)
Lemma indexOf_content line indent marker content :
  parseListLine line = Some (indent, marker, content) →
  (0 ≤ indexOf line (trim content) ≤ contentOffset indent marker content)%Z.
Proof.
  intros (tail & E)%parseListLine_parts.
  destruct (trim_parts content) as (trail & Ec).
  assert (line = (indent ++ marker ++ takeWhile is_space content)
                 ++ trim content ++ (trail ++ tail)) as ->.
  { rewrite E. rewrite Ec at 1. by rewrite <- !app_assoc. }
  pose proof (indexOfFrom_le (trim content)
                (indent ++ marker ++ takeWhile is_space content)
                (trail ++ tail) 0) as H.
  unfold indexOf, contentOffset. rewrite !length_app in H. lia.
Qed.

Lemma line_groups_free line indent marker content lines i row :
  findLine row lines 0 = Some (i, line) →
  Forall (λ l, LF ∉ l) lines →
  parseListLine line = Some (indent, marker, content) →
  (LF ∉ line) ∧ (LF ∉ indent) ∧ (LF ∉ marker) ∧ (LF ∉ content).
Proof.
  intros (_ & Hi & _)%findLine_spec Hfree (tail & E)%parseListLine_parts.
  assert (LF ∉ line) as Hl.
  { eapply Forall_forall in Hfree; [done|]. by eapply list_elem_of_lookup_2. }
  split; [done|]. rewrite E in Hl. set_solver.
Qed.

(** C3, amended.  Enter in a list block, with the caret at or past the end
    of the trimmed content of the current line (the first line that equals,
    trimmed, the row under the caret): the block keeps its id and gets a
    text whose lines are the lines before the current one, the current line
    unchanged, a new line made of the same indent, the same marker and the
    placeholder [&nbsp;], then what is left of the lines after. *)
Theorem list_enter_continues_list st ev id (row line indent marker content
    : jsstring) (i : nat) :
  key ev = Enter → shiftKey ev = false → target ev = Some id →
  isListBlock (blockMarkdown ev) = true →
  dataLine ev = Some row →
  findLine row (split_on LF (blockMarkdown ev)) 0 = Some (i, line) →
  parseListLine line = Some (indent, marker, content) →
  (contentOffset indent marker content + Z.of_nat (length (trim content))
   ≤ rangeStartOffset ev)%Z →
  ∃ newMarkdown rest,
    branch (handleKeyDown shortid st ev) = ListEnter
    ∧ doc (next (handleKeyDown shortid st ev)) = <[id := newMarkdown]> (doc st)
    ∧ allLines (next (handleKeyDown shortid st ev)) = allLines st
    ∧ split_on LF newMarkdown
      = take i (split_on LF (blockMarkdown ev))
        ++ line :: (indent ++ marker ++ nbsp) :: rest.
Proof.
  intros Hk Hs Ht Hl Hd Hfind Hparse Hend.
  rewrite (handleKeyDown_list_enter st ev id row) by done.
  unfold listEnter. rewrite Hfind, Hparse.
  pose proof (indexOf_content _ _ _ _ Hparse) as Hidx.
  assert ((Z.of_nat (length (trim content))
           <=? rangeStartOffset ev - indexOf line (trim content))%Z = true)
    as -> by (apply Z.leb_le; lia).
  pose proof (split_on_free_lines LF (blockMarkdown ev)) as Hfree.
  destruct (line_groups_free _ _ _ _ _ _ _ Hfind Hfree Hparse)
    as (F1 & F2 & F3 & F4).
  destruct (lines_after_rewrite (take i (split_on LF (blockMarkdown ev)))
              line (indent ++ marker ++ nbsp)
              (drop (S i) (split_on LF (blockMarkdown ev)))) as (rest & Hrest).
  - by apply Forall_take.
  - done.
  - pose proof nbsp_free. set_solver.
  - rewrite !blank_app. change (blank nbsp) with false.
    by rewrite !andb_false_r.
  - rewrite app_assoc. by rewrite trimEnd_app_nonblank.
  - eexists _, rest. cbn [next branch doc allLines].
    split; [done|]. split; [done|]. split; [done|].
    rewrite <- Hrest. by rewrite <- !app_assoc.
Qed.

Lemma trimEnd_drop s (k : nat) :
  trimEnd s = s → k < length s →
  blank (drop k s) = false ∧ trimEnd (drop k s) = drop k s.
Proof.
  intros E Hk.
  assert (blank (drop k s) = false) as B.
  { destruct (blank (drop k s)) eqn:B; [|done].
    pose proof (trimEnd_length (take k s)) as Hlen.
    rewrite <- (take_drop k s) in E at 1.
    rewrite trimEnd_app_blank in E by done.
    rewrite E, length_take in Hlen. lia. }
  split; [done|].
  rewrite <- (take_drop k s) in E at 1.
  rewrite trimEnd_app_nonblank in E by done.
  rewrite <- (take_drop k s) in E at 3. by apply app_inv_head in E.
Qed.

(** C4, amended.  Enter in a list block with the caret [k] characters into
    the trimmed content of the current line (the first line that equals,
    trimmed, the row under the caret), [k] less than the length of that
    content, when the content does not occur in the line before its own
    place: the block keeps its id, no id is drawn and the ordering sequence
    is unchanged; the new text has the lines before, two lines that repeat
    the indent and the marker, one with the first [k] characters of the
    content and one with the others, then what is left of the lines
    after. *)
Theorem list_enter_splits_item st ev id (row line indent marker content
    : jsstring) (i k : nat) :
  key ev = Enter → shiftKey ev = false → target ev = Some id →
  isListBlock (blockMarkdown ev) = true →
  dataLine ev = Some row →
  findLine row (split_on LF (blockMarkdown ev)) 0 = Some (i, line) →
  parseListLine line = Some (indent, marker, content) →
  indexOf line (trim content) = contentOffset indent marker content →
  rangeStartOffset ev = (contentOffset indent marker content + Z.of_nat k)%Z →
  k < length (trim content) →
  ∃ newMarkdown rest,
    branch (handleKeyDown shortid st ev) = ListEnter
    ∧ doc (next (handleKeyDown shortid st ev)) = <[id := newMarkdown]> (doc st)
    ∧ allLines (next (handleKeyDown shortid st ev)) = allLines st
    ∧ generated (next (handleKeyDown shortid st ev)) = generated st
    ∧ split_on LF newMarkdown
      = take i (split_on LF (blockMarkdown ev))
        ++ (indent ++ marker ++ take k (trim content))
        :: (indent ++ marker ++ drop k (trim content)) :: rest.
Proof.
  intros Hk Hs Ht Hl Hd Hfind Hparse Hidx Hpos Hlt.
  rewrite (handleKeyDown_list_enter st ev id row) by done.
  unfold listEnter. rewrite Hfind, Hparse, Hidx, Hpos.
  replace (contentOffset indent marker content + Z.of_nat k
           - contentOffset indent marker content)%Z with (Z.of_nat k) by lia.
  assert ((Z.of_nat (length (trim content)) <=? Z.of_nat k)%Z = false)
    as -> by (apply Z.leb_gt; lia).
  rewrite slice_take, sliceFrom_drop, Nat2Z.id by lia.
  pose proof (split_on_free_lines LF (blockMarkdown ev)) as Hfree.
  destruct (line_groups_free _ _ _ _ _ _ _ Hfind Hfree Hparse)
    as (F1 & F2 & F3 & F4).
  assert (LF ∉ trim content) as F5 by (by intros ?%trim_elem).
  destruct (trimEnd_drop (trim content) k (trimEnd_trim content) Hlt)
    as [B E].
  destruct (lines_after_rewrite (take i (split_on LF (blockMarkdown ev)))
              (indent ++ marker ++ take k (trim content))
              (indent ++ marker ++ drop k (trim content))
              (drop (S i) (split_on LF (blockMarkdown ev)))) as (rest & Hrest).
  - by apply Forall_take.
  - rewrite <- (take_drop k (trim content)) in F5. set_solver.
  - rewrite <- (take_drop k (trim content)) in F5. set_solver.
  - rewrite !blank_app, B. by rewrite !andb_false_r.
  - rewrite app_assoc. rewrite trimEnd_app_nonblank by done. by rewrite E.
  - eexists _, rest. cbn [next branch doc allLines generated].
    split; [done|]. split; [done|]. split; [done|]. split; [done|].
    rewrite <- Hrest. by rewrite <- !app_assoc.
Qed.

End ListEnterClaims.

(** C3, as stated, fails on its own example: the new line holds the
    placeholder [&nbsp;], six characters of text, after the marker; the lines
    are not [- a], [- b], [- ]. *)
Lemma list_continuation_has_placeholder :
  let text := str "- a" ++ [LF] ++ str "- b" in
  let o := handleKeyDown sampleIds (sampleStateWith text)
             (sampleListKey "b" text (str "- b") 3) in
  (split_on LF <$> doc (next o) !! "b"%string)
  = Some [str "- a"; str "- b"; str "- &nbsp;"]
  ∧ (split_on LF <$> doc (next o) !! "b"%string)
    ≠ Some [str "- a"; str "- b"; str "- "].
Proof. split; by vm_compute. Qed.

Lemma list_enter_continues_list_witness :
  let text := str "- a" ++ [LF] ++ str "  1. b  " ++ [LF] ++ str "- c" in
  let ev := sampleListKey "b" text (str "  1. b  ") 6 in
  let o := handleKeyDown sampleIds (sampleStateWith text) ev in
  findLine (str "  1. b  ") (split_on LF text) 0 = Some (1, str "  1. b  ")
  ∧ parseListLine (str "  1. b  ") = Some (str "  ", str "1. ", str "b  ")
  ∧ (contentOffset (str "  ") (str "1. ") (str "b  ")
     + Z.of_nat (length (trim (str "b  "))) ≤ rangeStartOffset ev)%Z
  ∧ doc (next o) !! "b"%string
    = Some (str "- a" ++ [LF] ++ str "  1. b  " ++ [LF] ++ str "  1. &nbsp;"
            ++ [LF] ++ str "- c")
  ∧ ∃ newMarkdown rest,
      branch o = ListEnter
      ∧ doc (next o) = <["b"%string := newMarkdown]> (doc (sampleStateWith text))
      ∧ allLines (next o) = allLines (sampleStateWith text)
      ∧ split_on LF newMarkdown
        = take 1 (split_on LF text)
          ++ str "  1. b  " :: (str "  " ++ str "1. " ++ nbsp) :: rest.
Proof.
  intros text ev o.
  assert (contentOffset (str "  ") (str "1. ") (str "b  ")
          + Z.of_nat (length (trim (str "b  "))) ≤ rangeStartOffset ev)%Z
    as H by (vm_compute; discriminate).
  split; [reflexivity|]. split; [reflexivity|]. split; [exact H|].
  split; [reflexivity|].
  exact (list_enter_continues_list sampleIds (sampleStateWith text) ev "b"
           (str "  1. b  ") (str "  1. b  ") (str "  ") (str "1. ")
           (str "b  ") 1 eq_refl eq_refl eq_refl eq_refl eq_refl eq_refl
           eq_refl H).
Defined.

(** The example of the design document for the split of an item: [- abcdef]
    with the caret between [abc] and [def]. *)
Example list_enter_splits_abcdef :
  let o := handleKeyDown sampleIds (sampleStateWith (str "- abcdef"))
             (sampleListKey "b" (str "- abcdef") (str "- abcdef") 5) in
  doc (next o) !! "b"%string = Some (str "- abc" ++ [LF] ++ str "- def")
  ∧ allLines (next o) = ["a"%string; "b"%string]
  ∧ generated (next o) = 0.
Proof. repeat split; by vm_compute. Qed.

(** C4, as stated, fails: the line that is split is the first one that
    equals, trimmed, the row under the caret.  With the caret between [a] and
    [b] of the last row of [- x], [  - ab], [- ab], it is the nested item
    that is split, and the row under the caret is left as it was. *)
Lemma list_enter_splits_other_line :
  let text := str "- x" ++ [LF] ++ str "  - ab" ++ [LF] ++ str "- ab" in
  let o := handleKeyDown sampleIds (sampleStateWith text)
             (sampleListKey "b" text (str "- ab") 3) in
  branch o = ListEnter
  ∧ (split_on LF <$> doc (next o) !! "b"%string)
    = Some [str "- x"; str "  - a"; str "  - b"; str "- ab"]
  ∧ (split_on LF <$> doc (next o) !! "b"%string)
    ≠ Some [str "- x"; str "  - ab"; str "- a"; str "- b"].
Proof. repeat split; by vm_compute. Qed.

Lemma list_enter_splits_item_witness :
  let text := str "- x" ++ [LF] ++ str "  - abcdef" in
  let row := str "  - abcdef" in
  let ev := sampleListKey "b" text row 7 in
  let o := handleKeyDown sampleIds (sampleStateWith text) ev in
  findLine row (split_on LF text) 0 = Some (1, row)
  ∧ parseListLine row = Some (str "  ", str "- ", str "abcdef")
  ∧ indexOf row (trim (str "abcdef"))
    = contentOffset (str "  ") (str "- ") (str "abcdef")
  ∧ rangeStartOffset ev
    = (contentOffset (str "  ") (str "- ") (str "abcdef") + Z.of_nat 3)%Z
  ∧ 3 < length (trim (str "abcdef"))
  ∧ (split_on LF <$> doc (next o) !! "b"%string)
    = Some [str "- x"; str "  - abc"; str "  - def"]
  ∧ ∃ newMarkdown rest,
      branch o = ListEnter
      ∧ doc (next o) = <["b"%string := newMarkdown]> (doc (sampleStateWith text))
      ∧ allLines (next o) = allLines (sampleStateWith text)
      ∧ generated (next o) = generated (sampleStateWith text)
      ∧ split_on LF newMarkdown
        = take 1 (split_on LF text)
          ++ (str "  " ++ str "- " ++ take 3 (trim (str "abcdef")))
          :: (str "  " ++ str "- " ++ drop 3 (trim (str "abcdef"))) :: rest.
Proof.
  intros text row ev o.
  assert (3 < length (trim (str "abcdef"))) as H by (vm_compute; lia).
  do 4 (split; [reflexivity|]). split; [exact H|]. split; [reflexivity|].
  exact (list_enter_splits_item sampleIds (sampleStateWith text) ev "b" row row
           (str "  ") (str "- ") (str "abcdef") 1 3 eq_refl eq_refl eq_refl
           eq_refl eq_refl eq_refl eq_refl eq_refl eq_refl H).
Defined.

(** The offset of the caret in the content.  On the line [* * *] the groups
    are an empty indent, the marker [* ] and the content [* *], which starts
    at offset 2.  With the caret at offset 3, one character into the
    content, the handler does not split the item: it measures the caret from
    offset 0, where the text of the content first occurs in the line, takes
    the caret to be at the end and adds an empty item. *)
Lemma list_enter_misses_split :
  let line := str "* * *" in
  let o := handleKeyDown sampleIds (sampleStateWith line)
             (sampleListKey "b" line line 3) in
  branch o = ListEnter
  ∧ parseListLine line = Some ([], str "* ", str "* *")
  ∧ contentOffset [] (str "* ") (str "* *") = 2%Z
  ∧ indexOf line (str "* *") = 0%Z
  ∧ (split_on LF <$> doc (next o) !! "b"%string)
    = Some [str "* * *"; str "* &nbsp;"]
  ∧ (split_on LF <$> doc (next o) !! "b"%string)
    ≠ Some [str "* *"; str "*  *"].
Proof. repeat split; by vm_compute. Qed.

(** The same on [- - - -] with the caret at offset 3: the item is split, but
    three characters into its content instead of one. *)
Example list_enter_splits_elsewhere :
  let line := str "- - - -" in
  let o := handleKeyDown sampleIds (sampleStateWith line)
             (sampleListKey "b" line line 3) in
  parseListLine line = Some ([], str "- ", str "- - -")
  ∧ (split_on LF <$> doc (next o) !! "b"%string)
    = Some [str "- - -"; str "-  -"]
  ∧ (split_on LF <$> doc (next o) !! "b"%string)
    ≠ Some [str "- -"; str "-  - -"].
Proof. repeat split; by vm_compute. Qed.

(** ** The inline-marker command *)

(** No element of the component carries the attribute that the commands
    look for: the blocks are given [id] and [class] only. *)
Lemma elementsAroundLine_block_id (st : State) (id : string) (line : jsstring) :
  owningBlockId (elementsAroundLine st id line) = None.
Proof. done. Qed.

(** Hence, on what the component draws, the two commands never change the
    document, whatever is selected. *)
Lemma inline_markers_find_no_block (st : State) (id : string)
    (line text : jsstring) (collapsed : bool) (first last : Z) :
  let sel := selectionIn (elementsAroundLine st id line) collapsed text
               first last in
  handleBold st (Some sel) = st ∧ handleItalic st (Some sel) = st.
Proof.
  intros sel. unfold handleBold, handleItalic, wrapSelection.
  cbn [sel selectionIn isCollapsed owner].
  rewrite elementsAroundLine_block_id. by destruct collapsed.
Qed.

(** C9.  Bold on a selection that is not collapsed, inside a block of the
    document, is meant to put [**] around the selected text.  On the block
    [b] with the text [bar baz], drawn in edit mode, with [bar] selected
    (offsets 0 to 3 of the text of its only line), the lookup of the
    owning block finds nothing and the document is left as it was: the
    text of [b] does not become [**bar** baz]. *)
Theorem bold_finds_no_block :
  let sel := selectionIn (elementsAroundLine sampleState "b" (str "bar baz"))
               false (str "bar") 0 3 in
  doc sampleState !! "b"%string = Some (str "bar baz")
  ∧ "b"%string ∈ editingBlockIds sampleState
  ∧ owner sel = None
  ∧ handleBold sampleState (Some sel) = sampleState
  ∧ doc (handleBold sampleState (Some sel)) !! "b"%string
    ≠ Some (str "**bar** baz").
Proof.
  intros sel. split; [reflexivity|]. split; [compute_done|].
  split; [reflexivity|]. split; [reflexivity|]. by vm_compute.
Qed.

(** The body of the command past the lookup of the block.  For a selection
    that is not collapsed, with a text that is not empty, and a block id
    with a stored text that is not empty, Bold stores in that block its
    text up to the start offset, [**], the selected text, [**], and its
    text from the end offset on; nothing else changes.  Bold does nothing
    when there is no selection, when it is collapsed, when no block id is
    found, when the block has no text or an empty one, and when the
    selected text is empty. *)
Lemma handleBold_past_lookup (st : State) (sel : Selection) :
  (∀ id content,
     isCollapsed sel = false → owner sel = Some id → id ≠ EmptyString →
     doc st !! id = Some content → content ≠ [] → selectedText sel ≠ [] →
     (0 ≤ startOffset sel)%Z → (0 ≤ endOffset sel)%Z →
     handleBold st (Some sel)
     = {| doc := <[id := take (Z.to_nat (startOffset sel)) content
                        ++ str "**" ++ selectedText sel ++ str "**"
                        ++ drop (Z.to_nat (endOffset sel)) content]> (doc st);
          allLines := allLines st;
          editingBlockIds := editingBlockIds st;
          generated := generated st |})
  ∧ (isCollapsed sel = true ∨ owner sel = None
     ∨ (∃ id, owner sel = Some id
              ∧ (doc st !! id = None ∨ doc st !! id = Some []))
     ∨ selectedText sel = [] →
     handleBold st (Some sel) = st)
  ∧ handleBold st None = st.
Proof.
  split; [|split; [|done]].
  - intros id content Hc Ho Hid Hd Hne Hsel Hs He.
    unfold handleBold, wrapSelection. rewrite Hc, Ho, Hd.
    rewrite bool_decide_eq_false_2 by done.
    destruct content as [|c content]; [done|].
    destruct (selectedText sel) as [|a t] eqn:Et; [done|]. cbn [truthy negb].
    by rewrite slice_take, sliceFrom_drop.
  - unfold handleBold, wrapSelection.
    intros [->|[->|[(id & -> & [->| ->])|Hsel]]]; try done.
    + by destruct (isCollapsed sel).
    + destruct (isCollapsed sel); [done|]. by case_bool_decide.
    + destruct (isCollapsed sel); [done|]. by case_bool_decide.
    + destruct (isCollapsed sel); [done|]. destruct (owner sel) as [id|]; [|done].
      case_bool_decide; [done|]. destruct (doc st !! id) as [content|]; [|done].
      destruct (negb (truthy content)); [done|]. by rewrite Hsel.
Qed.

(** The offsets of the splice are those of the range, which count from the
    start of the text node that holds the selection, not from the start of
    the text of the block.  Were the block id found, Bold on [three] in the
    second line of a block with the lines [one] and [two three] (offsets 4
    to 9 of the text of that line) would store [one], a line break and
    [**three**hree]. *)
Lemma bold_splices_at_node_offsets :
  let text := str "one" ++ [LF] ++ str "two three" in
  let sel := {| isCollapsed := false; owner := Some "b"%string;
                selectedText := str "three"; startOffset := 4;
                endOffset := 9 |} in
  doc (handleBold (sampleStateWith text) (Some sel)) !! "b"%string
  = Some (str "one" ++ [LF] ++ str "**three**hree")
  ∧ doc (handleBold (sampleStateWith text) (Some sel)) !! "b"%string
    ≠ Some (str "one" ++ [LF] ++ str "two **three**").
Proof. split; [reflexivity|by vm_compute]. Qed.

(** * Further properties of the source *)

(** ** What the segmenter keeps *)

Section SegmenterContent.
Implicit Types (s t buf line : jsstring) (ls bs : list jsstring).

Lemma nonSpace_app s t : nonSpace (s ++ t) = nonSpace s ++ nonSpace t.
Proof. apply filter_app. Qed.

Lemma nonSpace_cons_space c s : is_space c = true → nonSpace (c :: s) = nonSpace s.
Proof. intros H. unfold nonSpace. rewrite filter_cons_False; [done|]. by rewrite H. Qed.

Lemma nonSpace_cons_other c s :
  is_space c = false → nonSpace (c :: s) = c :: nonSpace s.
Proof. intros H. unfold nonSpace. by rewrite filter_cons_True. Qed.

Lemma nonSpace_nil s : nonSpace s = [] ↔ blank s = true.
Proof.
  induction s as [|c s IH]; [done|]. destruct (is_space c) eqn:E.
  - rewrite nonSpace_cons_space by done. simpl. by rewrite E.
  - rewrite nonSpace_cons_other by done. simpl. rewrite E. split; discriminate.
Qed.

Lemma nonSpace_trimStart s : nonSpace (trimStart s) = nonSpace s.
Proof.
  unfold trimStart. induction s as [|c s IH]; [done|]. simpl.
  destruct (is_space c) eqn:E; [|done]. by rewrite nonSpace_cons_space.
Qed.

Lemma nonSpace_trimEnd s : nonSpace (trimEnd s) = nonSpace s.
Proof.
  destruct (trimEnd_decomp s) as (t & E & B). rewrite E at 2.
  rewrite nonSpace_app. apply nonSpace_nil in B. by rewrite B, app_nil_r.
Qed.

Lemma nonSpace_trim s : nonSpace (trim s) = nonSpace s.
Proof. unfold trim. by rewrite nonSpace_trimEnd, nonSpace_trimStart. Qed.

Lemma nonSpace_normalizeNewlines s : nonSpace (normalizeNewlines s) = nonSpace s.
Proof.
  induction s as [s IH] using (induction_ltof1 _ length). unfold ltof in IH.
  destruct s as [|c r]; [done|]. cbn [normalizeNewlines].
  destruct (c =? CR)%N eqn:E.
  - apply N.eqb_eq in E as ->.
    rewrite !nonSpace_cons_space by done.
    destruct r as [|d r']; [done|]. destruct (d =? LF)%N eqn:E'.
    + apply N.eqb_eq in E' as ->. rewrite nonSpace_cons_space by done.
      apply IH. simpl. lia.
    + apply IH. simpl. lia.
  - destruct (is_space c) eqn:Ec.
    + rewrite !nonSpace_cons_space by done. apply IH. simpl. lia.
    + rewrite !nonSpace_cons_other by done. f_equal. apply IH. simpl. lia.
Qed.

Lemma nonSpace_joinWith ls : nonSpace (joinWith [LF] ls) = nonSpace (concat ls).
Proof.
  induction ls as [|l ls IH]; [done|]. destruct ls as [|l' ls].
  - simpl. by rewrite app_nil_r.
  - rewrite joinWith_cons by done. cbn [concat]. rewrite !nonSpace_app, IH.
    change (nonSpace [LF]) with ([] : jsstring). cbn [concat app].
    by rewrite nonSpace_app.
Qed.

Lemma nonSpace_lines s : nonSpace (concat (split_on LF s)) = nonSpace s.
Proof. by rewrite <- nonSpace_joinWith, joinWith_split. Qed.

Lemma nonSpace_flush buf : nonSpace (concat (flush buf)) = nonSpace buf.
Proof.
  unfold flush. destruct (truthy (trim buf)) eqn:E.
  - simpl. by rewrite app_nil_r, nonSpace_trim.
  - rewrite truthy_trim in E. apply negb_false_iff in E.
    apply nonSpace_nil in E. by rewrite E.
Qed.

Lemma nonSpace_scan_line bs buf line :
  nonSpace (concat (scan_line (bs, buf) line).1 ++ (scan_line (bs, buf) line).2)
  = nonSpace (concat bs ++ buf ++ line).
Proof.
  destruct (is_heading line) eqn:H.
  - rewrite scan_line_heading by done. cbn [fst snd].
    rewrite !concat_app, !nonSpace_app, nonSpace_flush. simpl.
    by rewrite !app_nil_r, nonSpace_trim.
  - destruct (blank line) eqn:B.
    + rewrite scan_line_blank by done. cbn [fst snd].
      rewrite !concat_app, !nonSpace_app, nonSpace_flush.
      apply nonSpace_nil in B. rewrite B.
      destruct (truthy (trim buf)) eqn:E; [by rewrite <- app_assoc|].
      rewrite truthy_trim in E. apply negb_false_iff in E.
      apply nonSpace_nil in E. by rewrite E, !app_nil_r.
    + rewrite scan_line_text by done. cbn [fst snd].
      rewrite !nonSpace_app. do 2 f_equal.
      destruct (truthy buf); [|done]. rewrite nonSpace_app.
      change (nonSpace [LF]) with ([] : jsstring). by rewrite app_nil_r.
Qed.

Lemma nonSpace_scan_lines st ls :
  nonSpace (concat (scan_lines st ls).1 ++ (scan_lines st ls).2)
  = nonSpace (concat st.1 ++ st.2 ++ concat ls).
Proof.
  revert st. induction ls as [|l ls IH]; intros [bs buf].
  - simpl. by rewrite app_nil_r.
  - rewrite scan_lines_cons, IH. destruct (scan_line (bs, buf) l) as [bs' buf'] eqn:E.
    cbn [fst snd concat]. rewrite app_assoc, nonSpace_app.
    change bs' with (bs', buf').1. change buf' with (bs', buf').2 at 2.
    rewrite <- E, nonSpace_scan_line. rewrite <- nonSpace_app.
    by rewrite <- !app_assoc.
Qed.

Lemma concat_filter_truthy bs :
  concat (filter (λ b, truthy b = true) bs) = concat bs.
Proof.
  induction bs as [|b bs IH]; [done|]. destruct b as [|c b].
  - by rewrite filter_cons_False.
  - rewrite filter_cons_True by done. simpl. by rewrite IH.
Qed.

Lemma nonSpace_blocks_of_lines ls :
  nonSpace (concat (blocks_of_lines ls)) = nonSpace (concat ls).
Proof.
  unfold blocks_of_lines.
  pose proof (nonSpace_scan_lines ([], []) ls) as H. simpl in H.
  destruct (scan_lines ([], []) ls) as [bs buf]. cbn [fst snd] in H.
  rewrite scan_finish_flush, concat_filter_truthy, concat_app, nonSpace_app.
  by rewrite nonSpace_flush, <- nonSpace_app.
Qed.

(** X1.  Segmentation loses no visible character: the characters of the
    blocks that are no white space are, in order, those of the text. *)
Theorem splitIntoBlocks_keeps_content (text : jsstring) :
  nonSpace (concat (splitIntoBlocks text)) = nonSpace text.
Proof.
  unfold splitIntoBlocks.
  by rewrite nonSpace_blocks_of_lines, nonSpace_lines, nonSpace_normalizeNewlines.
Qed.

Lemma emitted_wellformed b :
  emitted b →
  b ≠ [] ∧ trim b = b ∧ (CR ∉ b)
  ∧ Forall (λ l, blank l = false) (split_on LF b).
Proof.
  assert (∀ l, blank l = false → LF ∉ l → CR ∉ l →
            trim l ≠ [] ∧ trim (trim l) = trim l ∧ (CR ∉ trim l)
            ∧ Forall (λ l, blank l = false) (split_on LF (trim l))) as Hone.
  { intros l B HLF HCR. split; [intros E%trim_nil; congruence|].
    split; [apply trim_idem|]. split; [by intros ?%trim_elem|].
    rewrite split_on_free by (by intros ?%trim_elem).
    apply Forall_singleton. by rewrite blank_trim. }
  intros [(h & Hh & HLF & HCR & ->)|(ls & Hne & Hls & ->)].
  - apply Hone; [by apply is_heading_nonblank|done..].
  - destruct ls as [|l1 r]; [done|].
    inversion Hls as [|?? (H1 & B1 & LF1 & CR1) Hr]; subst.
    destruct r as [|ln mid _] using rev_ind; [by apply Hone|].
    apply Forall_app in Hr as [Hmid Hln].
    inversion Hln as [|?? (Hn & Bn & LFn & CRn) _]; subst.
    assert (blank (joinWith [LF] (l1 :: mid ++ [ln])) = false) as B
      by (by apply text_lines_nonblank).
    split; [intros E%trim_nil; congruence|]. split; [apply trim_idem|].
    split.
    { intros [?|(l & Hl & Hc)]%trim_elem%joinWith_elem; [set_solver|].
      eapply Forall_forall in Hls; [|done]. by destruct Hls as (_ & _ & _ & ?). }
    rewrite trim_joined by done. rewrite split_on_join; [|done|].
    + constructor; [by rewrite blank_trimStart|]. apply Forall_app. split.
      * eapply Forall_impl; [exact Hmid|]. by intros l (_ & ? & _).
      * apply Forall_singleton. by rewrite blank_trimEnd.
    + constructor; [by intros ?%dropWhile_elem|]. apply Forall_app. split.
      * eapply Forall_impl; [exact Hmid|]. by intros l (_ & _ & ? & _).
      * apply Forall_singleton. by intros ?%trimEnd_elem.
Qed.

(** X2.  Every block that the segmenter gives is a text that is not empty,
    has no white space at either end, holds no carriage return and has no
    blank line. *)
Theorem splitIntoBlocks_blocks_are_trimmed (text : jsstring) :
  Forall (λ b, b ≠ [] ∧ trim b = b ∧ (CR ∉ b)
               ∧ Forall (λ l, blank l = false) (split_on LF b))
    (splitIntoBlocks text).
Proof.
  eapply Forall_impl; [apply splitIntoBlocks_emitted|].
  intros b. apply emitted_wellformed.
Qed.

(** X3.  The segmenter gives no block exactly for the texts made of white
    space only, the empty text among them. *)
Theorem splitIntoBlocks_nil_iff_blank (text : jsstring) :
  splitIntoBlocks text = [] ↔ blank text = true.
Proof.
  assert (nonSpace (concat (splitIntoBlocks text)) = nonSpace text) as Hkeep.
  { unfold splitIntoBlocks.
    by rewrite nonSpace_blocks_of_lines, nonSpace_lines,
      nonSpace_normalizeNewlines. }
  split.
  - intros E. rewrite E in Hkeep. by apply nonSpace_nil.
  - intros B. apply nonSpace_nil in B. rewrite B in Hkeep.
    pose proof (splitIntoBlocks_emitted text) as He.
    destruct (splitIntoBlocks text) as [|b bs]; [done|].
    inversion He as [|?? Hb _]; subst.
    apply emitted_wellformed in Hb as (Hne & Ht & _).
    cbn [concat] in Hkeep. rewrite nonSpace_app in Hkeep.
    apply app_eq_nil in Hkeep as [Hb _]. apply nonSpace_nil, trim_nil in Hb.
    congruence.
Qed.

(** The buffer of the loop is empty or holds a character that is no white
    space. *)
Lemma scan_lines_buffer st ls :
  (st.2 = [] ∨ blank st.2 = false) →
  (scan_lines st ls).2 = [] ∨ blank (scan_lines st ls).2 = false.
Proof.
  revert st. induction ls as [|l ls IH]; intros [bs buf] H; [done|].
  rewrite scan_lines_cons. apply IH. cbn [snd] in H.
  destruct (is_heading l) eqn:Hh.
  - rewrite scan_line_heading by done. by left.
  - destruct (blank l) eqn:B.
    + rewrite scan_line_blank by done. cbn [snd].
      destruct (truthy (trim buf)); [by left|done].
    + rewrite scan_line_text by done. cbn [snd]. right.
      by rewrite blank_app, B, andb_false_r.
Qed.

(** A blank line separates: the blocks of the lines before it and the blocks
    of the lines after it. *)
Lemma blocks_of_lines_blank ls1 w ls2 :
  blank w = true →
  blocks_of_lines (ls1 ++ w :: ls2) = blocks_of_lines ls1 ++ blocks_of_lines ls2.
Proof.
  intros B. unfold blocks_of_lines.
  assert (is_heading w = false) as Hh.
  { destruct (is_heading w) eqn:E; [|done].
    apply is_heading_nonblank in E. congruence. }
  rewrite scan_lines_app, scan_lines_cons.
  pose proof (scan_lines_buffer ([], []) ls1 (or_introl eq_refl)) as Hbuf.
  destruct (scan_lines ([], []) ls1) as [b1 buf1]. cbn [snd] in Hbuf.
  rewrite scan_line_blank by done.
  assert ((if truthy (trim buf1) then [] else buf1) = []) as ->.
  { rewrite truthy_trim. destruct Hbuf as [-> | ->]; done. }
  rewrite scan_lines_blocks.
  destruct (scan_lines ([], []) ls2) as [b2 buf2]. cbn [fst snd].
  rewrite !scan_finish_flush, <- !app_assoc, !filter_app.
  by rewrite filter_flush, <- !app_assoc.
Qed.

Lemma normalizeNewlines_app s t :
  last s ≠ Some CR → normalizeNewlines (s ++ t) = normalizeNewlines s ++ normalizeNewlines t.
Proof.
  induction s as [s IH] using (induction_ltof1 _ length). unfold ltof in IH.
  destruct s as [|c r]; [done|]. intros Hlast. cbn [app normalizeNewlines].
  destruct (c =? CR)%N eqn:E.
  - apply N.eqb_eq in E as ->. destruct r as [|d r'].
    + by simpl in Hlast.
    + cbn [app]. destruct (d =? LF)%N eqn:E'.
      * destruct r' as [|e r'']; [apply N.eqb_eq in E' as ->; done|].
        cbn [app]. f_equal.
        apply (IH (e :: r'')); [simpl; lia|].
        by rewrite !last_cons_cons in Hlast.
      * cbn [app]. f_equal. apply (IH (d :: r')); [simpl; lia|].
        by rewrite last_cons_cons in Hlast.
  - cbn [app]. f_equal. destruct r as [|d r'].
    + done.
    + apply (IH (d :: r')); [simpl; lia|]. by rewrite last_cons_cons in Hlast.
Qed.

Lemma normalizeNewlines_CR_other d r :
  d ≠ LF → normalizeNewlines (CR :: d :: r) = LF :: normalizeNewlines (d :: r).
Proof. intros H%N.eqb_neq. simpl. by rewrite H. Qed.

Lemma normalizeNewlines_CRs n :
  normalizeNewlines (replicate n CR) = replicate n LF
  ∧ normalizeNewlines (replicate (S n) CR ++ [LF]) = replicate (S n) LF.
Proof.
  induction n as [|n [IH1 IH2]]; [done|]. split.
  - destruct n as [|n]; [done|].
    change (replicate (S (S n)) CR) with (CR :: CR :: replicate n CR).
    rewrite normalizeNewlines_CR_other by done.
    change (CR :: replicate n CR) with (replicate (S n) CR).
    by rewrite IH1.
  - change (replicate (S (S n)) CR ++ [LF])
      with (CR :: CR :: (replicate n CR ++ [LF])).
    rewrite normalizeNewlines_CR_other by done.
    change (CR :: replicate n CR ++ [LF]) with (replicate (S n) CR ++ [LF]).
    by rewrite IH2.
Qed.

Lemma trailing_CRs s :
  ∃ s1 n, s = s1 ++ replicate n CR ∧ last s1 ≠ Some CR.
Proof.
  induction s as [|c s IH] using rev_ind.
  - by exists [], 0.
  - destruct (decide (c = CR)) as [->|Hc].
    + destruct IH as (s1 & n & -> & H1). exists s1, (S n). split; [|done].
      rewrite <- app_assoc. f_equal.
      change [CR] with (replicate 1 CR). rewrite <- replicate_add.
      f_equal. lia.
    + exists (s ++ [c]), 0. rewrite app_nil_r. split; [done|].
      rewrite last_snoc. congruence.
Qed.

(** X4.  A blank line between two texts separates their blocks: the blocks
    of the whole are the blocks of the first text followed by the blocks of
    the second. *)
Theorem splitIntoBlocks_blank_line (text1 text2 : jsstring) :
  splitIntoBlocks (text1 ++ [LF; LF] ++ text2)
  = splitIntoBlocks text1 ++ splitIntoBlocks text2.
Proof.
  unfold splitIntoBlocks.
  destruct (trailing_CRs text1) as (s1 & n & -> & H1).
  assert (normalizeNewlines ((s1 ++ replicate n CR) ++ [LF; LF] ++ text2)
          = normalizeNewlines s1 ++ replicate n LF
            ++ (if decide (n = 0) then [LF] else []) ++ LF :: normalizeNewlines text2)
    as ->.
  { rewrite <- app_assoc, normalizeNewlines_app by done. f_equal.
    destruct n as [|n].
    - cbn [replicate app]. by destruct (decide (0 = 0)).
    - destruct (decide (S n = 0)) as [|_]; [done|].
      change (replicate (S n) CR ++ [LF; LF] ++ text2)
        with (replicate (S n) CR ++ [LF] ++ LF :: text2).
      rewrite app_assoc, normalizeNewlines_app.
      + by rewrite (proj2 (normalizeNewlines_CRs n)).
      + rewrite last_snoc. discriminate. }
  rewrite normalizeNewlines_app, (proj1 (normalizeNewlines_CRs n)) by done.
  destruct n as [|n].
  - cbn [replicate app]. rewrite !app_nil_r. destruct (decide (0 = 0)); [|done].
    cbn [app]. rewrite split_on_app.
    change (split_on LF (LF :: ?s)) with ([] :: split_on LF s).
    by apply blocks_of_lines_blank.
  - destruct (decide (S n = 0)) as [|_]; [done|]. cbn [app].
    set (X := normalizeNewlines s1 ++ replicate n LF).
    assert (normalizeNewlines s1 ++ replicate (S n) LF
              ++ LF :: normalizeNewlines text2
            = X ++ LF :: [] ++ LF :: normalizeNewlines text2) as ->.
    { unfold X. rewrite replicate_S_end, <- !app_assoc. done. }
    assert (normalizeNewlines s1 ++ replicate (S n) LF = X ++ LF :: []) as ->.
    { unfold X. by rewrite replicate_S_end, <- !app_assoc. }
    rewrite !split_on_app. cbn [split_on app].
    rewrite blocks_of_lines_blank by done.
    rewrite (blocks_of_lines_blank _ [] []) by done.
    by rewrite app_nil_r.
Qed.

End SegmenterContent.

(** ** Initialization and splits *)

Section DocumentFacts.
Context (shortid : nat → string).
Implicit Types (st : State) (id : string).

Lemma foldl_insert_assign (d : gmap string jsstring) (out : list string)
    (ids : list string) (bs : list jsstring) :
  foldl (λ docObj entry, <[entry.1 := entry.2]> docObj) d (zip ids bs)
  = (assignBlocks (d, out) ids bs).1.
Proof.
  unfold assignBlocks. revert d out.
  induction (zip ids bs) as [|e l IH]; intros d out; [done|]. simpl. apply IH.
Qed.

(** X5.  Initialization of an empty document from a text that is not empty,
    with ids from the generator that are distinct: the ordering sequence is
    one id per block of the text, the mapping holds the blocks under these
    ids, in order, and nothing else, and the document invariant holds. *)
Theorem initializeDocument_builds_document st (text : jsstring) :
  allLines st = [] → text ≠ [] →
  NoDup (shortid <$> seq (generated st) (length (splitIntoBlocks text))) →
  let st' := initializeDocument shortid st (Some text) in
  doc_ok st'
  ∧ allLines st'
    = shortid <$> seq (generated st) (length (splitIntoBlocks text))
  ∧ (λ j, doc st' !! j) <$> allLines st' = Some <$> splitIntoBlocks text
  ∧ editingBlockIds st' = editingBlockIds st.
Proof.
  intros Hempty Hne Hnd st'.
  set (blocks := splitIntoBlocks text) in *.
  set (ids := shortid <$> seq (generated st) (length blocks)) in *.
  assert (length ids = length blocks) as Hlen
    by (unfold ids; by rewrite length_fmap, length_seq).
  assert (st' = {| doc := (assignBlocks (∅, []) ids blocks).1;
                   allLines := ids;
                   editingBlockIds := editingBlockIds st;
                   generated := generated st + length blocks |}) as ->.
  { unfold st', initializeDocument. rewrite Hempty.
    destruct text as [|c text]; [done|]. cbn [length truthy andb bool_decide].
    rewrite bool_decide_eq_true_2 by done. cbv iota. fold blocks ids.
    f_equal.
    - apply foldl_insert_assign.
    - by apply fst_zip; lia. }
  cbn [doc allLines editingBlockIds]. split; [|split; [done|split; [|done]]].
  - split; cbn [doc allLines]; [done|].
    rewrite assignBlocks_dom by done. set_solver.
  - apply list_eq. intros n. rewrite !list_lookup_fmap.
    destruct (ids !! n) as [j|] eqn:Hj; cbn [fmap option_fmap option_map].
    + destruct (lookup_lt_is_Some_2 blocks n) as [b Hb].
      { apply lookup_lt_Some in Hj. lia. }
      rewrite Hb. cbn [fmap option_fmap option_map]. f_equal.
      by eapply assignBlocks_lookup.
    + apply lookup_ge_None in Hj. rewrite lookup_ge_None_2 by lia. done.
Qed.

End DocumentFacts.

Lemma initializeDocument_builds_document_witness :
  let st := {| doc := ∅; allLines := []; editingBlockIds := []; generated := 0 |} in
  let text := str "# a" ++ [LF] ++ str "foo" in
  let st' := initializeDocument sampleIds st (Some text) in
  allLines st = [] ∧ text ≠ []
  ∧ NoDup (sampleIds <$> seq (generated st) (length (splitIntoBlocks text)))
  ∧ doc_ok st'
  ∧ allLines st'
    = sampleIds <$> seq (generated st) (length (splitIntoBlocks text))
  ∧ (λ j, doc st' !! j) <$> allLines st' = Some <$> splitIntoBlocks text
  ∧ editingBlockIds st' = editingBlockIds st.
Proof.
  intros st text st'.
  assert (NoDup (sampleIds <$> seq (generated st)
                   (length (splitIntoBlocks text)))) as H by compute_done.
  split; [reflexivity|]. split; [done|]. split; [exact H|].
  exact (initializeDocument_builds_document sampleIds st text eq_refl
           ltac:(done) H).
Defined.

Section SplitContent.
Context (shortid : nat → string).
Implicit Types (st : State) (id : string).

Lemma slice_sliceFrom (s : jsstring) (k : Z) : slice s 0 k ++ sliceFrom s k = s.
Proof.
  unfold sliceFrom, slice.
  assert (0 ≤ Z.of_nat (length s))%Z as Hlen by lia.
  set (len := Z.of_nat (length s)) in *.
  assert (clampIndex len 0 = 0%Z) as ->
    by (unfold clampIndex; rewrite Z.ltb_irrefl; lia).
  assert (clampIndex len len = len) as ->.
  { unfold clampIndex. destruct (len <? 0)%Z eqn:E; [apply Z.ltb_lt in E|]; lia. }
  assert (0 ≤ clampIndex len k ≤ len)%Z as Hc.
  { unfold clampIndex. destruct (k <? 0)%Z eqn:E; [|apply Z.ltb_ge in E]; lia. }
  set (c := clampIndex len k) in *. clearbody c. subst len.
  rewrite Z.sub_0_r. change (drop (Z.to_nat 0) s) with s.
  rewrite (take_ge (drop _ _)) by (rewrite length_drop; lia).
  apply take_drop.
Qed.

Lemma orEmptyBlock_concat bs : concat (orEmptyBlock bs) = concat bs.
Proof. by destruct bs. Qed.

(** X6.  A split loses no visible character of the block: the ids put in
    place of the block are its own id followed by the ids drawn, and the
    texts stored under them hold, in order, the characters of the block
    text that are no white space. *)
Theorem handleBlockSplit_keeps_content st id (md : jsstring) (k : Z) :
  let st' := next (handleBlockSplit shortid st id md k) in
  let ids := id :: idsDrawn shortid st st' in
  NoDup ids →
  allLines st' = splice (allLines st) (arrayIndexOf (allLines st) id) 1 ids
  ∧ ∃ texts,
      (λ j, doc st' !! j) <$> ids = Some <$> texts
      ∧ nonSpace (concat texts) = nonSpace md.
Proof.
  intros st' ids. unfold ids, idsDrawn, st'.
  destruct (handleBlockSplit_next shortid st id md k) as [Hlen ->].
  cbn [generated allLines doc].
  set (bb := orEmptyBlock (splitIntoBlocks (slice md 0 k))) in *.
  set (ab := orEmptyBlock (splitIntoBlocks (sliceFrom md k))) in *.
  replace (generated st + (length bb - 1 + length ab) - generated st)
    with (length bb - 1 + length ab) by lia.
  set (l := id :: (shortid <$> seq (generated st) (length bb - 1 + length ab)))
    in *.
  intros Hnd. split; [done|]. exists (bb ++ ab). split.
  - apply list_eq. intros n. rewrite !list_lookup_fmap.
    destruct (l !! n) as [j|] eqn:Hj; cbn [fmap option_fmap option_map].
    + destruct (lookup_lt_is_Some_2 (bb ++ ab) n) as [b Hb].
      { apply lookup_lt_Some in Hj. rewrite length_app. lia. }
      rewrite Hb. cbn [fmap option_fmap option_map]. f_equal.
      by eapply assignBlocks_lookup.
    + apply lookup_ge_None in Hj.
      rewrite lookup_ge_None_2 by (rewrite length_app; lia). done.
  - unfold bb, ab, splitIntoBlocks.
    rewrite concat_app, nonSpace_app, !orEmptyBlock_concat.
    rewrite !nonSpace_blocks_of_lines, !nonSpace_lines,
      !nonSpace_normalizeNewlines.
    by rewrite <- nonSpace_app, slice_sliceFrom.
Qed.

End SplitContent.

Lemma handleBlockSplit_keeps_content_witness :
  let st' := next (handleBlockSplit sampleIds sampleState "b" (str "bar baz") 3) in
  let ids := "b"%string :: idsDrawn sampleIds sampleState st' in
  NoDup ids
  ∧ allLines st'
    = splice (allLines sampleState)
        (arrayIndexOf (allLines sampleState) "b"%string) 1 ids
  ∧ ∃ texts,
      (λ j, doc st' !! j) <$> ids = Some <$> texts
      ∧ nonSpace (concat texts) = nonSpace (str "bar baz").
Proof.
  intros st' ids.
  assert (NoDup ids) as H by compute_done.
  split; [exact H|].
  exact (handleBlockSplit_keeps_content sampleIds sampleState "b"
           (str "bar baz") 3 H).
Defined.

(** ** Every arm of the key handler *)

Section KeyFacts.
Context (shortid : nat → string).
Implicit Types (st : State) (ev : KeyEvent) (id : string).

Lemma doc_ok_insert st id (t : jsstring) :
  doc_ok st → id ∈ allLines st →
  doc_ok {| doc := <[id := t]> (doc st); allLines := allLines st;
            editingBlockIds := editingBlockIds st;
            generated := generated st |}.
Proof.
  intros [Hnd Hdom] Hid. split; cbn [allLines doc]; [done|].
  rewrite dom_insert_L, Hdom. set_solver.
Qed.

Lemma doc_ok_same_keys st st' :
  doc_ok st → allLines st' = allLines st → dom (doc st') = dom (doc st) →
  doc_ok st'.
Proof. intros [Hnd Hdom] Ha Hd. split; by rewrite ?Ha, ?Hd. Qed.

Lemma doc_ok_second_merge st id :
  doc_ok st → id ∈ allLines st → doc_ok (next (handleSecondMerge st id)).
Proof.
  intros Hok Hid.
  pose proof (doc_ok_merge st id Hok Hid) as H.
  unfold handleBackwardMerge in H. unfold handleSecondMerge.
  destruct (0 <? _)%Z; [|done]. destruct (at_index _ _) as [prevId|]; [|done].
  cbv zeta in H |- *. apply (doc_ok_same_keys _ _ H).
  - by destruct (isListText _ && isListText _).
  - destruct (isListText _ && isListText _); cbn [next mergeInto doc];
      by rewrite !dom_delete_L, !dom_insert_L.
Qed.

Lemma idsDrawn_same st st' :
  generated st' = generated st → idsDrawn shortid st st' = [].
Proof. intros E. unfold idsDrawn. by rewrite E, Nat.sub_diag. Qed.

(** X7.  Every key event keeps the invariant of the document, whichever arm
    of the handler it takes, when the block of the caret is in the ordering
    sequence, the first block in edit focus (if any) is too, and the ids
    drawn are new and distinct. *)
Theorem handleKeyDown_keeps_invariant st ev :
  doc_ok st →
  (∀ id, target ev = Some id → id ∈ allLines st) →
  (∀ e, head (editingBlockIds st) = Some e → e ∈ allLines st) →
  NoDup (idsDrawn shortid st (next (handleKeyDown shortid st ev))
         ++ allLines st) →
  doc_ok (next (handleKeyDown shortid st ev)).
Proof.
  intros Hok Ht He. unfold handleKeyDown.
  destruct (target ev) as [id|]; [|done].
  specialize (Ht id eq_refl).
  destruct (bool_decide (key ev = Enter) && negb (shiftKey ev)).
  { destruct (isListBlock (blockMarkdown ev)).
    - intros _. unfold handleListEnter. destruct (dataLine ev) as [cl|]; [|done].
      destruct (listEnter _ _ _) as [[[??]?]|]; [|done].
      by apply doc_ok_insert.
    - intros Hfresh. by apply doc_ok_split. }
  intros _.
  destruct (bool_decide (key ev = Enter) && shiftKey ev).
  { unfold handleLiteralNewline. destruct (editingBlockIds st) as [|e r]; [done|].
    case_bool_decide; [done|]. apply doc_ok_insert; [done|]. by apply He. }
  destruct (firstMergeGuard ev); [by apply doc_ok_merge|].
  destruct ((bool_decide (key ev = Backspace) || bool_decide (key ev = Delete))
            && blockIsEmpty ev); [by apply doc_ok_delete|].
  destruct (secondMergeGuard ev); [|done].
  by apply doc_ok_second_merge.
Qed.

(** X8.  Shift+Enter adds its line break to the first block in edit focus,
    whichever block holds the caret, and to nothing else.  When that id is
    in the ordering sequence no more, the handler stores the text
    [undefined] and a line break under it, and the invariant is lost. *)
Theorem literal_newline_goes_to_edit_focus st ev id e rest :
  target ev = Some id → key ev = Enter → shiftKey ev = true →
  editingBlockIds st = e :: rest → e ≠ EmptyString →
  let out := handleKeyDown shortid st ev in
  doc (next out)
  = <[e := default (str "undefined") (doc st !! e) ++ [LF]]> (doc st)
  ∧ allLines (next out) = allLines st
  ∧ defaultPrevented out = true
  ∧ (id ≠ e → doc (next out) !! id = doc st !! id)
  ∧ (doc_ok st → e ∉ allLines st →
     doc (next out) !! e = Some (str "undefined" ++ [LF])
     ∧ ¬ doc_ok (next out)).
Proof.
  intros Ht Hk Hs He Hne out. unfold out, handleKeyDown.
  rewrite Ht, Hk, Hs. rewrite bool_decide_eq_true_2 by done.
  cbn [negb andb]. unfold handleLiteralNewline. rewrite He.
  rewrite bool_decide_eq_false_2 by done. cbn [next doc allLines defaultPrevented].
  split; [done|]. split; [done|]. split; [done|]. split.
  { intros Hid. by rewrite lookup_insert_ne. }
  intros [Hnd Hdom] Hnot.
  assert (doc st !! e = None) as Hnone.
  { apply not_elem_of_dom. rewrite Hdom. set_solver. }
  rewrite Hnone, lookup_insert_eq. split; [done|].
  intros [_ Hdom']. cbn [doc allLines] in Hdom'.
  apply Hnot. apply (elem_of_list_to_set (C := gset string)).
  rewrite <- Hdom', dom_insert_L. set_solver.
Qed.

Lemma arrayIndexOfFrom_absent l id z :
  id ∉ l → arrayIndexOfFrom id l z = (-1)%Z.
Proof.
  revert z. induction l as [|y r IH]; intros z Hr; cbn [arrayIndexOfFrom];
    [done|].
  apply not_elem_of_cons in Hr as [Hy Hr].
  rewrite bool_decide_eq_false_2 by done. by apply IH.
Qed.

Lemma arrayIndexOf_absent l id : id ∉ l → arrayIndexOf l id = (-1)%Z.
Proof. apply arrayIndexOfFrom_absent. Qed.

(** X9.  Backspace at the start of the first block of the document, or of a
    block that is in no position of the ordering sequence, does nothing and
    does not cancel the default action of the key, whether or not the block
    is empty: the arm for empty blocks is not reached. *)
Theorem backspace_at_start_of_first_block st ev id :
  target ev = Some id → key ev = Backspace → caretAtStart ev = true →
  head (allLines st) = Some id ∨ id ∉ allLines st →
  handleKeyDown shortid st ev = unchanged st BackwardMergeNone false.
Proof.
  intros Ht Hk Hc Hpos. unfold handleKeyDown, firstMergeGuard.
  rewrite Ht, Hk, Hc. cbn [andb].
  rewrite (bool_decide_eq_false_2 (Backspace = Enter)) by done.
  rewrite bool_decide_eq_true_2 by done. cbn [andb].
  unfold handleBackwardMerge.
  assert ((0 <? arrayIndexOf (allLines st) id)%Z = false) as ->; [|done].
  apply Z.ltb_ge. destruct Hpos as [Hh|Hn].
  - destruct (allLines st) as [|x r]; [done|]. injection Hh as ->.
    unfold arrayIndexOf. cbn [arrayIndexOfFrom].
    by rewrite bool_decide_eq_true_2.
  - rewrite arrayIndexOf_absent by done. lia.
Qed.

(** X10.  Backspace or Delete in an emptied block (Backspace with the caret
    not at the block start) removes the block from the ordering sequence
    and from the mapping, and moves the edit focus: to the start of the
    block that followed, or else to the end of the block that preceded, or
    nowhere when the document is left without any block, in which case the
    set of blocks in edit focus is left as it was. *)
Theorem delete_empty_moves_focus st ev id pre post :
  target ev = Some id → blockIsEmpty ev = true →
  key ev = Delete ∨ (key ev = Backspace ∧ caretAtStart ev = false) →
  allLines st = pre ++ id :: post → id ∉ pre →
  EmptyString ∉ allLines st →
  let out := handleKeyDown shortid st ev in
  allLines (next out) = pre ++ post
  ∧ doc (next out) = delete id (doc st)
  ∧ defaultPrevented out = true
  ∧ caret out = match post with
                | n :: _ => Some (n, AtStart)
                | [] => (λ p, (p, AtEnd)) <$> last pre
                end
  ∧ editingBlockIds (next out) = match caret out with
                                 | Some (f, _) => [f]
                                 | None => editingBlockIds st
                                 end.
Proof.
  intros Ht Hb Hk E Hpre Hempty out. unfold out, handleKeyDown. rewrite Ht.
  assert (bool_decide (key ev = Enter) = false) as ->
    by (apply bool_decide_eq_false_2; destruct Hk as [->|[-> _]]; done).
  assert (firstMergeGuard ev = false) as ->.
  { unfold firstMergeGuard. destruct Hk as [->|[-> ->]]; [|done].
    by rewrite bool_decide_eq_false_2. }
  assert (bool_decide (key ev = Backspace) || bool_decide (key ev = Delete)
          = true) as ->.
  { destruct Hk as [->|[-> _]]; [|done].
    rewrite (bool_decide_eq_true_2 (Delete = Delete)) by done.
    by rewrite orb_true_r. }
  rewrite Hb. cbn [andb]. unfold handleDeleteEmpty.
  cbn [next allLines doc defaultPrevented caret editingBlockIds].
  rewrite E, arrayIndexOf_app by done. rewrite (splice_middle pre [id] post).
  change (pre ++ [] ++ post) with (pre ++ post).
  rewrite E in Hempty.
  set (focus := match post with
                | n :: _ => Some (n, AtStart)
                | [] => (λ p, (p, AtEnd)) <$> last pre
                end).
  assert ((if (0 <? Z.of_nat (length (pre ++ post)))%Z
           then if (Z.of_nat (length pre) <? Z.of_nat (length (pre ++ post)))%Z
                then (λ f, (f, AtStart))
                     <$> at_index (pre ++ post) (Z.of_nat (length pre))
                else if (0 <=? Z.of_nat (length pre) - 1)%Z
                     then (λ f, (f, AtEnd))
                          <$> at_index (pre ++ post) (Z.of_nat (length pre) - 1)
                     else None
           else None) = focus) as ->.
  { unfold focus. destruct post as [|n post].
    - rewrite app_nil_r, Z.ltb_irrefl.
      destruct pre as [|p pre _] using rev_ind; [done|].
      rewrite last_snoc, length_app. cbn [length].
      assert ((0 <? Z.of_nat (length pre + 1))%Z = true) as ->
        by (apply Z.ltb_lt; lia).
      assert ((0 <=? Z.of_nat (length pre + 1) - 1)%Z = true) as ->
        by (apply Z.leb_le; lia).
      replace (Z.of_nat (length pre + 1) - 1)%Z with (Z.of_nat (length pre))
        by lia.
      by rewrite at_index_app.
    - rewrite at_index_app, length_app. cbn [length].
      assert ((0 <? Z.of_nat (length pre + S (length post)))%Z = true) as ->
        by (apply Z.ltb_lt; lia).
      assert ((Z.of_nat (length pre)
               <? Z.of_nat (length pre + S (length post)))%Z = true) as ->
        by (apply Z.ltb_lt; lia).
      done. }
  assert (match focus with
          | Some (f, c) =>
              if bool_decide (f = EmptyString) then None else Some (f, c)
          | None => None
          end = focus) as ->.
  { unfold focus. destruct post as [|n post].
    - destruct pre as [|p pre _] using rev_ind; [done|].
      rewrite last_snoc. cbn [fmap option_fmap option_map].
      rewrite bool_decide_eq_false_2; [done|]. set_solver.
    - rewrite bool_decide_eq_false_2; [done|]. set_solver. }
  split; [done|]. split; [done|]. split; [done|]. split; [done|].
  by destruct focus as [[f c]|].
Qed.

(** X11.  Enter in a list block is swallowed when the row of the caret is
    not one of its list lines: when the row carries no line text, or no line
    of the block equals it once both are trimmed, or the lines that do are
    no list lines, the document is unchanged and the default action of the
    key is cancelled all the same. *)
Theorem list_enter_swallowed st ev id :
  target ev = Some id → key ev = Enter → shiftKey ev = false →
  isListBlock (blockMarkdown ev) = true →
  (∀ row l, dataLine ev = Some row → l ∈ split_on LF (blockMarkdown ev) →
            trim l = trim row → parseListLine l = None) →
  handleKeyDown shortid st ev = unchanged st ListEnterAbort true.
Proof.
  intros Ht Hk Hs Hl Hrow. unfold handleKeyDown.
  rewrite Ht, Hk, Hs, Hl. rewrite bool_decide_eq_true_2 by done.
  cbn [negb andb]. unfold handleListEnter.
  destruct (dataLine ev) as [row|]; [|done].
  unfold listEnter.
  destruct (findLine row (split_on LF (blockMarkdown ev)) 0)
    as [[i line]|] eqn:F; [|done].
  apply findLine_spec in F as (_ & Hi & Htrim & _).
  rewrite (Hrow row line eq_refl); [done| |done].
  by eapply list_elem_of_lookup_2.
Qed.

(** X12.  The handler changes nothing behind the back of the browser: when
    it does not cancel the default action of the key, the document state is
    the one it found and no caret move is asked for. *)
Theorem handleKeyDown_default_kept_means_unchanged st ev :
  defaultPrevented (handleKeyDown shortid st ev) = false →
  next (handleKeyDown shortid st ev) = st
  ∧ caret (handleKeyDown shortid st ev) = None.
Proof.
  unfold handleKeyDown. destruct (target ev) as [id|]; [|done].
  destruct (bool_decide (key ev = Enter) && negb (shiftKey ev)).
  { destruct (isListBlock (blockMarkdown ev)); [|done].
    unfold handleListEnter. destruct (dataLine ev); [|done].
    by destruct (listEnter _ _ _) as [[[??]?]|]. }
  destruct (bool_decide (key ev = Enter) && shiftKey ev).
  { unfold handleLiteralNewline. destruct (editingBlockIds st); [done|].
    by case_bool_decide. }
  destruct (firstMergeGuard ev).
  { unfold handleBackwardMerge. destruct (0 <? _)%Z; [|done].
    destruct (at_index _ _); [|done]. cbv zeta.
    by destruct (isListText _ && isListText _). }
  destruct ((bool_decide (key ev = Backspace) || bool_decide (key ev = Delete))
            && blockIsEmpty ev); [done|].
  destruct (secondMergeGuard ev); [|done].
  unfold handleSecondMerge. destruct (0 <? _)%Z; [|done].
  by destruct (at_index _ _).
Qed.

Lemma splice_at_elem {A} (l : list A) (pre post items : list A) (x : A) :
  l = pre ++ x :: post →
  splice l (Z.of_nat (length pre)) 1 items = pre ++ items ++ post.
Proof. intros ->. apply (splice_middle pre [x] post). Qed.

Lemma merge_caret_in_lines st id prevId idx (pre post : list string) :
  allLines st = pre ++ id :: post → id ∉ pre →
  idx = arrayIndexOf (allLines st) id →
  at_index (allLines st) (idx - 1) = Some prevId → (0 <? idx)%Z = true →
  prevId ∈ splice (allLines st) idx 1 [].
Proof.
  intros E Hpre -> Hat Hpos. rewrite E in *.
  rewrite arrayIndexOf_app in * by done.
  rewrite (splice_middle pre [id] post). apply Z.ltb_lt in Hpos.
  unfold at_index in Hat.
  assert ((Z.of_nat (length pre) - 1 <? 0)%Z = false) as Hf
    by (apply Z.ltb_ge; lia).
  rewrite Hf in Hat. rewrite lookup_app_l in Hat by lia.
  apply list_elem_of_lookup_2 in Hat. set_solver.
Qed.

(** X13.  Whenever the handler asks for the caret to be put in a block,
    that block is in the ordering sequence of the new document. *)
Theorem handleKeyDown_caret_in_document st ev id f c :
  target ev = Some id → id ∈ allLines st →
  caret (handleKeyDown shortid st ev) = Some (f, c) →
  f ∈ allLines (next (handleKeyDown shortid st ev)).
Proof.
  intros Ht Hid. destruct (arrayIndexOf_elem _ _ Hid) as (pre & post & E & Hpre).
  unfold handleKeyDown. rewrite Ht.
  destruct (bool_decide (key ev = Enter) && negb (shiftKey ev)).
  { destruct (isListBlock (blockMarkdown ev)).
    - unfold handleListEnter. destruct (dataLine ev); [|done].
      destruct (listEnter _ _ _) as [[[??]?]|]; [|done].
      cbn [caret next allLines]. by intros [= <- _].
    - destruct (handleBlockSplit_next shortid st id (blockMarkdown ev)
                  (caretPos ev)) as [Hlen ->].
      unfold handleBlockSplit. cbn [caret allLines].
      rewrite E, arrayIndexOf_app by done.
      rewrite (splice_at_elem _ pre post _ id eq_refl).
      destruct (_ !! _) as [g|] eqn:G; [|done].
      cbn [fmap option_fmap option_map]. intros [= <- _].
      apply list_elem_of_lookup_2 in G. set_solver. }
  destruct (bool_decide (key ev = Enter) && shiftKey ev).
  { unfold handleLiteralNewline. destruct (editingBlockIds st); [done|].
    by case_bool_decide. }
  destruct (firstMergeGuard ev).
  { unfold handleBackwardMerge.
    destruct (0 <? _)%Z eqn:Hpos; [|done].
    destruct (at_index _ _) as [prevId|] eqn:Hat; [|done]. cbv zeta.
    assert (prevId ∈ splice (allLines st) (arrayIndexOf (allLines st) id) 1 [])
      by (by eapply merge_caret_in_lines).
    destruct (isListText _ && isListText _);
      cbn [mergeInto caret next allLines]; by intros [= <- _]. }
  destruct ((bool_decide (key ev = Backspace) || bool_decide (key ev = Delete))
            && blockIsEmpty ev).
  { unfold handleDeleteEmpty. cbn [caret next allLines].
    set (l := splice (allLines st) (arrayIndexOf (allLines st) id) 1 []).
    assert (∀ i g, at_index l i = Some g → g ∈ l) as Hin.
    { intros i g. unfold at_index. destruct (i <? 0)%Z; [done|].
      apply list_elem_of_lookup_2. }
    destruct (0 <? _)%Z; [|done].
    destruct (_ <? _)%Z.
    - destruct (at_index l _) as [g|] eqn:G; [|done].
      cbn [fmap option_fmap option_map]. case_bool_decide; [done|].
      intros [= <- _]. by eapply Hin.
    - destruct (0 <=? _)%Z; [|done].
      destruct (at_index l _) as [g|] eqn:G; [|done].
      cbn [fmap option_fmap option_map]. case_bool_decide; [done|].
      intros [= <- _]. by eapply Hin. }
  destruct (secondMergeGuard ev); [|done].
  unfold handleSecondMerge.
  destruct (0 <? _)%Z eqn:Hpos; [|done].
  destruct (at_index _ _) as [prevId|] eqn:Hat; [|done]. cbv zeta.
  cbn [mergeInto caret next allLines]. intros [= <- _].
  by eapply merge_caret_in_lines.
Qed.

(** X14.  Bold and Italic touch the text of one block at most: the ordering
    sequence, the set of blocks in edit focus, the count of ids drawn and
    the keys of the mapping are left as they were, as is the text of every
    block but the owner of the selection. *)
Theorem inline_markers_keep_structure (marker : jsstring) st
    (sel : option Selection) :
  let st' := wrapSelection marker st sel in
  allLines st' = allLines st
  ∧ editingBlockIds st' = editingBlockIds st
  ∧ generated st' = generated st
  ∧ dom (doc st') = dom (doc st)
  ∧ ∀ j, sel ≫= owner ≠ Some j → doc st' !! j = doc st !! j.
Proof.
  intros st'. unfold st', wrapSelection.
  destruct sel as [s|]; [|done].
  destruct (isCollapsed s); [done|].
  destruct (owner s) as [blockId|] eqn:Ho; [|done].
  case_bool_decide; [done|].
  destruct (doc st !! blockId) as [blockContent|] eqn:Hd; [|done].
  destruct (negb (truthy blockContent)); [done|].
  destruct (negb (truthy (selectedText s))); [done|].
  cbn [allLines editingBlockIds generated doc].
  split; [done|]. split; [done|]. split; [done|]. split.
  - rewrite dom_insert_L. apply elem_of_dom_2 in Hd. set_solver.
  - intros j Hj. rewrite lookup_insert_ne; [done|].
    intros ->. apply Hj. cbn. by rewrite Ho.
Qed.

End KeyFacts.

(** ** The key handler on sample documents *)

Lemma handleKeyDown_keeps_invariant_witness :
  let st := sampleStateWith (str "- a") in
  let ev := sampleListKey "b" (str "- a") (str "- a") 3 in
  doc_ok st
  ∧ (∀ id, target ev = Some id → id ∈ allLines st)
  ∧ (∀ e, head (editingBlockIds st) = Some e → e ∈ allLines st)
  ∧ NoDup (idsDrawn sampleIds st (next (handleKeyDown sampleIds st ev))
           ++ allLines st)
  ∧ branch (handleKeyDown sampleIds st ev) = ListEnter
  ∧ doc_ok (next (handleKeyDown sampleIds st ev)).
Proof.
  intros st ev.
  assert (doc_ok st) as H1 by (split; compute_done).
  assert (∀ id, target ev = Some id → id ∈ allLines st) as H2
    by (intros id [= <-]; compute_done).
  assert (∀ e, head (editingBlockIds st) = Some e → e ∈ allLines st) as H3
    by (intros e [= <-]; compute_done).
  assert (NoDup (idsDrawn sampleIds st (next (handleKeyDown sampleIds st ev))
                 ++ allLines st)) as H4 by compute_done.
  split; [exact H1|]. split; [exact H2|]. split; [exact H3|].
  split; [exact H4|]. split; [reflexivity|].
  exact (handleKeyDown_keeps_invariant sampleIds st ev H1 H2 H3 H4).
Defined.

Lemma literal_newline_goes_to_edit_focus_witness :
  let st := {| doc := doc sampleState; allLines := allLines sampleState;
               editingBlockIds := ["a"%string; "b"%string];
               generated := 0 |} in
  let ev := {| key := Enter; shiftKey := true; target := Some "b"%string;
               blockMarkdown := str "bar baz"; caretPos := 3;
               rangeStartOffset := 3; dataLine := None;
               caretAtStart := false; blockIsEmpty := false |} in
  let out := handleKeyDown sampleIds st ev in
  "a"%string ≠ EmptyString
  ∧ doc (next out) !! "a"%string = Some (str "foo" ++ [LF])
  ∧ doc (next out) !! "b"%string = Some (str "bar baz")
  ∧ doc (next out)
    = <[ "a"%string := default (str "undefined") (doc st !! "a"%string)
                       ++ [LF]]> (doc st)
  ∧ allLines (next out) = allLines st
  ∧ defaultPrevented out = true
  ∧ ("b"%string ≠ "a"%string
     → doc (next out) !! "b"%string = doc st !! "b"%string)
  ∧ (doc_ok st → "a"%string ∉ allLines st →
     doc (next out) !! "a"%string = Some (str "undefined" ++ [LF])
     ∧ ¬ doc_ok (next out)).
Proof.
  intros st ev out.
  assert ("a"%string ≠ EmptyString) as H by done.
  split; [exact H|]. split; [reflexivity|]. split; [reflexivity|].
  exact (literal_newline_goes_to_edit_focus sampleIds st ev "b" "a"
           ["b"%string] eq_refl eq_refl eq_refl eq_refl H).
Defined.

Lemma backspace_at_start_of_first_block_witness :
  let ev := {| key := Backspace; shiftKey := false; target := Some "a"%string;
               blockMarkdown := []; caretPos := 0; rangeStartOffset := 0;
               dataLine := None; caretAtStart := true;
               blockIsEmpty := true |} in
  (head (allLines sampleState) = Some "a"%string
   ∨ "a"%string ∉ allLines sampleState)
  ∧ handleKeyDown sampleIds sampleState ev
    = unchanged sampleState BackwardMergeNone false.
Proof.
  intros ev. split; [by left|].
  exact (backspace_at_start_of_first_block sampleIds sampleState ev "a"
           eq_refl eq_refl eq_refl (or_introl eq_refl)).
Defined.

Lemma delete_empty_moves_focus_witness :
  let ev := {| key := Delete; shiftKey := false; target := Some "b"%string;
               blockMarkdown := []; caretPos := 0; rangeStartOffset := 0;
               dataLine := None; caretAtStart := true;
               blockIsEmpty := true |} in
  let out := handleKeyDown sampleIds sampleState ev in
  ("b"%string ∉ ["a"%string])
  ∧ (EmptyString ∉ allLines sampleState)
  ∧ allLines (next out) = ["a"%string] ++ []
  ∧ doc (next out) = delete "b"%string (doc sampleState)
  ∧ defaultPrevented out = true
  ∧ caret out = (λ p, (p, AtEnd)) <$> last ["a"%string]
  ∧ editingBlockIds (next out) = match caret out with
                                 | Some (f, _) => [f]
                                 | None => editingBlockIds sampleState
                                 end.
Proof.
  intros ev out.
  assert ("b"%string ∉ ["a"%string]) as H1 by compute_done.
  assert (EmptyString ∉ allLines sampleState) as H2 by compute_done.
  split; [exact H1|]. split; [exact H2|].
  exact (delete_empty_moves_focus sampleIds sampleState ev "b" ["a"%string] []
           eq_refl eq_refl (or_introl eq_refl) eq_refl H1 H2).
Defined.

Lemma list_enter_swallowed_witness :
  let text := str "intro" ++ [LF] ++ str "- item" in
  let st := sampleStateWith text in
  let ev := sampleListKey "b" text (str "intro") 5 in
  isListBlock (blockMarkdown ev) = true
  ∧ (∀ row l, dataLine ev = Some row → l ∈ split_on LF (blockMarkdown ev) →
              trim l = trim row → parseListLine l = None)
  ∧ handleKeyDown sampleIds st ev = unchanged st ListEnterAbort true.
Proof.
  intros text st ev.
  assert (∀ row l, dataLine ev = Some row →
            l ∈ split_on LF (blockMarkdown ev) →
            trim l = trim row → parseListLine l = None) as H.
  { intros row l [= <-] Hl Ht.
    change (split_on LF (blockMarkdown ev)) with [str "intro"; str "- item"]
      in Hl.
    apply elem_of_cons in Hl as [->|Hl]; [reflexivity|].
    apply list_elem_of_singleton in Hl as ->. discriminate Ht. }
  split; [reflexivity|]. split; [exact H|].
  exact (list_enter_swallowed sampleIds st ev "b" eq_refl eq_refl eq_refl
           eq_refl H).
Defined.

Lemma handleKeyDown_default_kept_means_unchanged_witness :
  let ev := sampleKey OtherKey "b" (str "bar baz") 3 in
  defaultPrevented (handleKeyDown sampleIds sampleState ev) = false
  ∧ next (handleKeyDown sampleIds sampleState ev) = sampleState
  ∧ caret (handleKeyDown sampleIds sampleState ev) = None.
Proof.
  intros ev. split; [reflexivity|].
  exact (handleKeyDown_default_kept_means_unchanged sampleIds sampleState ev
           eq_refl).
Defined.

Lemma handleKeyDown_caret_in_document_witness :
  let ev := sampleKey Backspace "b" (str "bar baz") 0 in
  "b"%string ∈ allLines sampleState
  ∧ caret (handleKeyDown sampleIds sampleState ev)
    = Some ("a"%string, AtOffset 3)
  ∧ "a"%string ∈ allLines (next (handleKeyDown sampleIds sampleState ev)).
Proof.
  intros ev.
  assert ("b"%string ∈ allLines sampleState) as H by compute_done.
  split; [exact H|]. split; [reflexivity|].
  exact (handleKeyDown_caret_in_document sampleIds sampleState ev "b" "a"
           (AtOffset 3) eq_refl H eq_refl).
Defined.

(** ** Blocks in edit mode *)

Section EditRows.
Implicit Types (line : jsstring) (lines : list jsstring).

Lemma editRows_dataLines isList lines : dataLines (editRows isList lines) = lines.
Proof.
  induction lines as [|line rest IH]; [done|].
  cbn [editRows]. destruct rest as [|l2 rest]; [done|].
  change (dataLines (Span (safeHtmlLine (htmlLine isList line)) line
                     :: Br :: editRows isList (l2 :: rest)))
    with (line :: dataLines (editRows isList (l2 :: rest))).
  by rewrite IH.
Qed.

Lemma editRows_length isList lines :
  lines ≠ [] → length (editRows isList lines) + 1 = 2 * length lines.
Proof.
  induction lines as [|line rest IH]; [done|]. intros _.
  cbn [editRows]. destruct rest as [|l2 rest]; [done|].
  cbn [length] in *. specialize (IH ltac:(done)). lia.
Qed.

Lemma safeHtmlLine_nonempty html : safeHtmlLine html ≠ [].
Proof. unfold safeHtmlLine. case_bool_decide; [done|]. by destruct html. Qed.

Lemma editRows_html isList lines :
  Forall (λ n, match n with Span html _ => html ≠ [] | Br => True end)
    (editRows isList lines).
Proof.
  induction lines as [|line rest IH]; [constructor|].
  cbn [editRows]. constructor; [apply safeHtmlLine_nonempty|].
  destruct rest; [constructor|]. by constructor.
Qed.

(** X15.  A block in edit mode is drawn as one span per line of its stored
    text, with one line break element between two spans: the [data-line]
    attributes, joined by line breaks, are the stored text (a zero-width
    space for a text that is missing or empty, unless the block is a list),
    and no span is given an empty content. *)
Theorem renderEditBlock_rows (text : option jsstring) :
  let rows := renderEditBlock text in
  joinWith [LF] (dataLines rows)
  = (if isListBlock (orText text []) then orText text []
     else orText text [ZWSP])
  ∧ length rows + 1 = 2 * length (dataLines rows)
  ∧ Forall (λ n, match n with Span html _ => html ≠ [] | Br => True end) rows.
Proof.
  intros rows. unfold rows, renderEditBlock.
  destruct (isListBlock (orText text [])).
  - rewrite editRows_dataLines, joinWith_split.
    split; [done|]. split; [|apply editRows_html].
    apply editRows_length, split_on_nonempty.
  - rewrite editRows_dataLines, joinWith_split.
    split; [done|]. split; [|apply editRows_html].
    apply editRows_length, split_on_nonempty.
Qed.

End EditRows.

Section MarkerRows.
Implicit Types (line rest t : jsstring).

Lemma takeWhile_app_all p s t :
  forallb p s = true → takeWhile p (s ++ t) = s ++ takeWhile p t.
Proof.
  induction s as [|c r IH]; [done|]. cbn [forallb app takeWhile].
  intros [-> H]%andb_prop. by rewrite IH.
Qed.

Lemma takeWhile_all p s : forallb p (takeWhile p s) = true.
Proof.
  induction s as [|c r IH]; [done|]. cbn [takeWhile].
  destruct (p c) eqn:E; [|done]. cbn [forallb]. by rewrite E, IH.
Qed.

(** The two shapes of the marker of a list line. *)
Lemma match_marker_shape box rest n :
  match_marker box rest = Some n →
  (∃ c, is_bullet c = true ∧ take n rest = [c; SP])
  ∨ (∃ ds, ds ≠ [] ∧ forallb is_digit ds = true
           ∧ take n rest = ds ++ [46%N; SP]).
Proof.
  rewrite match_marker_no_task.
  destruct (match_bullet rest) as [m|] eqn:B.
  - intros [= ->]. left. destruct rest as [|c [|d r]]; [done..|].
    cbn [match_bullet] in B.
    destruct (is_bullet c) eqn:Hc; [|done].
    destruct (d =? SP)%N eqn:Hd; [|done]. injection B as <-.
    apply N.eqb_eq in Hd as ->. by exists c.
  - unfold match_ordered. intros O. right.
    pose proof (takeWhile_dropWhile is_digit rest) as Hsplit.
    pose proof (takeWhile_all is_digit rest) as Hall.
    destruct (takeWhile is_digit rest) as [|d ds] eqn:E; [done|].
    assert (drop (length (d :: ds)) rest = dropWhile is_digit rest) as Hdrop.
    { rewrite <- Hsplit at 1. by rewrite drop_app_length. }
    rewrite Hdrop in O.
    destruct (dropWhile is_digit rest) as [|a [|b r]] eqn:D; [done..|].
    destruct (a =? 46)%N eqn:Ha; [|done].
    destruct (b =? SP)%N eqn:Hb; [|done]. injection O as <-.
    apply N.eqb_eq in Ha as ->. apply N.eqb_eq in Hb as ->.
    exists (d :: ds). split; [done|]. split; [done|].
    rewrite <- Hsplit.
    change (46%N :: SP :: r) with ([46%N; SP] ++ r). rewrite app_assoc.
    rewrite take_app_length'; [done|]. rewrite length_app. cbn [length]. lia.
Qed.

Lemma is_bullet_cases c : is_bullet c = true → c = 45%N ∨ c = 42%N ∨ c = 43%N.
Proof.
  unfold is_bullet.
  destruct (c =? 45)%N eqn:E1; [apply N.eqb_eq in E1; auto|].
  destruct (c =? 42)%N eqn:E2; [apply N.eqb_eq in E2; auto|].
  destruct (c =? 43)%N eqn:E3; [apply N.eqb_eq in E3; auto|done].
Qed.

Lemma is_digit_range c : is_digit c = true → (48 ≤ c ≤ 57)%N.
Proof.
  unfold is_digit. intros [H1 H2]%andb_prop.
  apply N.leb_le in H1. apply N.leb_le in H2. lia.
Qed.

Lemma match_task_digit box d t : is_digit d = true → match_task box (d :: t) = None.
Proof.
  intros H%is_digit_range. unfold match_task.
  destruct t as [|b [|c [|e [|f [|g r]]]]]; try done.
  assert ((d =? 45)%N = false) as -> by (apply N.eqb_neq; lia). done.
Qed.

Lemma match_bullet_digit d t : is_digit d = true → match_bullet (d :: t) = None.
Proof.
  intros H%is_digit_range. unfold match_bullet. destruct t as [|b r]; [done|].
  assert (is_bullet d = false) as ->; [|done].
  unfold is_bullet.
  assert ((d =? 45)%N = false) as -> by (apply N.eqb_neq; lia).
  assert ((d =? 42)%N = false) as -> by (apply N.eqb_neq; lia).
  assert ((d =? 43)%N = false) as -> by (apply N.eqb_neq; lia). done.
Qed.

Lemma match_ordered_digits ds t :
  ds ≠ [] → forallb is_digit ds = true →
  match_ordered (ds ++ [46%N; SP] ++ t) = Some (length ds + 2).
Proof.
  intros Hne Hds. unfold match_ordered.
  assert (takeWhile is_digit (ds ++ [46%N; SP] ++ t) = ds) as ->.
  { rewrite takeWhile_app_all by done.
    change (takeWhile is_digit ([46%N; SP] ++ t)) with ([] : jsstring).
    apply app_nil_r. }
  destruct ds as [|d ds]; [done|].
  by rewrite (drop_app_length (d :: ds)).
Qed.

(** A marker alone is a bare marker; followed by the placeholder of the
    list continuation it is not. *)
Lemma bareMarker_marker box rest n :
  match_marker box rest = Some n →
  bareMarker (take n rest) = Some (take n rest)
  ∧ bareMarker (take n rest ++ nbsp) = None
  ∧ ∃ c r, take n rest = c :: r ∧ is_space c = false.
Proof.
  intros [(c & Hc & ->)|(ds & Hne & Hds & ->)]%match_marker_shape.
  - apply is_bullet_cases in Hc as [->|[->| ->]]; repeat split; try done;
      by eexists _, _.
  - destruct ds as [|d ds]; [done|].
    pose proof Hds as [Hd _]%andb_prop.
    split; [|split].
    + unfold bareMarker. cbn [app]. rewrite match_bullet_digit by done.
      pose proof (match_ordered_digits (d :: ds) [] Hne Hds) as O.
      rewrite app_nil_r in O. cbn [app] in O. rewrite O.
      rewrite drop_ge by (cbn [length]; rewrite length_app; cbn [length]; lia).
      cbn [marker_only].
      by rewrite take_ge
        by (cbn [length]; rewrite length_app; cbn [length]; lia).
    + unfold bareMarker. rewrite <- app_assoc. cbn [app].
      rewrite match_bullet_digit, match_task_digit by done.
      pose proof (match_ordered_digits (d :: ds) nbsp Hne Hds) as O.
      cbn [app] in O. rewrite O.
      replace (d :: ds ++ 46%N :: SP :: nbsp)
        with (((d :: ds) ++ [46%N; SP]) ++ nbsp)
        by (by rewrite <- app_assoc).
      rewrite drop_app_length'
        by (rewrite length_app; cbn [length]; lia).
      done.
    + exists d, (ds ++ [46%N; SP]). split; [done|].
      apply is_digit_range in Hd. unfold is_space.
      repeat (match goal with
              | |- context [(d =? ?k)%N] =>
                  assert ((d =? k)%N = false) as -> by (apply N.eqb_neq; lia)
              end).
      assert ((d <=? 13)%N = false) as -> by (apply N.leb_gt; lia).
      assert ((8192 <=? d)%N = false) as -> by (apply N.leb_gt; lia).
      by rewrite andb_false_r.
Qed.

Lemma htmlLine_indent isList indent rest c r :
  forallb is_space indent = true → rest = c :: r → is_space c = false →
  htmlLine isList (indent ++ rest)
  = spacesToNbsp indent
    ++ (if isList then
          match bareMarker rest with
          | Some marker => marker ++ nbsp
          | None => rest
          end
        else rest).
Proof.
  intros Hi -> Hc. unfold htmlLine, leadingSpaces.
  rewrite takeWhile_app_all by done. cbn [takeWhile]. rewrite Hc, app_nil_r.
  rewrite sliceFrom_drop by lia. by rewrite Nat2Z.id, drop_app_length.
Qed.

(** X16.  The line that Enter adds after a list item, which is the indent,
    the marker and the text of the non-breaking space entity, is drawn in
    edit mode exactly like the marker alone: the indent with its spaces as
    entities, the marker, and one non-breaking space entity. *)
Theorem list_placeholder_row line indent marker content :
  parseListLine line = Some (indent, marker, content) →
  htmlLine true (indent ++ marker ++ nbsp)
  = spacesToNbsp indent ++ marker ++ nbsp
  ∧ htmlLine true (indent ++ marker) = spacesToNbsp indent ++ marker ++ nbsp.
Proof.
  unfold parseListLine.
  destruct (match_marker box_xX (dropWhile is_space line)) as [n|] eqn:M;
    [|done].
  intros [= <- <- _].
  destruct (bareMarker_marker _ _ _ M) as (Hbare & Hfull & c & r & E & Hc).
  pose proof (takeWhile_all is_space line) as Hi.
  split.
  - rewrite (htmlLine_indent true _ _ c (r ++ nbsp)); [|done| |done].
    + by rewrite Hfull.
    + by rewrite E.
  - rewrite (htmlLine_indent true _ _ c r); [|done..].
    by rewrite Hbare.
Qed.

End MarkerRows.

Lemma list_placeholder_row_witness :
  parseListLine (str "  - item") = Some (str "  ", str "- ", str "item")
  ∧ htmlLine true (str "  " ++ str "- " ++ nbsp)
    = spacesToNbsp (str "  ") ++ str "- " ++ nbsp
  ∧ htmlLine true (str "  " ++ str "- ")
    = spacesToNbsp (str "  ") ++ str "- " ++ nbsp.
Proof.
  split; [reflexivity|].
  exact (list_placeholder_row (str "  - item") (str "  ") (str "- ")
           (str "item") eq_refl).
Defined.


(** ** The caret in the DOM *)

Section CaretFacts.
Implicit Types (node block : DomNode) (p : NodePath)
  (nodes : list (NodePath * jsstring)).

Lemma DomNode_nested_ind (P : DomNode → Prop) :
  (∀ data, P (TextNode data)) →
  (∀ childNodes, Forall P childNodes → P (OtherNode childNodes)) →
  ∀ node, P node.
Proof.
  intros Ht Ho. fix IH 1. intros [data|childNodes]; [apply Ht|].
  apply Ho. induction childNodes as [|c cs IHcs]; constructor;
    [apply IH|apply IHcs].
Qed.

Lemma textNodesOfChildren_cons below c cs i :
  textNodesOfChildren below (c :: cs) i
  = (prod_map (cons i) id <$> below c) ++ textNodesOfChildren below cs (S i).
Proof. done. Qed.

Lemma textLength_app nodes1 nodes2 :
  textLength (nodes1 ++ nodes2) = (textLength nodes1 + textLength nodes2)%Z.
Proof.
  induction nodes1 as [|n r IH]; [done|]. cbn [app textLength foldr].
  fold (textLength (r ++ nodes2)) (textLength r). lia.
Qed.

Lemma textLength_nonneg nodes : (0 ≤ textLength nodes)%Z.
Proof.
  induction nodes as [|n r IH]; [done|]. cbn [textLength foldr].
  fold (textLength r). lia.
Qed.

(** *** Paths of the text nodes *)

Lemma textNodesOfChildren_elem cs i p data :
  (p, data) ∈ textNodesOfChildren textNodes cs i →
  ∃ j c p', p = (i + j) :: p' ∧ cs !! j = Some c ∧ (p', data) ∈ textNodes c.
Proof.
  revert i. induction cs as [|c cs IH]; intros i; [by intros ?%elem_of_nil|].
  rewrite textNodesOfChildren_cons.
  intros [H|H]%elem_of_app.
  - apply list_elem_of_fmap in H as ([p' d'] & [= -> ->] & H).
    exists 0, c, p'. by rewrite Nat.add_0_r.
  - destruct (IH _ H) as (j & c' & p' & -> & Hj & Hp).
    exists (S j), c', p'. split; [f_equal; lia|done].
Qed.

Lemma textNodes_nodeAt node p data :
  (p, data) ∈ textNodes node → nodeAt node p = Some (TextNode data).
Proof.
  revert p. induction node as [d|cs IH] using DomNode_nested_ind; intros p.
  - cbn [textNodes]. by intros [= -> ->]%list_elem_of_singleton.
  - cbn [textNodes].
    intros (j & c & p' & -> & Hj & Hp)%textNodesOfChildren_elem.
    cbn [nodeAt plus]. rewrite Hj.
    eapply Forall_forall in IH; [|by eapply list_elem_of_lookup_2].
    by apply IH.
Qed.

Lemma textNodesOfChildren_NoDup cs i :
  Forall (λ c, NoDup (textNodes c).*1) cs →
  NoDup (textNodesOfChildren textNodes cs i).*1.
Proof.
  revert i. induction cs as [|c cs IH]; intros i Hcs; [constructor|].
  inversion Hcs as [|?? Hc Hcs']; subst.
  rewrite textNodesOfChildren_cons, fmap_app. apply NoDup_app.
  split; [|split; [|by apply IH]].
  - rewrite <- list_fmap_compose.
    replace ((fst ∘ prod_map (cons i) id) <$> textNodes c)
      with (cons i <$> (textNodes c).*1).
    + apply NoDup_fmap_2; [|done]. by intros ?? [= ->].
    + rewrite <- list_fmap_compose. by apply list_fmap_ext.
  - intros p Hp1 Hp2.
    apply list_elem_of_fmap in Hp1 as ([p1 d1] & -> & H1).
    apply list_elem_of_fmap in H1 as ([p1' d1'] & [= -> ->] & H1).
    apply list_elem_of_fmap in Hp2 as ([p2 d2] & E & H2).
    apply textNodesOfChildren_elem in H2 as (j & c' & p' & -> & _ & _).
    cbn in E. injection E as E _. lia.
Qed.

Lemma textNodes_NoDup node : NoDup (textNodes node).*1.
Proof.
  induction node as [d|cs IH] using DomNode_nested_ind.
  - cbn. apply NoDup_singleton.
  - cbn [textNodes]. by apply textNodesOfChildren_NoDup.
Qed.

(** *** [walk] and the list of text nodes *)

Lemma walkList_app nodes1 nodes2 r :
  walkList (nodes1 ++ nodes2) r
  = if bool_decide (is_Some (walkList nodes1 r).2) then walkList nodes1 r
    else walkList nodes2 (walkList nodes1 r).1.
Proof.
  revert r. induction nodes1 as [|[p d] rest IH]; intros r.
  - cbn [app walkList snd fst]. rewrite bool_decide_eq_false_2; [done|].
    by intros [? ?].
  - cbn [app walkList]. destruct (r <=? _)%Z; [|apply IH].
    cbn [snd]. by rewrite bool_decide_eq_true_2.
Qed.

Lemma walkList_prefix i nodes r :
  walkList (prod_map (cons i) id <$> nodes) r
  = ((walkList nodes r).1, prod_map (cons i) id <$> (walkList nodes r).2).
Proof.
  revert r. induction nodes as [|[p d] rest IH]; intros r; [done|].
  cbn [fmap list_fmap prod_map fst snd id walkList].
  destruct (r <=? _)%Z; [done|]. apply IH.
Qed.

Lemma walkChildren_list cs i r :
  Forall (λ c, ∀ r, walk c (r, None) = walkList (textNodes c) r) cs →
  walkChildren walk cs i (r, None)
  = walkList (textNodesOfChildren textNodes cs i) r.
Proof.
  revert i r. induction cs as [|c cs IH]; intros i r Hcs; [done|].
  inversion Hcs as [|?? Hc Hcs']; subst.
  rewrite textNodesOfChildren_cons, walkList_app, walkList_prefix.
  cbn [walkChildren]. rewrite Hc. cbn [fst snd].
  destruct (walkList (textNodes c) r) as [r' [f|]]; cbn [fst snd fmap option_fmap option_map].
  - by rewrite !bool_decide_eq_true_2.
  - rewrite !bool_decide_eq_false_2 by (by intros [? ?]). by apply IH.
Qed.

Lemma walk_list node r : walk node (r, None) = walkList (textNodes node) r.
Proof.
  revert r. induction node as [d|cs IH] using DomNode_nested_ind; intros r.
  - cbn. by destruct (r <=? _)%Z.
  - cbn [walk snd textNodes]. by apply walkChildren_list.
Qed.

(** Where [walkList] stops. *)
Lemma walkList_found nodes r :
  (0 ≤ r ≤ textLength nodes)%Z → nodes ≠ [] →
  ∃ pre p data post,
    nodes = pre ++ (p, data) :: post
    ∧ walkList nodes r = ((r - textLength pre)%Z, Some (p, (r - textLength pre)%Z))
    ∧ (0 ≤ r - textLength pre ≤ Z.of_nat (length data))%Z.
Proof.
  revert r. induction nodes as [|[p d] rest IH]; intros r Hr Hne; [done|].
  cbn [walkList]. cbn [textLength foldr snd] in Hr. fold (textLength rest) in Hr.
  destruct (r <=? Z.of_nat (length d))%Z eqn:E.
  - apply Z.leb_le in E. exists [], p, d, rest. cbn [textLength foldr app].
    rewrite Z.sub_0_r. split; [done|]. split; [done|]. lia.
  - apply Z.leb_gt in E.
    destruct rest as [|n rest'].
    { cbn [textLength foldr] in Hr. lia. }
    destruct (IH (r - Z.of_nat (length d))%Z ltac:(lia) ltac:(done))
      as (pre & p' & d' & post & Hsplit & Hw & Hb).
    exists ((p, d) :: pre), p', d', post. rewrite Hw, Hsplit.
    cbn [textLength foldr snd app]. fold (textLength pre).
    replace (r - (Z.of_nat (length d) + textLength pre))%Z
      with (r - Z.of_nat (length d) - textLength pre)%Z by lia.
    split; [done|]. split; [done|]. lia.
Qed.

Lemma caretLoop_found pre p data post offset total :
  p ∉ pre.*1 →
  caretLoop (pre ++ (p, data) :: post) p offset total
  = Some (total + textLength pre + offset)%Z.
Proof.
  revert total. induction pre as [|[q d] pre IH]; intros total Hp.
  - cbn [app caretLoop]. rewrite bool_decide_eq_true_2 by done.
    cbn [textLength foldr]. f_equal. lia.
  - cbn [fmap list_fmap fst] in Hp. apply not_elem_of_cons in Hp as [Hq Hp].
    cbn [app caretLoop]. rewrite bool_decide_eq_false_2 by done.
    rewrite IH by done. cbn [textLength foldr snd]. fold (textLength pre).
    f_equal. lia.
Qed.

(** X17.  The caret that a merge puts in the previous block is read back by
    the next key event at the same offset: for an offset within the text
    that the block shows, [walk] stops in a text node of the block, inside
    its data, and the offset that the handler computes from that place,
    counting the text nodes in document order, is the offset asked for. *)
Theorem caret_after_merge_reads_back (childNodes : list DomNode) (k : Z) :
  let block := OtherNode childNodes in
  (0 ≤ k ≤ textLength (textNodes block))%Z → textNodes block ≠ [] →
  ∃ p offset data,
    caretAfterMerge block k = (p, offset)
    ∧ nodeAt block p = Some (TextNode data)
    ∧ (0 ≤ offset ≤ Z.of_nat (length data))%Z
    ∧ caretPosIn block p offset = k.
Proof.
  intros block Hk Hne.
  destruct (walkList_found _ _ Hk Hne) as (pre & p & d & post & Hs & Hw & Hb).
  exists p, (k - textLength pre)%Z, d.
  assert (nodeAt block p = Some (TextNode d)) as Hat.
  { apply textNodes_nodeAt. rewrite Hs. set_solver. }
  split; [|split; [done|split; [done|]]].
  - unfold caretAfterMerge. by rewrite walk_list, Hw.
  - unfold caretPosIn. rewrite Hat.
    change (walkerNodes block) with (textNodes block). rewrite Hs.
    rewrite caretLoop_found.
    + cbn [default from_option Datatypes.id]. lia.
    + pose proof (textNodes_NoDup block) as Hnd. rewrite Hs in Hnd.
      rewrite fmap_app in Hnd. apply NoDup_app in Hnd as (_ & Hd & _).
      intros Hin. apply (Hd p Hin). cbn. left.
Qed.

(** The node that [findDeepestFirstTextNode] gives is the first text node
    in document order. *)
Lemma firstTextNodeOfChildren_head cs i :
  Forall (λ c, findDeepestFirstTextNode c = fst <$> head (textNodes c)) cs →
  firstTextNodeOfChildren findDeepestFirstTextNode cs i
  = fst <$> head (textNodesOfChildren textNodes cs i).
Proof.
  revert i. induction cs as [|c cs IH]; intros i Hcs; [done|].
  inversion Hcs as [|?? Hc Hcs']; subst.
  rewrite textNodesOfChildren_cons. cbn [firstTextNodeOfChildren]. rewrite Hc.
  destruct (textNodes c) as [|[p d] r]; cbn; [by apply IH|done].
Qed.

Lemma findDeepestFirstTextNode_head node :
  findDeepestFirstTextNode node = fst <$> head (textNodes node).
Proof.
  induction node as [d|cs IH] using DomNode_nested_ind; [done|].
  cbn [findDeepestFirstTextNode textNodes].
  by apply firstTextNodeOfChildren_head.
Qed.

(** X18.  The guard of the Backspace merge implies a caret offset of 0: for
    a caret (a collapsed selection) in a block, when
    [isCaretAtStartOfBlock] holds, the offset that [handleKeyDown] computes
    for the same event is 0. *)
Theorem caret_at_start_has_offset_zero block (sel : DomSelection) :
  startContainer sel = Some (anchorNode sel) →
  rangeStart sel = anchorOffset sel →
  isCaretAtStartOfBlock block sel = true →
  caretPosIn block (anchorNode sel) (anchorOffset sel) = 0%Z.
Proof.
  intros Hc Ho. unfold isCaretAtStartOfBlock, caretPosIn.
  case_bool_decide; [done|]. rewrite Hc.
  case_bool_decide as Hroot.
  - injection Hroot as ->. intros _. cbn [nodeAt].
    destruct block as [d|cs]; [|done]. done.
  - rewrite findDeepestFirstTextNode_head.
    destruct (textNodes block) as [|[p d] r] eqn:E; [done|].
    cbn [head fmap option_fmap option_map fst].
    intros [H1 H2]%andb_prop.
    apply bool_decide_eq_true in H1 as ->. apply bool_decide_eq_true in H2 as ->.
    destruct (nodeAt block p) as [[?|?]|]; [|done..].
    destruct block as [d0|cs]; [done|].
    change (walkerNodes (OtherNode cs)) with (textNodes (OtherNode cs)).
    rewrite E. cbn [caretLoop]. by rewrite bool_decide_eq_true_2.
Qed.

Lemma walkList_beyond nodes r :
  (textLength nodes < r)%Z → walkList nodes r = ((r - textLength nodes)%Z, None).
Proof.
  revert r. induction nodes as [|[p d] rest IH]; intros r Hr.
  - cbn. f_equal. lia.
  - cbn [textLength foldr snd] in Hr |- *. fold (textLength rest) in Hr |- *.
    pose proof (textLength_nonneg rest). cbn [walkList].
    assert ((r <=? Z.of_nat (length d))%Z = false) as ->
      by (apply Z.leb_gt; lia).
    rewrite IH by lia. f_equal. lia.
Qed.

(** X19.  When the previous block shows less text than the offset asked
    for, as when its stored text is longer than the text of its DOM, [walk]
    finds no place and the caret goes to the block itself, after its last
    child node. *)
Theorem caret_after_merge_beyond_text (childNodes : list DomNode) (k : Z) :
  (textLength (textNodes (OtherNode childNodes)) < k)%Z →
  caretAfterMerge (OtherNode childNodes) k
  = ([], Z.of_nat (length childNodes)).
Proof.
  intros Hk. unfold caretAfterMerge. by rewrite walk_list, walkList_beyond.
Qed.

End CaretFacts.

Lemma caret_after_merge_reads_back_witness :
  (0 ≤ 3 ≤ textLength (textNodes sampleBlock))%Z
  ∧ textNodes sampleBlock ≠ []
  ∧ caretAfterMerge sampleBlock 3 = ([2; 0], 1%Z)
  ∧ ∃ p offset data,
      caretAfterMerge sampleBlock 3 = (p, offset)
      ∧ nodeAt sampleBlock p = Some (TextNode data)
      ∧ (0 ≤ offset ≤ Z.of_nat (length data))%Z
      ∧ caretPosIn sampleBlock p offset = 3%Z.
Proof.
  assert (0 ≤ 3 ≤ textLength (textNodes sampleBlock))%Z as H1 by (cbn; lia).
  assert (textNodes sampleBlock ≠ []) as H2 by done.
  split; [exact H1|]. split; [exact H2|]. split; [reflexivity|].
  exact (caret_after_merge_reads_back
           [OtherNode [TextNode (str "ab")]; OtherNode [];
            OtherNode [TextNode (str "cde")]] 3 H1 H2).
Defined.

Lemma caret_at_start_has_offset_zero_witness :
  let sel := caretSelection [0; 0] 0 in
  startContainer sel = Some (anchorNode sel)
  ∧ rangeStart sel = anchorOffset sel
  ∧ isCaretAtStartOfBlock sampleBlock sel = true
  ∧ caretPosIn sampleBlock (anchorNode sel) (anchorOffset sel) = 0%Z.
Proof.
  intros sel. split; [reflexivity|]. split; [reflexivity|].
  split; [reflexivity|].
  exact (caret_at_start_has_offset_zero sampleBlock sel eq_refl eq_refl
           eq_refl).
Defined.

Lemma caret_after_merge_beyond_text_witness :
  (textLength (textNodes sampleBlock) < 7)%Z
  ∧ caretAfterMerge sampleBlock 7 = ([], 3%Z).
Proof.
  assert (textLength (textNodes sampleBlock) < 7)%Z as H by (cbn; lia).
  split; [exact H|].
  exact (caret_after_merge_beyond_text
           [OtherNode [TextNode (str "ab")]; OtherNode [];
            OtherNode [TextNode (str "cde")]] 7 H).
Defined.

(** ** Typed text *)

Section InputFacts.
Implicit Types (s o : jsstring).

Lemma matchTrailingSpace_spec s n :
  matchTrailingSpace s = Some n →
  1 ≤ n ≤ length s ∧ blank (take n s) = true
  ∧ at_line_end (drop n s) = true ∧ matchTrailingSpace (drop n s) = None.
Proof.
  revert n. induction s as [|c r IH]; intros n; [done|].
  cbn [matchTrailingSpace]. destruct (is_space c) eqn:Hc; [|done].
  destruct (matchTrailingSpace r) as [m|] eqn:M.
  - intros [= <-]. destruct (IH m eq_refl) as (Hm & Hb & He & Hn).
    cbn [length take drop blank forallb]. rewrite Hc. fold (blank (take m r)).
    split; [lia|]. by rewrite Hb.
  - destruct (at_line_end r) eqn:E; [|done]. intros [= <-].
    cbn [length take drop blank forallb]. rewrite Hc.
    split; [lia|]. by rewrite take_0.
Qed.

Lemma removeMatches_skip n s :
  n ≤ length s → removeMatches n s = removeMatches 0 (drop n s).
Proof.
  revert s. induction n as [|n IH]; intros s; [done|].
  destruct s as [|c r]; cbn [length]; [lia|]. intros H.
  cbn [removeMatches drop]. apply IH. lia.
Qed.

(** One step of the scan. *)
Lemma cleanMarkdown_step c r :
  cleanMarkdown (c :: r)
  = match matchTrailingSpace (c :: r) with
    | Some n => cleanMarkdown (drop n (c :: r))
    | None => c :: cleanMarkdown r
    end.
Proof.
  unfold cleanMarkdown. cbn [removeMatches].
  destruct (matchTrailingSpace (c :: r)) as [n|] eqn:M; [|done].
  apply matchTrailingSpace_spec in M as (Hn & _). cbn [length] in Hn.
  destruct n as [|n]; [lia|]. cbn [drop]. apply removeMatches_skip. lia.
Qed.

Lemma cleanMarkdown_noTrailingSpace s : noTrailingSpace (cleanMarkdown s) = true.
Proof.
  induction s as [s IH] using (induction_ltof1 _ (@length N)).
  unfold ltof in IH. destruct s as [|c r]; [done|].
  rewrite cleanMarkdown_step.
  destruct (matchTrailingSpace (c :: r)) as [n|] eqn:M.
  - apply matchTrailingSpace_spec in M as (Hn & _).
    apply IH. rewrite length_drop. lia.
  - cbn [noTrailingSpace]. rewrite IH by (cbn [length]; lia).
    rewrite andb_true_r. destruct (is_space c) eqn:Hc; [|done].
    cbn [andb negb]. apply negb_true_iff.
    cbn [matchTrailingSpace] in M. rewrite Hc in M.
    destruct (matchTrailingSpace r) eqn:Mr; [done|].
    destruct (at_line_end r) eqn:E; [done|].
    destruct r as [|d r']; [done|]. rewrite cleanMarkdown_step, Mr. done.
Qed.

Lemma noTrailingSpace_no_match o :
  noTrailingSpace o = true → matchTrailingSpace o = None.
Proof.
  induction o as [|c r IH]; [done|]. cbn [noTrailingSpace matchTrailingSpace].
  intros [H1 H2]%andb_prop. rewrite (IH H2).
  destruct (is_space c); [|done]. cbn [andb] in H1.
  apply negb_true_iff in H1. by rewrite H1.
Qed.

Lemma noTrailingSpace_app u v :
  noTrailingSpace (u ++ v) = true → noTrailingSpace v = true.
Proof.
  induction u as [|c u IH]; [done|]. cbn [app noTrailingSpace].
  intros [_ H]%andb_prop. by apply IH.
Qed.

(** X20.  Cleaning of typed text removes white space only: the characters
    of the cleaned text that are no white space are, in order, those of the
    text content of the block. *)
Theorem cleanMarkdown_keeps_content (markdown : jsstring) :
  nonSpace (cleanMarkdown markdown) = nonSpace markdown.
Proof.
  induction markdown as [s IH] using (induction_ltof1 _ (@length N)).
  unfold ltof in IH. destruct s as [|c r]; [done|].
  rewrite cleanMarkdown_step.
  destruct (matchTrailingSpace (c :: r)) as [n|] eqn:M.
  - apply matchTrailingSpace_spec in M as (Hn & Hb & _).
    rewrite IH by (rewrite length_drop; lia).
    rewrite <- (take_drop n (c :: r)) at 2. rewrite nonSpace_app.
    apply nonSpace_nil in Hb. by rewrite Hb.
  - destruct (is_space c) eqn:Hc.
    + rewrite !nonSpace_cons_space by done. apply IH. cbn [length]. lia.
    + rewrite !nonSpace_cons_other by done. f_equal. apply IH. cbn [length]. lia.
Qed.

(** X21.  In the cleaned text no white space character stands before a
    line terminator or at the end: no line ends in white space and, a line
    break being white space itself, no two line breaks follow each other
    and the text does not end in one. *)
Theorem cleanMarkdown_no_trailing_space (markdown : jsstring) :
  (∀ u a b v, cleanMarkdown markdown = u ++ a :: b :: v →
              is_space a = true → is_line_terminator b = false)
  ∧ (∀ u a, cleanMarkdown markdown = u ++ [a] → is_space a = false).
Proof.
  pose proof (cleanMarkdown_noTrailingSpace markdown) as H.
  split.
  - intros u a b v E Ha. rewrite E in H. apply noTrailingSpace_app in H.
    cbn [noTrailingSpace at_line_end] in H. rewrite Ha in H.
    apply andb_prop in H as [H _]. by apply negb_true_iff in H.
  - intros u a E. rewrite E in H. apply noTrailingSpace_app in H.
    cbn [noTrailingSpace at_line_end] in H.
    destruct (is_space a); [done|done].
Qed.

(** X22.  Cleaning is idempotent: the pattern matches nowhere in a cleaned
    text, so that a second input event on the same text stores the same
    text. *)
Theorem cleanMarkdown_idempotent (markdown : jsstring) :
  cleanMarkdown (cleanMarkdown markdown) = cleanMarkdown markdown.
Proof.
  pose proof (cleanMarkdown_noTrailingSpace markdown) as H.
  induction (cleanMarkdown markdown) as [|c r IH]; [done|].
  rewrite cleanMarkdown_step, (noTrailingSpace_no_match _ H).
  cbn [noTrailingSpace] in H. apply andb_prop in H as [_ H]. by rewrite IH.
Qed.

Lemma split_on_head_nil r ls :
  split_on LF r = [] :: ls → at_line_end r = true.
Proof.
  destruct r as [|x r']; [done|]. destruct (decide (x = LF)) as [->|Hx]; [done|].
  destruct (split_on_cons_other LF x r' Hx) as (l & ls' & _ & ->). done.
Qed.

Lemma noTrailingSpace_lines o :
  noTrailingSpace o = true →
  Forall (λ l, trimEnd l = l) (split_on LF o)
  ∧ Forall (λ l, l ≠ []) (tail (split_on LF o)).
Proof.
  induction o as [|c r IH]; [by repeat constructor|].
  cbn [noTrailingSpace]. intros [Hc Hr]%andb_prop.
  destruct (IH Hr) as [IH1 IH2]. apply negb_true_iff in Hc.
  destruct (decide (c = LF)) as [->|Hne].
  - change (split_on LF (LF :: r)) with ([] :: split_on LF r).
    split; [by constructor|]. cbn [tail].
    change (is_space LF) with true in Hc. cbn [andb] in Hc.
    destruct r as [|d r']; [done|]. cbn [at_line_end] in Hc.
    assert (d ≠ LF) as Hd by (by intros ->).
    destruct (split_on_cons_other LF d r' Hd) as (l & ls & E1 & E2).
    rewrite E2 in IH2 |- *. cbn [tail] in IH2. by constructor.
  - destruct (split_on_cons_other LF c r Hne) as (l & ls & E1 & E2).
    rewrite E1 in IH1, IH2. rewrite E2. cbn [tail] in IH2 |- *.
    split; [|done]. inversion IH1 as [|?? Hl Hls]; subst.
    constructor; [|done].
    destruct l as [|x l'].
    + apply split_on_head_nil in E1. rewrite E1, andb_true_r in Hc.
      unfold trimEnd. cbn. by rewrite Hc.
    + change (c :: x :: l') with ([c] ++ x :: l').
      rewrite trimEnd_app_nonblank, Hl; [done|].
      destruct (blank (x :: l')) eqn:B; [|done].
      apply trimEnd_nil in B. by rewrite Hl in B.
Qed.

(** X23.  An input event in a block stores, under the id of the block and
    nowhere else, a text whose lines do not end in white space and among
    which only the first can be empty: a blank line typed inside a block
    does not reach the document.  The ordering sequence is untouched. *)
Theorem handleInput_stores_clean_lines (st : State) (id : string)
    (textContent : jsstring) :
  let st' := handleInput st id textContent in
  ∃ text,
    doc st' !! id = Some text
    ∧ Forall (λ l, trimEnd l = l) (split_on LF text)
    ∧ Forall (λ l, l ≠ []) (tail (split_on LF text))
    ∧ (∀ j, j ≠ id → doc st' !! j = doc st !! j)
    ∧ allLines st' = allLines st.
Proof.
  intros st'. exists (cleanMarkdown (orText (Some textContent) [])).
  unfold st', handleInput. cbn [doc allLines].
  rewrite lookup_insert_eq. split; [done|].
  destruct (noTrailingSpace_lines _
              (cleanMarkdown_noTrailingSpace (orText (Some textContent) [])))
    as [H1 H2].
  split; [done|]. split; [done|]. split; [|done].
  intros j Hj. by rewrite lookup_insert_ne.
Qed.

End InputFacts.

(** ** Focus and selection events *)

Section FocusFacts.
Context (readBlock : string → option jsstring).
Implicit Types (st : State) (ev : FocusEvent).

Lemma saveCurrentEditingBlock_spec st :
  (∀ id text, readBlock id = Some text → id ∈ allLines st) → doc_ok st →
  let st' := saveCurrentEditingBlock readBlock st in
  doc_ok st' ∧ allLines st' = allLines st ∧ generated st' = generated st
  ∧ editingBlockIds st' = editingBlockIds st
  ∧ ∀ j, editingBlockIds st ≠ [j] → doc st' !! j = doc st !! j.
Proof.
  intros Hread Hok st'. unfold st', saveCurrentEditingBlock.
  destruct (editingBlockIds st) as [|id [|id2 r]] eqn:E; [done| |done].
  destruct (readBlock id) as [text|] eqn:R; [|done].
  split; [apply doc_ok_insert; [done|by eapply Hread]|].
  cbn [allLines generated editingBlockIds doc].
  split; [done|]. split; [done|]. split; [done|].
  intros j Hj. rewrite lookup_insert_ne; [done|]. by intros ->.
Qed.

Lemma setEditingBlockIds_doc_ok ids st : doc_ok st → doc_ok (setEditingBlockIds ids st).
Proof. done. Qed.

(** X24.  The focus and selection handlers (mouse down, focus in, focus
    out, selection change) keep the document and its invariant: when the
    DOM has block elements for ids of the ordering sequence only, the
    ordering sequence and the count of ids drawn are unchanged, the
    invariant holds afterwards, and the only text that can change is that
    of the block that was alone in edit focus. *)
Theorem focus_events_keep_document st ev :
  (∀ id text, readBlock id = Some text → id ∈ allLines st) → doc_ok st →
  let st' := handleFocusEvent readBlock st ev in
  doc_ok st' ∧ allLines st' = allLines st ∧ generated st' = generated st
  ∧ ∀ j, editingBlockIds st ≠ [j] → doc st' !! j = doc st !! j.
Proof.
  intros Hread Hok st'.
  destruct (saveCurrentEditingBlock_spec st Hread Hok)
    as (S1 & S2 & S3 & S4 & S5).
  unfold st'. destruct ev as [|target|onBlock|sel]; cbn [handleFocusEvent].
  - done.
  - unfold handleFocusOrSelect. destruct target as [id|]; [|done].
    case_bool_decide; done.
  - unfold handleBlur. destruct onBlock; done.
  - unfold handleSelectionChange.
    destruct sel as [[[collapsed target] touched]|]; [|done].
    destruct collapsed.
    + destruct target; done.
    + destruct touched as [ids|]; [|done]. case_bool_decide; done.
Qed.

End FocusFacts.

Lemma focus_events_keep_document_witness :
  let readBlock := λ id : string,
    if bool_decide (id = "b"%string) then Some (str "typed") else None in
  let st' := handleFocusEvent readBlock sampleState (FocusIn (Some "a"%string)) in
  (∀ id text, readBlock id = Some text → id ∈ allLines sampleState)
  ∧ doc_ok sampleState
  ∧ doc st' !! "b"%string = Some (str "typed")
  ∧ editingBlockIds st' = ["a"%string]
  ∧ doc_ok st' ∧ allLines st' = allLines sampleState
  ∧ generated st' = generated sampleState
  ∧ ∀ j, editingBlockIds sampleState ≠ [j] →
         doc st' !! j = doc sampleState !! j.
Proof.
  intros readBlock st'.
  assert (∀ id text, readBlock id = Some text → id ∈ allLines sampleState)
    as H1.
  { intros id text. unfold readBlock. case_bool_decide as E; [|done].
    intros _. rewrite E. compute_done. }
  assert (doc_ok sampleState) as H2 by (split; compute_done).
  split; [exact H1|]. split; [exact H2|]. split; [reflexivity|].
  split; [reflexivity|].
  exact (focus_events_keep_document readBlock sampleState
           (FocusIn (Some "a"%string)) H1 H2).
Defined.

(** ** Blocks out of edit focus *)

Section RenderFacts.
Context (marked : jsstring → jsstring).
Context (firstElementName : jsstring → option jsstring).
Implicit Types (line block s P : jsstring).

Lemma isPrefix_before_LF P l t :
  LF ∉ P → isPrefix P (l ++ LF :: t) = isPrefix P l.
Proof.
  revert l. induction P as [|a P IH]; intros l HP; [by destruct l|].
  apply not_elem_of_cons in HP as [Ha HP].
  destruct l as [|b l]; cbn [app isPrefix].
  - assert ((a =? LF)%N = false) as -> by (apply N.eqb_neq; congruence). done.
  - by rewrite IH.
Qed.

Lemma isPrefix_first_line P block :
  LF ∉ P →
  ∃ l ls, split_on LF block = l :: ls ∧ isPrefix P block = isPrefix P l.
Proof.
  intros HP. destruct (split_on LF block) as [|l ls] eqn:E.
  { by destruct (split_on_nonempty LF block). }
  exists l, ls. split; [done|].
  rewrite <- (joinWith_split block), E.
  destruct ls as [|l2 ls]; [done|].
  rewrite joinWith_cons by done. cbn [app]. by apply isPrefix_before_LF.
Qed.

Lemma isPrefix_wrapReminder P line :
  Forall (λ c, c ≠ 55356%N ∧ c ≠ 60%N) P →
  isPrefix P (wrapReminder line) = isPrefix P line.
Proof.
  revert line. induction P as [|a P IH]; intros line HP.
  { done. }
  inversion HP as [|?? [Ha1 Ha2] HP']; subst.
  destruct line as [|c r]; [done|]. cbn [wrapReminder].
  destruct (isPrefix RIBBON (c :: r)) eqn:R.
  - destruct (firstSemicolon (drop 2 (c :: r))) as [n|].
    + cbn [isPrefix RIBBON] in R. apply andb_prop in R as [R _].
      apply N.eqb_eq in R as <-.
      change (reminderOpen ++ ?x) with (60%N :: (tail reminderOpen ++ x)).
      cbn [isPrefix].
      assert ((a =? 60)%N = false) as -> by (by apply N.eqb_neq).
      assert ((a =? 55356)%N = false) as -> by (by apply N.eqb_neq). done.
    + cbn [isPrefix]. by rewrite IH.
  - cbn [isPrefix]. by rewrite IH.
Qed.

Lemma isPrefix_highlightReminder P line :
  Forall (λ c, c ≠ 55356%N ∧ c ≠ 60%N) P →
  isPrefix P (highlightReminder line) = isPrefix P line.
Proof.
  intros HP. unfold highlightReminder.
  destruct (reminderTest line); [by apply isPrefix_wrapReminder|done].
Qed.

(** Whether a block is a bookmark is not changed by the highlighting of
    reminders. *)
Lemma preprocessReminders_bookmark block :
  isPrefix bookmarkPrefix (preprocessReminders block)
  = isPrefix bookmarkPrefix block.
Proof.
  assert (LF ∉ bookmarkPrefix) as HLF by compute_done.
  destruct (isPrefix_first_line bookmarkPrefix block HLF)
    as (l & ls & E & ->).
  unfold preprocessReminders. rewrite E. cbn [fmap list_fmap].
  rewrite <- (isPrefix_highlightReminder bookmarkPrefix l)
    by (repeat constructor; done).
  destruct ls as [|l2 ls]; [done|].
  rewrite joinWith_cons by done. cbn [app]. by apply isPrefix_before_LF.
Qed.

Lemma replaceFirst_prefix s P :
  isPrefix P s = true → replaceFirst s P [] = drop (length P) s.
Proof.
  intros H. unfold replaceFirst, indexOf.
  rewrite indexOfFrom_prefix by done. rewrite Z.ltb_irrefl.
  rewrite slice_take by lia. rewrite sliceFrom_drop by lia.
  rewrite Z.add_0_l, Nat2Z.id. change (Z.to_nat 0) with 0. by rewrite take_0.
Qed.

(** X25.  A bookmark is never rendered as Markdown: for a block that
    starts with two slashes and a space, the result is the bookmark frame
    around the text of the block (reminders highlighted) without these
    three characters, whatever the Markdown renderer and the parser of the
    browser return. *)
Theorem bookmark_ignores_renderer block :
  isPrefix bookmarkPrefix block = true →
  getNodeForBlock marked firstElementName block
  = bookmarkOpen ++ drop 3 (preprocessReminders block) ++ bookmarkClose.
Proof.
  intros H. unfold getNodeForBlock. cbv zeta.
  rewrite preprocessReminders_bookmark, H.
  rewrite replaceFirst_prefix; [done|].
  by rewrite preprocessReminders_bookmark.
Qed.

(** X26.  What is rendered for a block that is no bookmark holds no
    backslash: every backslash of the output of the renderer is removed,
    those of escaped characters and of code among them. *)
Theorem rendered_block_has_no_backslash block :
  isPrefix bookmarkPrefix block = false →
  BACKSLASH ∉ getNodeForBlock marked firstElementName block.
Proof.
  intros H. unfold getNodeForBlock. cbv zeta.
  rewrite preprocessReminders_bookmark, H.
  set (html := removeBackslashes _).
  assert (BACKSLASH ∉ html) as Hh.
  { unfold html, removeBackslashes. by intros [? _]%list_elem_of_filter. }
  destruct (firstElementName _) as [name|]; [|done].
  destruct (isVoidNode name); [|done].
  intros [Hin|[Hin|Hin]%elem_of_app]%elem_of_app; [|done|].
  - revert Hin. compute_done.
  - revert Hin. compute_done.
Qed.

Lemma isPrefix_split P s : isPrefix P s = true → s = P ++ drop (length P) s.
Proof.
  revert s. induction P as [|a P IH]; intros s; [done|].
  destruct s as [|b s]; [done|]. cbn [isPrefix].
  intros [Ha H]%andb_prop. apply N.eqb_eq in Ha as ->.
  cbn [length drop app]. f_equal. by apply IH.
Qed.

Lemma firstSemicolon_spec s n :
  firstSemicolon s = Some n →
  ∃ body, s = body ++ [SEMICOLON] ++ drop n s ∧ (SEMICOLON ∉ body)
          ∧ n = S (length body).
Proof.
  revert n. induction s as [|c r IH]; intros n; [done|].
  cbn [firstSemicolon]. destruct (c =? SEMICOLON)%N eqn:E.
  - intros [= <-]. apply N.eqb_eq in E as ->. exists []. cbn [drop app length].
    split; [done|]. split; [|done]. by intros ?%elem_of_nil.
  - destruct (is_dot c); [|done].
    destruct (firstSemicolon r) as [m|]; [|done]. intros [= <-].
    destruct (IH m eq_refl) as (body & Hs & Hb & ->).
    exists (c :: body). cbn [drop app length]. split; [f_equal; exact Hs|].
    split; [|done]. apply not_elem_of_cons. split; [|done].
    apply N.eqb_neq in E. congruence.
Qed.

Lemma firstSemicolon_match t n :
  firstSemicolon t = Some n →
  ∃ body,
    t = body ++ [SEMICOLON] ++ drop n t
    ∧ take (2 + n) (RIBBON ++ t) = RIBBON ++ body ++ [SEMICOLON]
    ∧ drop (2 + n) (RIBBON ++ t) = drop n t
    ∧ (SEMICOLON ∉ body).
Proof.
  intros (body & Hs & Hb & ->)%firstSemicolon_spec. exists body.
  split; [done|]. split; [|done].
  change (take (2 + S (length body)) (RIBBON ++ t))
    with (RIBBON ++ take (S (length body)) t).
  f_equal. rewrite Hs at 1. rewrite app_assoc.
  rewrite take_app_length'; [done|]. rewrite length_app. cbn [length]. lia.
Qed.

(** A match of the replacement pattern at the start of the line. *)
Lemma wrapReminder_head line n :
  isPrefix RIBBON line = true → firstSemicolon (drop 2 line) = Some n →
  wrapsReminder line (wrapReminder line).
Proof.
  intros R F. destruct line as [|c r]; [done|]. cbn [wrapReminder].
  rewrite R, F. apply isPrefix_split in R. change (length RIBBON) with 2 in R.
  remember (drop 2 (c :: r)) as t eqn:Et. clear Et. rewrite R.
  destruct (firstSemicolon_match _ _ F) as (body & Hs & Ht & Hd & Hb).
  exists [], body, (drop n t). rewrite Ht, Hd.
  split; [|split; [|done]].
  - by rewrite <- Hs.
  - change ([] ++ ?x) with x. by rewrite <- !app_assoc.
Qed.

Lemma wrapReminder_cons c r :
  wrapsReminder r (wrapReminder r) →
  wrapsReminder (c :: r) (wrapReminder (c :: r)).
Proof.
  intros (a & body & c' & E1 & E2 & Hb).
  destruct (isPrefix RIBBON (c :: r)) eqn:R.
  - destruct (firstSemicolon (drop 2 (c :: r))) as [n|] eqn:F.
    + by eapply wrapReminder_head.
    + cbn [wrapReminder]. rewrite R, F. exists (c :: a), body, c'.
      split; [by rewrite E1|]. split; [by rewrite E2|done].
  - cbn [wrapReminder]. rewrite R. exists (c :: a), body, c'.
    split; [by rewrite E1|]. split; [by rewrite E2|done].
Qed.

Lemma wrapReminder_app pre r :
  wrapsReminder r (wrapReminder r) →
  wrapsReminder (pre ++ r) (wrapReminder (pre ++ r)).
Proof.
  intros H. induction pre as [|c pre IH]; [done|]. by apply wrapReminder_cons.
Qed.

(** What the replacement does to a line: nothing, or a span around the
    leftmost ribbon that is followed by a semicolon, up to the first such
    semicolon. *)
Lemma wrapReminder_spec line :
  wrapReminder line = line ∨ wrapsReminder line (wrapReminder line).
Proof.
  induction line as [|c r IH]; [by left|].
  destruct IH as [IH|IH]; [|right; by apply wrapReminder_cons].
  destruct (isPrefix RIBBON (c :: r)) eqn:R.
  - destruct (firstSemicolon (drop 2 (c :: r))) as [n|] eqn:F.
    + right. by eapply wrapReminder_head.
    + left. cbn [wrapReminder]. by rewrite R, F, IH.
  - left. cbn [wrapReminder]. by rewrite R, IH.
Qed.

Lemma semicolonAhead_first s :
  semicolonAhead s = true → is_Some (firstSemicolon s).
Proof.
  induction s as [|c r IH]; [done|]. cbn [semicolonAhead firstSemicolon].
  destruct (c =? SEMICOLON)%N; [by eexists|]. cbn [orb].
  intros [-> H]%andb_prop. destruct (IH H) as [n ->]. by eexists.
Qed.

Lemma ribbonAhead_wraps s :
  ribbonAhead s = true → wrapsReminder s (wrapReminder s).
Proof.
  induction s as [|c r IH]; [done|]. cbn [ribbonAhead].
  intros [H|H]%orb_prop.
  - apply andb_prop in H as [R [n F]%semicolonAhead_first].
    by eapply wrapReminder_head.
  - apply andb_prop in H as [_ H]. by apply wrapReminder_cons, IH.
Qed.

Lemma reminderAt_wraps s :
  reminderAt s = true → wrapsReminder s (wrapReminder s).
Proof.
  unfold reminderAt. destruct s as [|c r]; [done|].
  assert (∀ t, match takeWhile is_space t, dropWhile is_space t with
               | _ :: _, a :: b :: c :: d :: rest =>
                   (a =? 91)%N && is_space b && (c =? 93)%N && is_space d
                   && ribbonAhead rest
               | _, _ => false
               end = true → wrapsReminder t (wrapReminder t)) as Hbox.
  { intros t. pose proof (takeWhile_dropWhile is_space t) as Ht.
    destruct (takeWhile is_space t) as [|w ws]; [done|].
    destruct (dropWhile is_space t) as [|a [|b [|c0 [|d rest]]]]; [done..|].
    intros [_ H]%andb_prop. rewrite <- Ht.
    change (a :: b :: c0 :: d :: rest) with ([a; b; c0; d] ++ rest).
    rewrite app_assoc. by apply wrapReminder_app, ribbonAhead_wraps. }
  destruct (is_bullet c).
  - intros H. by apply wrapReminder_cons, Hbox.
  - pose proof (takeWhile_dropWhile is_digit (c :: r)) as Hd.
    destruct (takeWhile is_digit (c :: r)) as [|d ds]; [done|].
    destruct (dropWhile is_digit (c :: r)) as [|dot r']; [done|].
    destruct (dot =? 46)%N; [|done]. intros H. rewrite <- Hd.
    change (dot :: r') with ([dot] ++ r'). rewrite app_assoc.
    by apply wrapReminder_app, Hbox.
Qed.

(** A line that passes the reminder test has a reminder to wrap. *)
Lemma reminderTest_wraps line :
  reminderTest line = true → wrapsReminder line (wrapReminder line).
Proof.
  induction line as [|c r IH].
  - cbn [reminderTest]. rewrite orb_false_r. apply reminderAt_wraps.
  - cbn [reminderTest]. intros [H|H]%orb_prop; [by apply reminderAt_wraps|].
    by apply wrapReminder_cons, IH.
Qed.

Lemma highlightReminder_free line : LF ∉ line → LF ∉ highlightReminder line.
Proof.
  intros H. unfold highlightReminder. destruct (reminderTest line); [|done].
  destruct (wrapReminder_spec line) as [E|(a & body & c & E & E' & _)];
    [by rewrite E|].
  rewrite E'.
  rewrite E in H. rewrite !elem_of_app in H |- *.
  intros [?|[Ho|[?|[?|Ht]]]]; try (apply H; tauto).
  - revert Ho. compute_done.
  - apply elem_of_cons in Ht as [Hs|[Hc|?]%elem_of_app].
    + discriminate Hs.
    + revert Hc. compute_done.
    + apply H; tauto.
Qed.

(** X27.  The highlighting of reminders works line by line and adds one
    pair of tags to the lines that pass the reminder test, and to no
    other: the lines of the result are those of the block, a line that
    passes the test with a span opened before a ribbon and closed after the
    first semicolon that follows it, any other line unchanged. *)
Theorem preprocessReminders_lines block :
  Forall2 (λ line out,
             if reminderTest line then wrapsReminder line out else out = line)
    (split_on LF block) (split_on LF (preprocessReminders block)).
Proof.
  unfold preprocessReminders. rewrite split_on_join.
  - apply Forall2_fmap_r, Forall_Forall2_diag, Forall_forall.
    intros line _. unfold compose, highlightReminder. cbv beta.
    destruct (reminderTest line) eqn:T; [|done].
    by apply reminderTest_wraps.
  - intros E%fmap_nil_inv. by destruct (split_on_nonempty LF block).
  - apply Forall_fmap. eapply Forall_impl; [apply split_on_free_lines|].
    intros line. apply highlightReminder_free.
Qed.

End RenderFacts.

Lemma bookmark_ignores_renderer_witness :
  let marked := λ text : jsstring, str "<p>" ++ text ++ str "</p>" in
  let firstElementName := λ _ : jsstring, Some (str "P") in
  let block := str "// see [this](x)" in
  isPrefix bookmarkPrefix block = true
  ∧ getNodeForBlock marked firstElementName block
    = bookmarkOpen ++ str "see [this](x)" ++ bookmarkClose
  ∧ getNodeForBlock marked firstElementName block
    = bookmarkOpen ++ drop 3 (preprocessReminders block) ++ bookmarkClose.
Proof.
  intros marked firstElementName block.
  split; [reflexivity|]. split; [reflexivity|].
  exact (bookmark_ignores_renderer marked firstElementName block eq_refl).
Defined.

Lemma rendered_block_has_no_backslash_witness :
  let marked := λ text : jsstring, str "<p>" ++ text ++ str "</p>" in
  let firstElementName := λ _ : jsstring, Some (str "P") in
  let block := str "a" ++ [BACKSLASH] ++ str "*b" in
  isPrefix bookmarkPrefix block = false
  ∧ getNodeForBlock marked firstElementName block = str "<p>a*b</p>"
  ∧ (BACKSLASH ∉ getNodeForBlock marked firstElementName block).
Proof.
  intros marked firstElementName block.
  split; [reflexivity|]. split; [reflexivity|].
  exact (rendered_block_has_no_backslash marked firstElementName block
           eq_refl).
Defined.

(** ** The content of the document *)

Section ContentFacts.
Context (shortid : nat → string).
Implicit Types (st : State) (ev : KeyEvent) (id : string).

Lemma texts_same (d d' : gmap string jsstring) (l : list string) :
  (∀ j, j ∈ l → d' !! j = d !! j) →
  (λ j, default [] (d' !! j)) <$> l = (λ j, default [] (d !! j)) <$> l.
Proof.
  intros H. apply list_fmap_ext. intros i j Hj.
  by rewrite H by (by eapply list_elem_of_lookup_2).
Qed.

(** X28.  A Backspace merge loses no visible character of the document:
    on a document that satisfies the invariant, Backspace at the start of
    one of its blocks leaves the characters of the document text that are
    no white space as they were, in the same order. *)
Theorem backward_merge_keeps_content st ev id :
  doc_ok st → target ev = Some id → id ∈ allLines st →
  key ev = Backspace → caretAtStart ev = true →
  nonSpace (docText (next (handleKeyDown shortid st ev)))
  = nonSpace (docText st).
Proof.
  intros [Hnd Hdom] Ht Hid Hk Hc.
  rewrite (handleKeyDown_backspace_at_start shortid st ev id) by done.
  destruct (arrayIndexOf_elem _ _ Hid) as (pre & post & E & Hpre).
  destruct pre as [|p pre _] using rev_ind.
  { unfold handleBackwardMerge. rewrite E at 1.
    rewrite arrayIndexOf_app by done. done. }
  rewrite <- app_assoc in E. cbn [app] in E.
  assert ((id ∉ pre) ∧ id ≠ p) as [Hpre' Hne] by set_solver.
  rewrite (handleBackwardMerge_at st pre p id post) by done.
  cbv zeta. unfold mergeInto, docText. cbn [next doc allLines].
  rewrite E in Hnd.
  replace (allLines st) with ((pre ++ [p]) ++ [id] ++ post)
    by (by rewrite E, <- app_assoc).
  rewrite (splice_middle (pre ++ [p]) [id] post).
  rewrite <- !app_assoc. cbn [app].
  apply NoDup_app in Hnd as (H1 & H2 & H3).
  apply NoDup_cons in H3 as [H3 H4]. apply NoDup_cons in H4 as [H4 H5].
  set (merged := if isListText _ && isListText _ then _ else _).
  set (d' := delete id (<[p := merged]> (doc st))).
  assert (∀ j, j ≠ p → j ≠ id → d' !! j = doc st !! j) as Hother.
  { intros j Hj1 Hj2. unfold d'.
    by rewrite lookup_delete_ne, lookup_insert_ne. }
  assert (d' !! p = Some merged) as Hp.
  { unfold d'. by rewrite lookup_delete_ne, lookup_insert_eq. }
  rewrite !fmap_app, !fmap_cons, !concat_app, !concat_cons, !nonSpace_app.
  rewrite Hp. cbn [default from_option Datatypes.id].
  rewrite (texts_same (doc st) d' pre), (texts_same (doc st) d' post).
  - f_equal. rewrite (app_assoc (nonSpace (default [] (doc st !! p)))).
    f_equal. unfold merged.
    destruct (isListText _ && isListText _); rewrite nonSpace_app; [|done].
    by rewrite nonSpace_cons_space.
  - intros j Hj. apply Hother; [|intros ->; by apply H4].
    intros ->. apply H3. by right.
  - intros j Hj. apply Hother; [intros ->|intros ->; by apply Hpre'].
    apply (H2 p Hj). by left.
Qed.

Lemma assignBlocks_texts (d : gmap string jsstring) (out ids : list string)
    (bs : list jsstring) :
  NoDup ids → length ids = length bs →
  (λ j, default [] ((assignBlocks (d, out) ids bs).1 !! j)) <$> ids = bs.
Proof.
  intros Hnd Hlen. apply list_eq. intros n. rewrite list_lookup_fmap.
  destruct (ids !! n) as [j|] eqn:Hj; cbn [fmap option_fmap option_map].
  - destruct (lookup_lt_is_Some_2 bs n) as [b Hb].
    { apply lookup_lt_Some in Hj. lia. }
    rewrite Hb. f_equal.
    by rewrite (assignBlocks_lookup d out ids bs n j b).
  - apply lookup_ge_None in Hj. by rewrite lookup_ge_None_2 by lia.
Qed.

(** X29.  A split loses no visible character of the document: when the
    text read from the block is its stored text, Enter in a block that is
    no list block, on a document that satisfies the invariant and with ids
    that are new and distinct, leaves the characters of the document text
    that are no white space as they were, in the same order. *)
Theorem split_keeps_document_content st ev id :
  doc_ok st → target ev = Some id → id ∈ allLines st →
  key ev = Enter → shiftKey ev = false →
  isListBlock (blockMarkdown ev) = false →
  doc st !! id = Some (blockMarkdown ev) →
  NoDup (idsDrawn shortid st (next (handleKeyDown shortid st ev))
         ++ allLines st) →
  nonSpace (docText (next (handleKeyDown shortid st ev)))
  = nonSpace (docText st).
Proof.
  intros [Hnd Hdom] Ht Hid Hk Hs Hl Hd. unfold handleKeyDown.
  rewrite Ht, Hk, Hs, Hl. rewrite bool_decide_eq_true_2 by done.
  cbn [negb andb]. unfold idsDrawn.
  destruct (handleBlockSplit_next shortid st id (blockMarkdown ev)
              (caretPos ev)) as [Hlen ->].
  cbn [generated]. unfold docText. cbn [allLines doc].
  set (md := blockMarkdown ev) in *.
  set (bb := orEmptyBlock (splitIntoBlocks (slice md 0 (caretPos ev)))) in *.
  set (ab := orEmptyBlock (splitIntoBlocks (sliceFrom md (caretPos ev)))) in *.
  replace (generated st + (length bb - 1 + length ab) - generated st)
    with (length bb - 1 + length ab) by lia.
  set (gens := shortid <$> seq (generated st) (length bb - 1 + length ab)) in *.
  intros Hfresh.
  destruct (arrayIndexOf_elem _ _ Hid) as (pre & post & E & Hpre).
  rewrite E in Hfresh |- *. rewrite arrayIndexOf_app by done.
  rewrite (splice_middle pre [id] post).
  apply NoDup_app in Hfresh as (Hg & Hdisj & Hall).
  apply NoDup_app in Hall as (Hp1 & Hp2 & Hp3).
  apply NoDup_cons in Hp3 as [Hp3 Hp4].
  assert (NoDup (id :: gens)) as Hids.
  { apply NoDup_cons. split; [|done]. intros Hin. apply (Hdisj id Hin).
    set_solver. }
  set (d' := (assignBlocks (doc st, []) (id :: gens) (bb ++ ab)).1).
  assert ((λ j, default [] (d' !! j)) <$> (pre ++ (id :: gens) ++ post)
          = ((λ j, default [] (doc st !! j)) <$> pre) ++ (bb ++ ab)
            ++ ((λ j, default [] (doc st !! j)) <$> post)) as ->.
  { rewrite !fmap_app.
    rewrite (texts_same (doc st) d' pre), (texts_same (doc st) d' post).
    - unfold d'. by rewrite assignBlocks_texts by (by rewrite ?length_app).
    - intros j Hj. apply assignBlocks_other.
      intros [->|Hin]%elem_of_cons; [done|].
      apply (Hdisj j Hin). set_solver.
    - intros j Hj. apply assignBlocks_other.
      intros [->|Hin]%elem_of_cons; [by apply (Hp2 id Hj); left|].
      apply (Hdisj j Hin). set_solver. }
  rewrite fmap_app, fmap_cons, Hd. cbn [default from_option Datatypes.id].
  rewrite !concat_app, concat_cons, !nonSpace_app. f_equal. f_equal.
  unfold bb, ab, splitIntoBlocks. rewrite !orEmptyBlock_concat.
  rewrite !nonSpace_blocks_of_lines, !nonSpace_lines,
    !nonSpace_normalizeNewlines.
  by rewrite <- nonSpace_app, slice_sliceFrom.
Qed.

End ContentFacts.

Lemma backward_merge_keeps_content_witness :
  let ev := sampleKey Backspace "b" (str "bar baz") 0 in
  doc_ok sampleState
  ∧ "b"%string ∈ allLines sampleState
  ∧ docText (next (handleKeyDown sampleIds sampleState ev)) = str "foobar baz"
  ∧ nonSpace (docText (next (handleKeyDown sampleIds sampleState ev)))
    = nonSpace (docText sampleState).
Proof.
  intros ev.
  assert (doc_ok sampleState) as H1 by (split; compute_done).
  assert ("b"%string ∈ allLines sampleState) as H2 by compute_done.
  split; [exact H1|]. split; [exact H2|]. split; [reflexivity|].
  exact (backward_merge_keeps_content sampleIds sampleState ev "b" H1 eq_refl
           H2 eq_refl eq_refl).
Defined.

Lemma split_keeps_document_content_witness :
  let ev := sampleKey Enter "b" (str "bar baz") 3 in
  doc_ok sampleState
  ∧ "b"%string ∈ allLines sampleState
  ∧ NoDup (idsDrawn sampleIds sampleState
             (next (handleKeyDown sampleIds sampleState ev))
           ++ allLines sampleState)
  ∧ docText (next (handleKeyDown sampleIds sampleState ev)) = str "foobarbaz"
  ∧ nonSpace (docText (next (handleKeyDown sampleIds sampleState ev)))
    = nonSpace (docText sampleState).
Proof.
  intros ev.
  assert (doc_ok sampleState) as H1 by (split; compute_done).
  assert ("b"%string ∈ allLines sampleState) as H2 by compute_done.
  assert (NoDup (idsDrawn sampleIds sampleState
                   (next (handleKeyDown sampleIds sampleState ev))
                 ++ allLines sampleState)) as H3 by compute_done.
  split; [exact H1|]. split; [exact H2|]. split; [exact H3|].
  split; [reflexivity|].
  exact (split_keeps_document_content sampleIds sampleState ev "b" H1 eq_refl
           H2 eq_refl eq_refl eq_refl eq_refl H3).
Defined.

(** ** The new row of a list *)

Section NewRow.
Context (shortid : nat → string).
Implicit Types (st : State) (ev : KeyEvent) (id : string).

Lemma spansOf_editRows isList lines :
  spansOf (editRows isList lines)
  = (λ l, (safeHtmlLine (htmlLine isList l), l)) <$> lines.
Proof.
  induction lines as [|line rest IH]; [done|].
  cbn [editRows]. destruct rest as [|l2 rest]; [done|].
  change (spansOf (Span (safeHtmlLine (htmlLine isList line)) line
                   :: Br :: editRows isList (l2 :: rest)))
    with ((safeHtmlLine (htmlLine isList line), line)
          :: spansOf (editRows isList (l2 :: rest))).
  by rewrite IH.
Qed.

Lemma spansOf_renderEditBlock text :
  text ≠ [] →
  ∃ isList,
    spansOf (renderEditBlock (Some text))
    = (λ l, (safeHtmlLine (htmlLine isList l), l)) <$> split_on LF text.
Proof.
  intros Hne. unfold renderEditBlock.
  assert (∀ other, orText (Some text) other = text) as Ho
    by (intros other; by destruct text).
  rewrite !Ho. destruct (isListBlock text); eexists; apply spansOf_editRows.
Qed.

(** X30.  The span that the caret callback of a list continuation looks up
    is the span of the new line: after Enter at the end of a list item,
    the block drawn again in edit mode from its new text has, at the index
    after that of the current line, the span whose [data-line] is the
    indent, the marker and the placeholder, and whose content is the
    indent with its spaces as entities, the marker and the entity of a
    non-breaking space; the caret is asked for in that line, after the
    marker and one character. *)
Theorem list_enter_new_row st ev id (row line indent marker content : jsstring)
    (i : nat) :
  key ev = Enter → shiftKey ev = false → target ev = Some id →
  isListBlock (blockMarkdown ev) = true →
  dataLine ev = Some row →
  findLine row (split_on LF (blockMarkdown ev)) 0 = Some (i, line) →
  parseListLine line = Some (indent, marker, content) →
  (contentOffset indent marker content + Z.of_nat (length (trim content))
   ≤ rangeStartOffset ev)%Z →
  let out := handleKeyDown shortid st ev in
  caret out = Some (id, InLine (S i) (Z.of_nat (length marker) + 1))
  ∧ spansOf (renderEditBlock (doc (next out) !! id)) !! S i
    = Some (spacesToNbsp indent ++ marker ++ nbsp, indent ++ marker ++ nbsp).
Proof.
  intros Hk Hs Ht Hl Hd Hfind Hparse Hend out. unfold out.
  rewrite (handleKeyDown_list_enter shortid st ev id row) by done.
  unfold listEnter. rewrite Hfind, Hparse.
  pose proof (indexOf_content _ _ _ _ Hparse) as Hidx.
  assert ((Z.of_nat (length (trim content))
           <=? rangeStartOffset ev - indexOf line (trim content))%Z = true)
    as -> by (apply Z.leb_le; lia).
  pose proof (split_on_free_lines LF (blockMarkdown ev)) as Hfree.
  destruct (line_groups_free shortid _ _ _ _ _ _ _ Hfind Hfree Hparse)
    as (F1 & F2 & F3 & F4).
  destruct (lines_after_rewrite (take i (split_on LF (blockMarkdown ev)))
              line (indent ++ marker ++ nbsp)
              (drop (S i) (split_on LF (blockMarkdown ev)))) as (rest & Hrest).
  { by apply Forall_take. }
  { done. }
  { pose proof nbsp_free. set_solver. }
  { rewrite !blank_app. change (blank nbsp) with false.
    by rewrite !andb_false_r. }
  { rewrite app_assoc. by rewrite trimEnd_app_nonblank. }
  cbn [caret next doc]. split; [done|]. rewrite lookup_insert_eq.
  match goal with
  | |- context [Some (trimEnd ?text)] => set (newMarkdown := trimEnd text)
  end.
  assert (split_on LF newMarkdown
          = take i (split_on LF (blockMarkdown ev))
            ++ line :: (indent ++ marker ++ nbsp) :: rest) as Hlines.
  { rewrite <- Hrest. unfold newMarkdown. by rewrite <- !app_assoc. }
  assert (newMarkdown ≠ []) as Hne.
  { intros E. rewrite E in Hlines. cbn in Hlines.
    destruct (take i (split_on LF (blockMarkdown ev))) as [|? [|? ?]];
      discriminate Hlines. }
  destruct (spansOf_renderEditBlock newMarkdown Hne) as (isList & ->).
  rewrite list_lookup_fmap, Hlines.
  apply findLine_spec in Hfind as (_ & Hi & _). rewrite Nat.sub_0_r in Hi.
  apply lookup_lt_Some in Hi.
  rewrite lookup_app_r by (rewrite length_take; lia).
  rewrite length_take. replace (S i - i `min` _) with 1 by lia.
  cbn [lookup list_lookup fmap option_fmap option_map]. f_equal. f_equal.
  unfold parseListLine in Hparse.
  destruct (match_marker box_xX (dropWhile is_space line)) as [n|] eqn:M;
    [|done].
  injection Hparse as <- <- _.
  destruct (bareMarker_marker _ _ _ M) as (_ & Hfull & c & r & E & Hc).
  rewrite (htmlLine_indent isList _ _ c (r ++ nbsp));
    [|apply takeWhile_all|by rewrite E|done].
  rewrite Hfull.
  assert ((if isList then take n (dropWhile is_space line) ++ nbsp
           else take n (dropWhile is_space line) ++ nbsp)
          = take n (dropWhile is_space line) ++ nbsp) as ->
    by (by destruct isList).
  unfold safeHtmlLine. rewrite bool_decide_eq_false_2; [done|].
  rewrite !length_app. pose proof (eq_refl : length nbsp = 6) as Hn. lia.
Qed.

End NewRow.

Lemma list_enter_new_row_witness :
  let text := str "- a" ++ [LF] ++ str "- b" in
  let st := sampleStateWith text in
  let ev := sampleListKey "b" text (str "- b") 3 in
  let out := handleKeyDown sampleIds st ev in
  isListBlock (blockMarkdown ev) = true
  ∧ findLine (str "- b") (split_on LF (blockMarkdown ev)) 0
    = Some (1, str "- b")
  ∧ parseListLine (str "- b") = Some ([], str "- ", str "b")
  ∧ (contentOffset [] (str "- ") (str "b")
     + Z.of_nat (length (trim (str "b"))) ≤ rangeStartOffset ev)%Z
  ∧ caret out = Some ("b"%string, InLine 2 (Z.of_nat (length (str "- ")) + 1))
  ∧ spansOf (renderEditBlock (doc (next out) !! "b"%string)) !! 2
    = Some (spacesToNbsp [] ++ str "- " ++ nbsp, [] ++ str "- " ++ nbsp).
Proof.
  intros text st ev out.
  assert (contentOffset [] (str "- ") (str "b")
          + Z.of_nat (length (trim (str "b"))) ≤ rangeStartOffset ev)%Z as H
    by compute_done.
  split; [reflexivity|]. split; [reflexivity|]. split; [reflexivity|].
  split; [exact H|].
  exact (list_enter_new_row sampleIds st ev "b" (str "- b") (str "- b") []
           (str "- ") (str "b") 1 eq_refl eq_refl eq_refl eq_refl eq_refl
           eq_refl eq_refl H).
Defined.
